(** * candidDAC analysis helpers: a shallow embedding of
      [analysis/plotting_nb/plotting_helpers.py] and of the script
      [analysis/download_final_ckpt.py]

    Numbers.  The Python code computes on IEEE doubles.  A float is modelled
    by the rational ([Q]) it denotes, compared by value ([Qeq], [Qlt]), and the
    code is embedded at two levels.  In the exact definitions the arithmetic
    operations are those of the rationals; these carry the properties that
    rest on comparing, selecting, counting and raising, and on arithmetic that
    is exact in doubles as well.  In the rounded definitions (suffix [_fl])
    every arithmetic operation is the exact one followed by a rounding, either
    an arbitrary monotone function or the binary64 rounding [round_double];
    these carry the properties that depend on the arithmetic, and the concrete
    runs in double precision.  Python [int] parameters that are used
    arithmetically ([n_acts], [max_dim]) are [Z]; lengths and loop counters
    that index lists are [nat].

    Exceptions.  A Python function that can raise returns [option]: [None]
    stands for the raised exception ([IndexError], [ZeroDivisionError],
    [TypeError], [AttributeError]); which one is said where the [None] is
    produced. *)

From Stdlib Require Import String Ascii.
From Stdlib Require Import QArith Qabs Qround Qpower Lqa ZArith Lia List Bool Arith.
From Stdlib Require Import Permutation Sorted.
From Stdlib Require DecimalString DecimalZ DecimalPos.
Import ListNotations.

Local Open Scope Q_scope.

(** ** A small error monad *)

Definition bind {A B : Type} (m : option A) (f : A -> option B) : option B :=
  match m with
  | Some x => f x
  | None => None
  end.

Notation "x <- m ;; k" := (bind m (fun x => k))
  (at level 61, m at next level, right associativity).

Fixpoint mapM {A B : Type} (f : A -> option B) (l : list A) : option (list B) :=
  match l with
  | [] => Some []
  | x :: t => y <- f x ;; ys <- mapM f t ;; Some (y :: ys)
  end.

(** [for t in range(start, start + len): acc = body t acc] *)
Fixpoint for_range {S : Type} (start len : nat) (body : nat -> S -> option S)
  (acc : S) : option S :=
  match len with
  | O => Some acc
  | Datatypes.S len' => acc' <- body start acc ;; for_range (Datatypes.S start) len' body acc'
  end.

(** Equality of results up to the value of the rational. *)
Definition opt_Qeq (a b : option Q) : Prop :=
  match a, b with
  | Some x, Some y => x == y
  | None, None => True
  | _, _ => False
  end.

(** ** Comparisons on floats *)

Definition Qltb (x y : Q) : bool :=
  match x ?= y with
  | Lt => true
  | _ => false
  end.

(** [a / b] on Python numbers: raises [ZeroDivisionError] when [b] is zero. *)
Definition py_div (a b : Q) : option Q :=
  if Qeq_bool b 0 then None else Some (a / b).

(** [range(n)] for a Python [int]: empty when [n <= 0]. *)
Definition range (n : Z) : list Z :=
  map Z.of_nat (seq 0 (Z.to_nat n)).

(** [range(1, n)] *)
Definition range_from_1 (n : Z) : list Z :=
  map Z.of_nat (seq 1 (Z.to_nat n - 1)).

(** ** Nearest-value lookup *)

(** [np.searchsorted(array, value)] with the default [side='left']: numpy's
    binary search.  [fuel] bounds the number of halvings; [mid] always lies in
    [lo, hi), so the default of [nth] is never read. *)
Fixpoint bisect_left (fuel : nat) (array : list Q) (value : Q) (lo hi : nat) : nat :=
  match fuel with
  | O => lo
  | S fuel' =>
      if (lo <? hi)%nat then
        let mid := (lo + (hi - lo) / 2)%nat in
        if Qltb (nth mid array 0) value
        then bisect_left fuel' array value (S mid) hi
        else bisect_left fuel' array value lo mid
      else lo
  end.

Definition searchsorted (array : list Q) (value : Q) : nat :=
  bisect_left (length array) array value 0 (length array).

(** [find_nearest(array, value)]; [None] is the [IndexError] of [array[0]] on
    an empty array. *)
Definition find_nearest (array : list Q) (value : Q) : option Q :=
  let idx := searchsorted array value in
  if (idx =? 0)%nat then nth_error array 0
  else if (idx =? length array)%nat then nth_error array (length array - 1)
  else
    low <- nth_error array (idx - 1) ;;
    high <- nth_error array idx ;;
    let dist_low := value - low in
    let dist_high := high - value in
    Some (if Qltb dist_low dist_high then low else high).

(** The action-grid invariant: strictly increasing, hence no duplicates. *)
Fixpoint strictly_increasing (a : list Q) : bool :=
  match a with
  | x :: (y :: _) as t => Qltb x y && strictly_increasing t
  | _ => true
  end.

(** Sorted ascending, duplicates allowed. *)
Fixpoint sorted_ascending (a : list Q) : bool :=
  match a with
  | x :: (y :: _) as t => Qle_bool x y && sorted_ascending t
  | _ => true
  end.

(** [r] is a nearest element of [A] to [v]: it is in [A] and nothing in [A] is
    strictly closer. *)
Definition is_nearest (A : list Q) (v r : Q) : Prop :=
  In r A /\ forall x, In x A -> ~ Qabs (x - v) < Qabs (r - v).

(** [v] lies exactly half way between the adjacent elements [lo] (index [i])
    and [hi] (index [i + 1]). *)
Definition exact_tie (A : list Q) (v : Q) (i : nat) (lo hi : Q) : Prop :=
  nth_error A i = Some lo /\ nth_error A (S i) = Some hi /\
  lo < v /\ v < hi /\ v - lo == hi - v.

(** The insertion point: everything before it is below [v], everything from it
    on is at least [v]. *)
Definition insertion_point (a : list Q) (v : Q) (idx : nat) : Prop :=
  (idx <= length a)%nat /\
  (forall k, (k < idx)%nat -> nth k a 0 < v) /\
  (forall k, (idx <= k)%nat -> (k < length a)%nat -> v <= nth k a 0).

(** What [find_nearest] returns once the insertion point is known to lie
    within the array. *)
Definition nearest_at (a : list Q) (v : Q) (idx : nat) : Q :=
  if (idx =? 0)%nat then nth 0 a 0
  else if (idx =? length a)%nat then nth (length a - 1) a 0
  else if Qltb (v - nth (idx - 1) a 0) (nth idx a 0 - v)
       then nth (idx - 1) a 0 else nth idx a 0.

(** ** Run-name canonicalization *)

(** Python's [sub in s] on [str]: [sub] occurs in [s] as a substring. *)
Fixpoint py_in (sub s : string) : bool :=
  String.prefix sub s ||
  match s with
  | EmptyString => false
  | String _ s' => py_in sub s'
  end.

Definition translate_run_name (run_name : string) : string :=
  if py_in "adqn" run_name || py_in "ddqn" run_name then "DDQN"%string
  else if py_in "fdqn_a" run_name || py_in "saql" run_name then "SAQL"%string
  else if py_in "fdqn" run_name || py_in "iql" run_name then "IQL"%string
  else if py_in "sdqn" run_name then "simSDQN"%string
  else run_name.

(** No marker of [translate_run_name] occurs in [s]. *)
Definition no_marker (s : string) : bool :=
  negb (py_in "adqn" s || py_in "ddqn" s || py_in "fdqn_a" s || py_in "saql" s
        || py_in "fdqn" s || py_in "iql" s || py_in "sdqn" s).

(** ** Environments *)

(** The concrete class of an environment object, as [isinstance] sees it. *)
Inductive EnvClass : Type :=
| DiffImportanceFineTuneSigmoidEnv
| PiecewiseLinearEnv
| SigmoidEnv.

(** What [compute_optimal_episode_reward] reads from an environment that has
    been reset to one instance.  [n_steps] and [n_actions] are counts.  [_sig]
    and [_get_target] are methods of the dacbench environments and are taken
    as they come. *)
Record Env : Type := mkEnv {
  env_class : EnvClass;
  n_steps : nat;
  n_actions : nat;
  slopes : list Q;
  shifts : list Q;
  _sig : nat -> Q -> Q -> Q;
  _get_target : nat -> Q
}.

(** [reward_shape == s] for an optional string argument ([None] equals no
    string). *)
Definition shape_is (reward_shape : option string) (s : string) : bool :=
  match reward_shape with
  | Some x => String.eqb x s
  | None => false
  end.

(** [sum(xs)]: left to right, starting from 0. *)
Definition py_sum (xs : list Q) : Q := fold_left Qplus xs 0.

(** The environment [env] with other slopes and shifts. *)
Definition with_slopes_shifts (env : Env) (slopes' shifts' : list Q) : Env :=
  mkEnv (env_class env) (n_steps env) (n_actions env) slopes' shifts'
        (_sig env) (_get_target env).

Section Rewards.

(** [np.exp] *)
Variable np_exp : Q -> Q.

(** The two reward expressions of the source; [c] is [None] by default and
    negating [None] raises [TypeError]. *)
Definition exponential_reward (c : option Q) (truth best_pred_acc : Q) : option Q :=
  c' <- c ;; Some (np_exp (- c' * Qabs (truth - best_pred_acc))).

Definition linear_reward (truth best_pred_acc : Q) : Q :=
  1 - Qabs (truth - best_pred_acc).

(** Per-step reward of the [DiffImportanceFineTuneSigmoidEnv] branch. *)
Definition sigmoid_step_reward (reward_shape : option string) (c : option Q)
  (truth best_pred_acc : Q) : option Q :=
  if shape_is reward_shape "exponential"
  then exponential_reward c truth best_pred_acc
  else Some (linear_reward truth best_pred_acc).

(** Per-step reward of the [PiecewiseLinearEnv] branch. *)
Definition piecewise_step_reward (reward_shape : option string) (c : option Q)
  (truth best_pred_acc : Q) : option Q :=
  if shape_is reward_shape "exponential" || shape_is reward_shape "exp"
  then exponential_reward c truth best_pred_acc
  else Some (linear_reward truth best_pred_acc).

Definition compute_optimal_episode_reward (env : Env) (possible_actions : list Q)
  (reward_shape : option string) (c : option Q) : option Q :=
  match env_class env with
  | DiffImportanceFineTuneSigmoidEnv =>
      shift <- nth_error (shifts env) 0 ;;
      slope <- nth_error (slopes env) 0 ;;
      for_range 0 (n_steps env)
        (fun t optim_episode_reward =>
           let truth := _sig env t slope shift in
           best_pred_acc <- find_nearest possible_actions truth ;;
           r <- sigmoid_step_reward reward_shape c truth best_pred_acc ;;
           Some (optim_episode_reward + r))
        0
  | PiecewiseLinearEnv =>
      for_range 0 (n_steps env)
        (fun t optim_episode_reward =>
           let truth := _get_target env t in
           best_pred_acc <- find_nearest possible_actions truth ;;
           r <- piecewise_step_reward reward_shape c truth best_pred_acc ;;
           Some (optim_episode_reward + r))
        0
  | SigmoidEnv =>
      for_range 0 (n_steps env)
        (fun t optim_episode_reward =>
           step_reward <-
             for_range 0 (n_actions env)
               (fun i step_reward =>
                  slope <- nth_error (slopes env) i ;;
                  shift <- nth_error (shifts env) i ;;
                  let truth := _sig env t slope shift in
                  best_pred_acc <- find_nearest possible_actions truth ;;
                  Some (step_reward * (1 - Qabs (truth - best_pred_acc))))
               1 ;;
           Some (optim_episode_reward + step_reward))
        0
  end.

End Rewards.

(** ** Combinatorial action-grid generation *)

(** [[1 / (n_acts - 1) * i for i in range(n_acts)]] *)
Definition uniform_actions (n_acts : Z) : option (list Q) :=
  mapM (fun i => q <- py_div 1 (inject_Z (n_acts - 1)) ;; Some (q * inject_Z i))
       (range n_acts).

(** [[importance_base**i * (j / (n_acts - 1) - 0.5) for j in range(n_acts)]] *)
Definition centered_actions (importance_base : Q) (n_acts : Z) (i : Z) : option (list Q) :=
  mapM (fun j => q <- py_div (inject_Z j) (inject_Z (n_acts - 1)) ;;
                 Some (importance_base ^ i * (q - (1 # 2))))
       (range n_acts).

Definition possible_actions_per_dim (max_dim : Z) (importance_base : Q) (n_acts : Z)
  : option (list (list Q)) :=
  row0 <- uniform_actions n_acts ;;
  rows <- mapM (centered_actions importance_base n_acts) (range_from_1 max_dim) ;;
  Some (row0 :: rows).

(** [itertools.product] over a list of pools: tuples in lexicographic order. *)
Fixpoint product {A : Type} (pools : list (list A)) : list (list A) :=
  match pools with
  | [] => [[]]
  | pool :: rest => flat_map (fun x => map (cons x) (product rest)) pool
  end.

Definition enumerate {A : Type} (l : list A) : list (nat * A) :=
  combine (seq 0 (length l)) l.

(** [np.sort]: the result is the ascending arrangement of the input. *)
Fixpoint insert_sorted (x : Q) (l : list Q) : list Q :=
  match l with
  | [] => [x]
  | y :: t => if Qle_bool x y then x :: l else y :: insert_sorted x t
  end.

Definition np_sort (l : list Q) : list Q := fold_right insert_sorted [] l.

(** [np.unique]: sort, then keep the first element and every element that
    differs from its predecessor. *)
Fixpoint keep_changes (prev : Q) (l : list Q) : list Q :=
  match l with
  | [] => []
  | x :: t => if Qeq_bool x prev then keep_changes x t else x :: keep_changes x t
  end.

Definition np_unique (l : list Q) : list Q :=
  match np_sort l with
  | [] => []
  | x :: t => x :: keep_changes x t
  end.

(** The sums over the Cartesian product, before deduplication. *)
Definition product_sums (per_dim : list (list Q)) : list Q :=
  let indices := product (map (fun vec => seq 0 (length vec)) per_dim) in
  map (fun indices_tuple =>
         py_sum (map (fun ij => nth (snd ij) (nth (fst ij) per_dim []) 0)
                     (enumerate indices_tuple)))
      indices.

Definition get_actions_importance_sigmoid (max_dim : Z) (importance_base : Q) (n_acts : Z)
  : option (list Q) :=
  per_dim <- possible_actions_per_dim max_dim importance_base n_acts ;;
  let possible_actions_acc := product_sums per_dim in
  let possible_actions_acc := np_unique possible_actions_acc in
  let possible_actions_acc := np_sort possible_actions_acc in
  Some possible_actions_acc.

(** Element-wise equality of float arrays. *)
Definition Qlist_eq (l1 l2 : list Q) : Prop := Forall2 Qeq l1 l2.

(** Membership in a float array, by value. *)
Definition InQ (x : Q) (l : list Q) : Prop := exists y, In y l /\ y == x.

(** ** Best possible average reward *)

(** A dacbench environment object: its set of instances and the identifier of
    the instance it is currently reset to.  Each instance is given by what the
    environment exposes once reset to it. *)
Record EnvState : Type := mkEnvState {
  instance_set : list Env;
  inst_id : nat
}.

Definition instance_id_list (env : EnvState) : list nat :=
  seq 0 (length (instance_set env)).

(** [env.reset()] advances to the next instance of the list, wrapping around;
    it raises on an environment without instances. *)
Definition reset (env : EnvState) : option EnvState :=
  match instance_set env with
  | [] => None
  | _ :: _ =>
      Some (mkEnvState (instance_set env)
              ((inst_id env + 1) mod length (instance_set env)))
  end.

(** The instance the environment is reset to. *)
Definition current_instance (env : EnvState) : option Env :=
  nth_error (instance_set env) (inst_id env).

(** The instances visited by [k] successive resets, starting at instance
    [j]. *)
Fixpoint visited (l : list Env) (j k : nat) : list Env :=
  match k with
  | O => []
  | S k' =>
      match nth_error l j with
      | Some inst => inst :: visited l ((j + 1) mod length l) k'
      | None => []
      end
  end.

(** The environment constructors of dacbench's [SigmoidBenchmark] and
    [PiecewiseLinearBenchmark], as used by [get_best_possible_avg_reward]. *)
Record Benchmarks : Type := mkBenchmarks {
  (** [SigmoidBenchmark().get_importances_benchmark(dimension, seed=0,
      multi_agent=False, importances, reward_shape)] *)
  get_importances_benchmark : Z -> list Q -> option string -> EnvState;
  (** [PiecewiseLinearBenchmark()] after [set_action_values(values,
      importances)], then [get_environment()] *)
  get_piecewise_environment : list Z -> list Q -> EnvState;
  (** [SigmoidBenchmark().get_benchmark(dimension, seed=0, multi_agent=False)] *)
  get_benchmark : Z -> EnvState
}.

(** [np.mean] of a non-empty array. *)
Definition np_mean (xs : list Q) : Q :=
  py_sum xs / inject_Z (Z.of_nat (length xs)).

Section BestPossible.

Variable np_exp : Q -> Q.

(** One round of the loop over the instances: store the optimal reward of
    the current instance at index [i], then [env.reset()].  The array filled
    index by index is the list built in order. *)
Definition instance_loop_body (possible_actions_acc : list Q)
  (reward_shape : option string) (c : option Q) (i : nat)
  (st : list Q * EnvState) : option (list Q * EnvState) :=
  let (optim_reward_per_episode_acc, env) := st in
  inst <- current_instance env ;;
  r <- compute_optimal_episode_reward np_exp inst possible_actions_acc
         reward_shape c ;;
  env' <- reset env ;;
  Some (optim_reward_per_episode_acc ++ [r], env').

(** The loop shared by the three branches: [env.reset()], then one round
    for every [i] in [range(len(env.instance_id_list))]. *)
Definition optimal_reward_per_episode (env : EnvState) (possible_actions_acc : list Q)
  (reward_shape : option string) (c : option Q) : option (list Q) :=
  env0 <- reset env ;;
  res <- for_range 0 (length (instance_id_list env))
           (instance_loop_body possible_actions_acc reward_shape c)
           ([], env0) ;;
  Some (fst res).

(** [max_dim] is [None] by default; [range(1, None)] raises [TypeError].  The
    two [print] calls of the last grid branch do not bear on the result. *)
Definition get_best_possible_avg_reward (B : Benchmarks) (dim : Z) (benchmark : string)
  (reward_shape : option string) (c : option Q) (importance_base : Q) (n_acts : Z)
  (max_dim : option Z) : option Q :=
  possible_actions_acc <-
    (if String.eqb benchmark "candid_sigmoid" || String.eqb benchmark "piecewise_linear"
     then max_dim' <- max_dim ;;
          get_actions_importance_sigmoid max_dim' importance_base n_acts
     else uniform_actions n_acts) ;;
  optim_reward_per_episode_acc <-
    (if String.eqb benchmark "candid_sigmoid" then
       let importances := map (fun i => importance_base ^ i) (range dim) in
       let env := get_importances_benchmark B dim importances reward_shape in
       optimal_reward_per_episode env possible_actions_acc reward_shape c
     else if String.eqb benchmark "piecewise_linear" then
       let importances := map (fun i => importance_base ^ i) (range dim) in
       let env := get_piecewise_environment B (map (fun _ => n_acts) (range dim))
                    importances in
       optimal_reward_per_episode env possible_actions_acc reward_shape c
     else
       let env := get_benchmark B dim in
       optimal_reward_per_episode env possible_actions_acc reward_shape c) ;;
  Some (np_mean optim_reward_per_episode_acc).

End BestPossible.

(** Two benchmark suites build, for every call, environments over the same
    instances, enumerated in a possibly different order and starting from a
    possibly different instance. *)
Definition same_instances_reordered (B1 B2 : Benchmarks) : Prop :=
  (forall d imp rs,
      Permutation (instance_set (get_importances_benchmark B1 d imp rs))
                  (instance_set (get_importances_benchmark B2 d imp rs))) /\
  (forall vals imp,
      Permutation (instance_set (get_piecewise_environment B1 vals imp))
                  (instance_set (get_piecewise_environment B2 vals imp))) /\
  (forall d,
      Permutation (instance_set (get_benchmark B1 d))
                  (instance_set (get_benchmark B2 d))).

(** ** Configuration-table filtering *)

(** One row of a configuration table whose [config_id] column holds strings
    (tables that also hold numeric identifiers are [TableRow] below). *)
Record ConfigRow : Type := mkConfigRow {
  col_config_id : string;
  col_dim : Z;
  col_benchmark : string;
  col_reverse_agents : bool;
  col_n_act : Z;
  col_importance_base : Q;
  col_reward_shape : string;
  col_exp_reward : Q
}.

(** The [config_id] argument: a string such as ['best'], or a number.  The
    column holds strings, and no string equals a number. *)
Inductive ConfigId : Type :=
| ConfigName (s : string)
| ConfigNumber (z : Z).

Definition config_id_is_best (config_id : ConfigId) : bool :=
  match config_id with
  | ConfigName s => String.eqb s "best"
  | ConfigNumber _ => false
  end.

Definition config_id_eq (cell : string) (config_id : ConfigId) : bool :=
  match config_id with
  | ConfigName s => String.eqb cell s
  | ConfigNumber _ => false
  end.

(** [df['n_act'] == n_act]; the default argument is the class [float] ([None]
    here), which equals no cell. *)
Definition n_act_eq (cell : Z) (n_act : option Z) : bool :=
  match n_act with
  | Some n => Z.eqb cell n
  | None => false
  end.

Definition get_run_configs (df_config : list ConfigRow) (dim : Z) (benchmark : string)
  (config_id : ConfigId) (reverse_agents : bool) (importance_base : Q)
  (reward_shape : string) (exp_reward : Q) (n_act : option Z) : list ConfigRow :=
  let df_config :=
    if config_id_is_best config_id
    then filter (fun r => py_in "best" (col_config_id r)) df_config
    else filter (fun r => config_id_eq (col_config_id r) config_id) df_config in
  let df_config :=
    filter (fun r => Z.eqb (col_dim r) dim
                     && String.eqb (col_benchmark r) benchmark
                     && Bool.eqb (col_reverse_agents r) reverse_agents
                     && n_act_eq (col_n_act r) n_act) df_config in
  if String.eqb benchmark "candid_sigmoid" || String.eqb benchmark "piecewise_linear" then
    let df_config :=
      filter (fun r => Qeq_bool (col_importance_base r) importance_base
                       && String.eqb (col_reward_shape r) reward_shape) df_config in
    if String.eqb reward_shape "exp" then
      filter (fun r => Qeq_bool (col_exp_reward r) exp_reward) df_config
    else df_config
  else df_config.


(** [sub] is a sublist of [l]: rows of [l], unchanged and in their order. *)
Inductive sublist {A : Type} : list A -> list A -> Prop :=
| sublist_nil : sublist [] []
| sublist_skip : forall x sub l, sublist sub l -> sublist sub (x :: l)
| sublist_keep : forall x sub l, sublist sub l -> sublist (x :: sub) (x :: l).

(** ** Auxiliary notions for the further properties *)

(** Two results are related: both raised, or both returned related values. *)
Definition opt_rel {A B : Type} (R : A -> B -> Prop) (a : option A) (b : option B) : Prop :=
  match a, b with
  | Some x, Some y => R x y
  | None, None => True
  | _, _ => False
  end.

(** The test a row passes to be kept by [get_run_configs], all filters of the
    source taken together. *)
Definition keeps_row (dim : Z) (benchmark : string) (config_id : ConfigId)
  (reverse_agents : bool) (importance_base : Q) (reward_shape : string)
  (exp_reward : Q) (n_act : option Z) (r : ConfigRow) : bool :=
  (if config_id_is_best config_id then py_in "best" (col_config_id r)
   else config_id_eq (col_config_id r) config_id)
  && (Z.eqb (col_dim r) dim
      && String.eqb (col_benchmark r) benchmark
      && Bool.eqb (col_reverse_agents r) reverse_agents
      && n_act_eq (col_n_act r) n_act)
  && (if String.eqb benchmark "candid_sigmoid" || String.eqb benchmark "piecewise_linear"
      then Qeq_bool (col_importance_base r) importance_base
           && String.eqb (col_reward_shape r) reward_shape
           && (if String.eqb reward_shape "exp"
               then Qeq_bool (col_exp_reward r) exp_reward else true)
      else true).

(** ** Policy evaluation: producing the action *)

(** [np.prod] of a list of integers. *)
Definition np_prod (xs : list Z) : Z := fold_left Z.mul xs 1%Z.

(** [np.unravel_index(index, shape)] in C order: from the last dimension to the
    first, the component is the remainder and the index is divided.  An index
    outside [0, prod(shape)) raises [ValueError]. *)
Definition unravel_index (index : Z) (shape : list Z) : option (list Z) :=
  if (0 <=? index)%Z && (index <? np_prod shape)%Z then
    Some (snd (fold_right
                 (fun dim (st : Z * list Z) =>
                    ((fst st / dim)%Z, (fst st mod dim)%Z :: snd st))
                 (index, []) shape))
  else None.

(** The position of a tuple of per-dimension indices in the flattened joint
    space (C order). *)
Fixpoint ravel_multi_index (multi_index shape : list Z) : Z :=
  match multi_index, shape with
  | i :: multi_index', _ :: shape' =>
      (i * np_prod shape' + ravel_multi_index multi_index' shape')%Z
  | _, _ => 0%Z
  end.

(** A policy as [eval_policy_on_sigmoid] uses it: a factorized policy answers
    [get_action(obs)] with a ready action tuple, any other policy is called on
    the observation and answers with an index into the joint action space. *)
Inductive Policy (Obs : Type) : Type :=
| FactorizedPolicy (get_action : Obs -> list Z)
| AtomicPolicy (forward : Obs -> Z).

Arguments FactorizedPolicy {Obs} get_action.
Arguments AtomicPolicy {Obs} forward.

(** The action passed to [env.step] for an observation; [nvec] is
    [env.action_space.nvec]. *)
Definition select_action {Obs : Type} (policy : Policy Obs) (nvec : list Z) (obs : Obs)
  : option (list Z) :=
  match policy with
  | FactorizedPolicy get_action => Some (get_action obs)
  | AtomicPolicy forward => unravel_index (forward obs) nvec
  end.

(** ** Checkpoints *)

(** An integer formatted in an f-string: its decimal numeral. *)
Definition py_str (z : Z) : string :=
  DecimalString.NilZero.string_of_int (Z.to_int z).

(** The entries of [config] that [load_policy_from_checkpoint] reads. *)
Record PolicyConfig : Type := mkPolicyConfig {
  cfg_fdqn : bool;
  cfg_dim : Z;
  cfg_autorecursive : bool;
  cfg_run_name : string
}.

(** [env.observation_space.shape] and [env.action_space.nvec]. *)
Record EnvSpaces : Type := mkEnvSpaces {
  observation_shape : list Z;
  action_nvec : list Z
}.

(** The policy that is built, given by the constructor called and its
    arguments. *)
Inductive PolicySpec : Type :=
| FactorizedPolicySpec (obs_dim n_dims n_acts : Z)
    (path_to_q_ckpts : option (list string)) (autorecursive : bool)
| AtomicPolicySpec (obs_dim n_outputs : Z) (q_ckpt target_ckpt : option string).

(** [episode = 'final' if final else episode], as it is formatted in a path. *)
Definition episode_label (episode : Z) (final : bool) : string :=
  if final then "final"%string else py_str episode.

(** [None] is the [IndexError] of [shape[0]] or [nvec[0]] on an empty
    sequence. *)
Definition load_policy_from_checkpoint (config : PolicyConfig) (env : EnvSpaces)
  (ckpt_directory : option string) (episode : Z) (final : bool) : option PolicySpec :=
  let episode := episode_label episode final in
  if cfg_fdqn config then
    let q_network_paths :=
      match ckpt_directory with
      | None => None
      | Some dir =>
          Some (map (fun i => (dir ++ "/" ++ episode ++ "_q_network_" ++ py_str i
                               ++ ".pth")%string)
                    (range (cfg_dim config)))
      end in
    let autorecursive :=
      cfg_autorecursive config || py_in "sdqn" (cfg_run_name config) in
    obs_dim <- nth_error (observation_shape env) 0 ;;
    n_acts <- nth_error (action_nvec env) 0 ;;
    Some (FactorizedPolicySpec obs_dim (Z.of_nat (length (action_nvec env))) n_acts
            q_network_paths autorecursive)
  else
    let q_network_path :=
      match ckpt_directory with
      | None => None
      | Some dir => Some (dir ++ "/" ++ episode ++ "_q_network_0.pth")%string
      end in
    let target_network_path :=
      match ckpt_directory with
      | None => None
      | Some dir => Some (dir ++ "/" ++ episode ++ "_target_network_0.pth")%string
      end in
    obs_dim <- nth_error (observation_shape env) 0 ;;
    Some (AtomicPolicySpec obs_dim (np_prod (action_nvec env)) q_network_path
            target_network_path).

(** The script [download_final_ckpt.py]: the names of the files it downloads
    from the run, in order, given the run's [benchmark] and [dim]. *)
Definition download_final_ckpt (benchmark : string) (dim : Z) : list string :=
  if String.eqb benchmark "candid_sigmoid" || String.eqb benchmark "piecewise_linear"
  then map (fun i => ("final_q_network_" ++ py_str i ++ ".pth")%string) (range dim)
  else [].

(** ** Policy evaluation: the loop over the instances *)

(** What running a loop without a static bound can give: a value, an
    exception, or no answer within the allotted number of steps. *)
Inductive Outcome (A : Type) : Type :=
| Returned (a : A)
| Raised
| OutOfFuel.

Arguments Returned {A} a.
Arguments Raised {A}.
Arguments OutOfFuel {A}.

(** The environment as [eval_policy_on_sigmoid] drives it, over a type [St] of
    environment states: [len(env.instance_id_list)], [env.reset()] (the
    observation and the new state), [env.step(action)] (observation, reward,
    terminated, truncated and the new state), [env.inst_id] and
    [env.action_space.nvec].  [None] is a raised exception. *)
Record GymEnv (St Obs : Type) : Type := mkGymEnv {
  gym_n_instances : St -> nat;
  gym_reset : St -> option (Obs * St);
  gym_step : list Z -> St -> option (Obs * Q * bool * bool * St);
  gym_inst_id : St -> nat;
  gym_nvec : St -> list Z
}.

Arguments gym_n_instances {St Obs} g st.
Arguments gym_reset {St Obs} g st.
Arguments gym_step {St Obs} g action st.
Arguments gym_inst_id {St Obs} g st.
Arguments gym_nvec {St Obs} g st.

(** [array[i] = x]; the index is checked by the caller. *)
Fixpoint array_set {A : Type} (i : nat) (x : A) (l : list A) {struct l} : list A :=
  match l, i with
  | [], _ => []
  | _ :: t, O => x :: t
  | y :: t, S i' => y :: array_set i' x t
  end.

(** The [while not done] loop of one episode; [fuel] bounds the number of
    steps. *)
Fixpoint run_episode {St Obs : Type} (fuel : nat) (policy : Policy Obs)
  (env : GymEnv St Obs) (obs : Obs) (st : St) (episodic_reward : Q)
  : Outcome (Q * St) :=
  match fuel with
  | O => OutOfFuel
  | S fuel' =>
      match select_action policy (gym_nvec env st) obs with
      | None => Raised
      | Some action =>
          match gym_step env action st with
          | None => Raised
          | Some (obs', reward, terminated, truncated, st') =>
              let episodic_reward := episodic_reward + reward in
              if terminated || truncated then Returned (episodic_reward, st')
              else run_episode fuel' policy env obs' st' episodic_reward
          end
      end
  end.

(** [k] rounds of the loop over the instances.  A float array with [nan]
    entries is a list of optional values, [None] for [nan]; writing outside the
    array raises [IndexError]. *)
Fixpoint eval_rounds {St Obs : Type} (fuel : nat) (policy : Policy Obs)
  (env : GymEnv St Obs) (k : nat) (st : St) (rewards_per_episode : list (option Q))
  : Outcome (list (option Q)) :=
  match k with
  | O => Returned rewards_per_episode
  | S k' =>
      match gym_reset env st with
      | None => Raised
      | Some (obs, st) =>
          match run_episode fuel policy env obs st 0 with
          | Returned (episodic_reward, st) =>
              if (gym_inst_id env st <? length rewards_per_episode)%nat then
                eval_rounds fuel policy env k' st
                  (array_set (gym_inst_id env st) (Some episodic_reward)
                     rewards_per_episode)
              else Raised
          | Raised => Raised
          | OutOfFuel => OutOfFuel
          end
      end
  end.

Definition eval_policy_on_sigmoid {St Obs : Type} (fuel : nat) (policy : Policy Obs)
  (env : GymEnv St Obs) (st : St) : Outcome (list (option Q)) :=
  let rewards_per_episode := repeat None (gym_n_instances env st) in
  eval_rounds fuel policy env (gym_n_instances env st) st rewards_per_episode.

(** The environment enumerates [n] instances in a cycle: every reset succeeds
    and moves to the next instance identifier modulo [n], and a step leaves
    the identifier as it is. *)
Definition cycles_instances {St Obs : Type} (env : GymEnv St Obs) (n : nat) : Prop :=
  (forall st, exists obs st',
      gym_reset env st = Some (obs, st') /\
      gym_inst_id env st' = ((gym_inst_id env st + 1) mod n)%nat) /\
  (forall action st obs reward terminated truncated st',
      gym_step env action st = Some (obs, reward, terminated, truncated, st') ->
      gym_inst_id env st' = gym_inst_id env st).

(** Every episode started by a reset ends within [fuel] steps without
    raising. *)
Definition episodes_end_within {St Obs : Type} (fuel : nat) (policy : Policy Obs)
  (env : GymEnv St Obs) : Prop :=
  forall st obs st', gym_reset env st = Some (obs, st') ->
                     exists r st'', run_episode fuel policy env obs st' 0
                                    = Returned (r, st'').

(** ** The numeric code in double precision *)

(** The exact definitions above ignore rounding.  Where a property depends on
    it, the same code is modelled with its floating-point operations made
    explicit: a float is still a rational (the value of the double), and every
    [+], [-], [*] and [/] on floats is the exact operation followed by a
    rounding [fl].  IEEE 754 arithmetic rounds the exact result to the nearest
    double, so [fl] is monotone ([round_double_monotone] below); nothing else
    is assumed of it unless said. *)

(** The floating-point operations of the platform. *)
Record FloatOps : Type := mkFloatOps {
  fl : Q -> Q;
  float_pow : Q -> Z -> Q;
  float_exp : Q -> Q;
  float_mean : list Q -> Q
}.

(** [fl]: the rounding of an exact result; [float_pow]: [x ** i];
    [float_exp]: [np.exp]; [float_mean]: [np.mean]. *)

Definition monotone (rnd : Q -> Q) : Prop :=
  forall x y, x <= y -> rnd x <= rnd y.

(** Exact arithmetic as an instance: no rounding. *)
Definition exact_ops (np_exp : Q -> Q) : FloatOps :=
  mkFloatOps (fun x => x) Qpower np_exp np_mean.

(** *** Binary64 *)

(** A non-negative fraction [n / d] rounded to an integer, ties to even. *)
Definition round_half_even (n d : Z) : Z :=
  let q := (n / d)%Z in
  let r := (n mod d)%Z in
  match (2 * r ?= d)%Z with
  | Lt => q
  | Gt => (q + 1)%Z
  | Eq => if Z.even q then q else (q + 1)%Z
  end.

(** The pair [(a, b)] with [a / b = (n / d) / 2 ^ k]. *)
Definition scaled (n d k : Z) : Z * Z :=
  if (0 <=? k)%Z then (n, (d * 2 ^ k)%Z) else ((n * 2 ^ (- k))%Z, d).

(** The exponent [k] of the unit in the last place of a normal double next to
    [n / d > 0]: the one with [2 ^ 52 <= (n / d) / 2 ^ k < 2 ^ 53]. *)
Definition ulp_exponent (n d : Z) : Z :=
  let k0 := (Z.log2 n - Z.log2 d - 52)%Z in
  if (fst (scaled n d k0) <? snd (scaled n d k0) * 2 ^ 52)%Z
  then (k0 - 1)%Z else k0.

(** The double nearest to [n / d > 0]: a multiple [m * 2 ^ k] of the unit in
    the last place, which is at least that of the subnormals, [2 ^ -1074]. *)
Definition round_magnitude (n d : Z) : Q :=
  let k := Z.max (ulp_exponent n d) (-1074) in
  let m := round_half_even (fst (scaled n d k)) (snd (scaled n d k)) in
  if (0 <=? k)%Z then inject_Z (m * 2 ^ k)
  else inject_Z m / inject_Z (2 ^ (- k)).

(** The double nearest to a rational (round to nearest, ties to even; 53
    bits of precision, subnormals from exponent -1074 on; overflow is not
    modelled). *)
Definition round_double (x : Q) : Q :=
  let n := Z.abs (Qnum x) in
  let d := Z.pos (Qden x) in
  if (n =? 0)%Z then 0
  else if (Qnum x <? 0)%Z then - round_magnitude n d
  else round_magnitude n d.

(** [np.mean] as the sum in array order divided by the length, each operation
    rounded.  This is what numpy computes on an array of fewer than 8
    elements; longer arrays are added blockwise. *)
Definition mean_in_order (rnd : Q -> Q) (xs : list Q) : Q :=
  rnd (fold_left (fun acc x => rnd (acc + x)) xs 0
       / inject_Z (Z.of_nat (length xs))).

(** Binary64 arithmetic with a correctly rounded power.  [np.exp], whose value
    is not rational in general, stays a parameter. *)
Definition double_ops (np_exp : Q -> Q) : FloatOps :=
  mkFloatOps round_double (fun x i => round_double (x ^ i)) np_exp
    (mean_in_order round_double).

(** *** Nearest-value lookup *)

(** [find_nearest] with the two distances rounded; the binary search compares
    only. *)
Definition find_nearest_fl (rnd : Q -> Q) (array : list Q) (value : Q) : option Q :=
  let idx := searchsorted array value in
  if (idx =? 0)%nat then nth_error array 0
  else if (idx =? length array)%nat then nth_error array (length array - 1)
  else
    low <- nth_error array (idx - 1) ;;
    high <- nth_error array idx ;;
    let dist_low := rnd (value - low) in
    let dist_high := rnd (high - value) in
    Some (if Qltb dist_low dist_high then low else high).

(** What [find_nearest_fl] returns once the insertion point is known to lie
    within the array. *)
Definition nearest_at_fl (rnd : Q -> Q) (a : list Q) (v : Q) (idx : nat) : Q :=
  if (idx =? 0)%nat then nth 0 a 0
  else if (idx =? length a)%nat then nth (length a - 1) a 0
  else if Qltb (rnd (v - nth (idx - 1) a 0)) (rnd (nth idx a 0 - v))
       then nth (idx - 1) a 0 else nth idx a 0.

(** *** Action grids *)

Definition py_div_fl (rnd : Q -> Q) (a b : Q) : option Q :=
  if Qeq_bool b 0 then None else Some (rnd (a / b)).

(** [[1 / (n_acts - 1) * i for i in range(n_acts)]] *)
Definition uniform_actions_fl (rnd : Q -> Q) (n_acts : Z) : option (list Q) :=
  mapM (fun i => q <- py_div_fl rnd 1 (inject_Z (n_acts - 1)) ;;
                 Some (rnd (q * inject_Z i)))
       (range n_acts).

(** [[importance_base**i * (j / (n_acts - 1) - 0.5) for j in range(n_acts)]] *)
Definition centered_actions_fl (ops : FloatOps) (importance_base : Q) (n_acts : Z)
  (i : Z) : option (list Q) :=
  mapM (fun j => q <- py_div_fl (fl ops) (inject_Z j) (inject_Z (n_acts - 1)) ;;
                 Some (fl ops (float_pow ops importance_base i
                               * fl ops (q - (1 # 2)))))
       (range n_acts).

Definition possible_actions_per_dim_fl (ops : FloatOps) (max_dim : Z)
  (importance_base : Q) (n_acts : Z) : option (list (list Q)) :=
  row0 <- uniform_actions_fl (fl ops) n_acts ;;
  rows <- mapM (centered_actions_fl ops importance_base n_acts) (range_from_1 max_dim) ;;
  Some (row0 :: rows).

(** [sum(xs)] on floats: left to right from 0, every addition rounded. *)
Definition py_sum_fl (rnd : Q -> Q) (xs : list Q) : Q :=
  fold_left (fun acc x => rnd (acc + x)) xs 0.

Definition product_sums_fl (rnd : Q -> Q) (per_dim : list (list Q)) : list Q :=
  let indices := product (map (fun vec => seq 0 (length vec)) per_dim) in
  map (fun indices_tuple =>
         py_sum_fl rnd (map (fun ij => nth (snd ij) (nth (fst ij) per_dim []) 0)
                            (enumerate indices_tuple)))
      indices.

Definition get_actions_importance_sigmoid_fl (ops : FloatOps) (max_dim : Z)
  (importance_base : Q) (n_acts : Z) : option (list Q) :=
  per_dim <- possible_actions_per_dim_fl ops max_dim importance_base n_acts ;;
  let possible_actions_acc := product_sums_fl (fl ops) per_dim in
  let possible_actions_acc := np_unique possible_actions_acc in
  let possible_actions_acc := np_sort possible_actions_acc in
  Some possible_actions_acc.

(** *** Optimal episode reward *)

(** [np.exp(-c * np.abs(truth - best_pred_acc))] *)
Definition exponential_reward_fl (ops : FloatOps) (c : option Q)
  (truth best_pred_acc : Q) : option Q :=
  c' <- c ;;
  Some (float_exp ops (fl ops (- c' * Qabs (fl ops (truth - best_pred_acc))))).

(** [1 - np.abs(truth - best_pred_acc)] *)
Definition linear_reward_fl (ops : FloatOps) (truth best_pred_acc : Q) : Q :=
  fl ops (1 - Qabs (fl ops (truth - best_pred_acc))).

Definition compute_optimal_episode_reward_fl (ops : FloatOps) (env : Env)
  (possible_actions : list Q) (reward_shape : option string) (c : option Q)
  : option Q :=
  match env_class env with
  | DiffImportanceFineTuneSigmoidEnv =>
      shift <- nth_error (shifts env) 0 ;;
      slope <- nth_error (slopes env) 0 ;;
      for_range 0 (n_steps env)
        (fun t optim_episode_reward =>
           let truth := _sig env t slope shift in
           best_pred_acc <- find_nearest_fl (fl ops) possible_actions truth ;;
           r <- (if shape_is reward_shape "exponential"
                 then exponential_reward_fl ops c truth best_pred_acc
                 else Some (linear_reward_fl ops truth best_pred_acc)) ;;
           Some (fl ops (optim_episode_reward + r)))
        0
  | PiecewiseLinearEnv =>
      for_range 0 (n_steps env)
        (fun t optim_episode_reward =>
           let truth := _get_target env t in
           best_pred_acc <- find_nearest_fl (fl ops) possible_actions truth ;;
           r <- (if shape_is reward_shape "exponential" || shape_is reward_shape "exp"
                 then exponential_reward_fl ops c truth best_pred_acc
                 else Some (linear_reward_fl ops truth best_pred_acc)) ;;
           Some (fl ops (optim_episode_reward + r)))
        0
  | SigmoidEnv =>
      for_range 0 (n_steps env)
        (fun t optim_episode_reward =>
           step_reward <-
             for_range 0 (n_actions env)
               (fun i step_reward =>
                  slope <- nth_error (slopes env) i ;;
                  shift <- nth_error (shifts env) i ;;
                  let truth := _sig env t slope shift in
                  best_pred_acc <- find_nearest_fl (fl ops) possible_actions truth ;;
                  Some (fl ops (step_reward * linear_reward_fl ops truth best_pred_acc)))
               1 ;;
           Some (fl ops (optim_episode_reward + step_reward)))
        0
  end.

(** *** Best possible average reward *)

(** One round of the loop over the instances, for any way [reward] of
    computing the reward of the current instance: store it at index [i], then
    [env.reset()]. *)
Definition instance_round (reward : Env -> option Q) (i : nat)
  (st : list Q * EnvState) : option (list Q * EnvState) :=
  let (optim_reward_per_episode_acc, env) := st in
  inst <- current_instance env ;;
  r <- reward inst ;;
  env' <- reset env ;;
  Some (optim_reward_per_episode_acc ++ [r], env').

(** The array [optim_reward_per_episode_acc] after the loop. *)
Definition optimal_reward_per_episode_fl (ops : FloatOps) (env : EnvState)
  (possible_actions_acc : list Q) (reward_shape : option string) (c : option Q)
  : option (list Q) :=
  env0 <- reset env ;;
  res <- for_range 0 (length (instance_id_list env))
           (instance_round
              (fun inst => compute_optimal_episode_reward_fl ops inst
                             possible_actions_acc reward_shape c))
           ([], env0) ;;
  Some (fst res).

(** The grid and the environment of a benchmark name (the two [if]s of
    [get_best_possible_avg_reward]). *)
Definition benchmark_grid_fl (ops : FloatOps) (benchmark : string)
  (importance_base : Q) (n_acts : Z) (max_dim : option Z) : option (list Q) :=
  if String.eqb benchmark "candid_sigmoid" || String.eqb benchmark "piecewise_linear"
  then max_dim' <- max_dim ;;
       get_actions_importance_sigmoid_fl ops max_dim' importance_base n_acts
  else uniform_actions_fl (fl ops) n_acts.

Definition benchmark_env_fl (ops : FloatOps) (B : Benchmarks) (dim : Z)
  (benchmark : string) (reward_shape : option string) (importance_base : Q)
  (n_acts : Z) : EnvState :=
  if String.eqb benchmark "candid_sigmoid" then
    get_importances_benchmark B dim
      (map (fun i => float_pow ops importance_base i) (range dim)) reward_shape
  else if String.eqb benchmark "piecewise_linear" then
    get_piecewise_environment B (map (fun _ => n_acts) (range dim))
      (map (fun i => float_pow ops importance_base i) (range dim))
  else get_benchmark B dim.

Definition get_best_possible_avg_reward_fl (ops : FloatOps) (B : Benchmarks) (dim : Z)
  (benchmark : string) (reward_shape : option string) (c : option Q)
  (importance_base : Q) (n_acts : Z) (max_dim : option Z) : option Q :=
  possible_actions_acc <-
    (if String.eqb benchmark "candid_sigmoid" || String.eqb benchmark "piecewise_linear"
     then max_dim' <- max_dim ;;
          get_actions_importance_sigmoid_fl ops max_dim' importance_base n_acts
     else uniform_actions_fl (fl ops) n_acts) ;;
  optim_reward_per_episode_acc <-
    (if String.eqb benchmark "candid_sigmoid" then
       let importances := map (fun i => float_pow ops importance_base i) (range dim) in
       let env := get_importances_benchmark B dim importances reward_shape in
       optimal_reward_per_episode_fl ops env possible_actions_acc reward_shape c
     else if String.eqb benchmark "piecewise_linear" then
       let importances := map (fun i => float_pow ops importance_base i) (range dim) in
       let env := get_piecewise_environment B (map (fun _ => n_acts) (range dim))
                    importances in
       optimal_reward_per_episode_fl ops env possible_actions_acc reward_shape c
     else
       let env := get_benchmark B dim in
       optimal_reward_per_episode_fl ops env possible_actions_acc reward_shape c) ;;
  Some (float_mean ops optim_reward_per_episode_acc).

(** The list [l] read from position [j] on, wrapping around. *)
Definition rotate {A : Type} (j : nat) (l : list A) : list A :=
  skipn j l ++ firstn j l.

(** ** Configuration tables as pandas holds them *)

(** A row of a table whose [config_id] column may hold strings or numbers.
    The column has the dtype pandas gives it when the table is read: numeric
    when it has a cell and every cell is a number, [object] otherwise. *)
Record TableRow : Type := mkTableRow {
  cell_config_id : ConfigId;
  cell_dim : Z;
  cell_benchmark : string;
  cell_reverse_agents : bool;
  cell_n_act : Z;
  cell_importance_base : Q;
  cell_reward_shape : string;
  cell_exp_reward : Q
}.

Definition is_string_cell (cell : ConfigId) : bool :=
  match cell with
  | ConfigName _ => true
  | ConfigNumber _ => false
  end.

(** The [config_id] column holds strings only. *)
Definition string_config_ids (df : list TableRow) : bool :=
  forallb (fun r => is_string_cell (cell_config_id r)) df.

(** [cell] is a string that contains ['best']. *)
Definition cell_contains_best (cell : ConfigId) : bool :=
  match cell with
  | ConfigName s => py_in "best" s
  | ConfigNumber _ => false
  end.

(** [df[df['config_id'].str.contains('best')]]: the [.str] accessor raises
    [AttributeError] on a numeric column; on a column that mixes strings with
    numbers the mask holds [NaN] at the numbers and the indexing raises
    [ValueError]; on a column of strings, or without cells, the rows whose
    string contains ['best'] are selected. *)
Definition select_str_contains_best (df : list TableRow) : option (list TableRow) :=
  if string_config_ids df
  then Some (filter (fun r => cell_contains_best (cell_config_id r)) df)
  else None.

(** [df['config_id'] == config_id], cell by cell: a string equals a string, a
    number a number. *)
Definition cell_eq (cell config_id : ConfigId) : bool :=
  match cell, config_id with
  | ConfigName a, ConfigName b => String.eqb a b
  | ConfigNumber a, ConfigNumber b => Z.eqb a b
  | _, _ => false
  end.

(** [get_run_configs] on such a table; [None] is the exception of the
    ['best'] branch. *)
Definition get_run_configs_df (df_config : list TableRow) (dim : Z) (benchmark : string)
  (config_id : ConfigId) (reverse_agents : bool) (importance_base : Q)
  (reward_shape : string) (exp_reward : Q) (n_act : option Z)
  : option (list TableRow) :=
  df_config <-
    (if config_id_is_best config_id
     then select_str_contains_best df_config
     else Some (filter (fun r => cell_eq (cell_config_id r) config_id) df_config)) ;;
  let df_config :=
    filter (fun r => Z.eqb (cell_dim r) dim
                     && String.eqb (cell_benchmark r) benchmark
                     && Bool.eqb (cell_reverse_agents r) reverse_agents
                     && n_act_eq (cell_n_act r) n_act) df_config in
  if String.eqb benchmark "candid_sigmoid" || String.eqb benchmark "piecewise_linear" then
    let df_config :=
      filter (fun r => Qeq_bool (cell_importance_base r) importance_base
                       && String.eqb (cell_reward_shape r) reward_shape) df_config in
    if String.eqb reward_shape "exp" then
      Some (filter (fun r => Qeq_bool (cell_exp_reward r) exp_reward) df_config)
    else Some df_config
  else Some df_config.

(** The selectors other than [config_id] on a [TableRow] (as
    [matches_remaining_selectors]). *)
Definition matches_remaining_cells (r : TableRow) (dim : Z) (benchmark : string)
  (reverse_agents : bool) (importance_base : Q) (reward_shape : string)
  (exp_reward : Q) (n_act : option Z) : Prop :=
  cell_dim r = dim /\
  cell_benchmark r = benchmark /\
  cell_reverse_agents r = reverse_agents /\
  n_act = Some (cell_n_act r) /\
  (benchmark = "candid_sigmoid"%string \/ benchmark = "piecewise_linear"%string ->
   cell_importance_base r == importance_base /\
   cell_reward_shape r = reward_shape /\
   (reward_shape = "exp"%string -> cell_exp_reward r == exp_reward)).

(** The test a row passes to be kept when [config_id] is ['best']. *)
Definition keeps_best_cells (dim : Z) (benchmark : string) (reverse_agents : bool)
  (importance_base : Q) (reward_shape : string) (exp_reward : Q) (n_act : option Z)
  (r : TableRow) : bool :=
  cell_contains_best (cell_config_id r)
  && (Z.eqb (cell_dim r) dim
      && String.eqb (cell_benchmark r) benchmark
      && Bool.eqb (cell_reverse_agents r) reverse_agents
      && n_act_eq (cell_n_act r) n_act)
  && (if String.eqb benchmark "candid_sigmoid" || String.eqb benchmark "piecewise_linear"
      then Qeq_bool (cell_importance_base r) importance_base
           && String.eqb (cell_reward_shape r) reward_shape
           && (if String.eqb reward_shape "exp"
               then Qeq_bool (cell_exp_reward r) exp_reward else true)
      else true).

(** A row whose [config_id] is a string, as a [ConfigRow]. *)
Definition as_config_row (r : TableRow) : option ConfigRow :=
  match cell_config_id r with
  | ConfigName s =>
      Some (mkConfigRow s (cell_dim r) (cell_benchmark r) (cell_reverse_agents r)
              (cell_n_act r) (cell_importance_base r) (cell_reward_shape r)
              (cell_exp_reward r))
  | ConfigNumber _ => None
  end.

(** ** Small environments for concrete runs *)

(** A multi-action instance with one step and one action dimension whose
    sigmoid takes the value [truth]. *)
Definition one_step_instance (truth : Q) : Env :=
  mkEnv SigmoidEnv 1 1 [1] [0] (fun _ _ _ => truth) (fun _ => 0).

(** A benchmark suite whose plain sigmoid benchmark enumerates [instances],
    currently reset to the instance at [start]; its other benchmarks have no
    instance. *)
Definition sigmoid_suite (instances : list Env) (start : nat) : Benchmarks :=
  mkBenchmarks (fun _ _ _ => mkEnvState [] 0) (fun _ _ => mkEnvState [] 0)
    (fun _ => mkEnvState instances start).

(** * Properties *)

(** ** Comparisons *)

Lemma Qltb_true (x y : Q) : Qltb x y = true <-> x < y.
Proof.
  unfold Qltb. rewrite Qlt_alt. destruct (x ?= y); split; congruence.
Qed.

Lemma Qltb_false (x y : Q) : Qltb x y = false <-> y <= x.
Proof.
  split; intro H.
  - apply Qnot_lt_le. intro L. apply Qltb_true in L. congruence.
  - destruct (Qltb x y) eqn:E; [|reflexivity].
    apply Qltb_true in E. exfalso. apply (Qlt_not_le _ _ E H).
Qed.

Lemma Qle_bool_false (x y : Q) : Qle_bool x y = false -> y < x.
Proof.
  intro H. apply Qnot_le_lt. intro L. apply Qle_bool_iff in L. congruence.
Qed.

(** ** Sorted arrays, by index *)

Lemma sorted_ascending_tail (x : Q) (a : list Q) :
  sorted_ascending (x :: a) = true -> sorted_ascending a = true.
Proof.
  destruct a as [|y t]; [reflexivity|].
  cbn [sorted_ascending]. intro H. apply andb_prop in H. tauto.
Qed.

Lemma sorted_ascending_head (x : Q) (a : list Q) :
  sorted_ascending (x :: a) = true -> forall y, In y a -> x <= y.
Proof.
  revert x. induction a as [|z t IH]; intros x H y Hy; [destruct Hy|].
  cbn [sorted_ascending] in H. apply andb_prop in H. destruct H as [Hxz Ht].
  apply Qle_bool_iff in Hxz.
  destruct Hy as [->|Hy]; [exact Hxz|].
  apply Qle_trans with z; [exact Hxz|]. apply IH; assumption.
Qed.

Lemma sorted_ascending_nth (a : list Q) :
  sorted_ascending a = true ->
  forall i j, (i <= j)%nat -> (j < length a)%nat -> nth i a 0 <= nth j a 0.
Proof.
  induction a as [|x t IH]; intros H i j Hij Hj; [simpl in Hj; lia|].
  destruct i as [|i], j as [|j]; simpl in *; try lia.
  - apply Qle_refl.
  - apply (sorted_ascending_head x t H). apply nth_In. lia.
  - apply IH; [eapply sorted_ascending_tail; eassumption | lia | lia].
Qed.

Lemma strictly_increasing_sorted (a : list Q) :
  strictly_increasing a = true -> sorted_ascending a = true.
Proof.
  induction a as [|x [|y t] IH]; try reflexivity.
  cbn [strictly_increasing sorted_ascending]. intro H.
  apply andb_prop in H. destruct H as [Hxy Ht].
  apply andb_true_intro. split; [|apply IH; exact Ht].
  apply Qle_bool_iff. apply Qlt_le_weak. apply Qltb_true. exact Hxy.
Qed.

Lemma strictly_increasing_nth (a : list Q) :
  strictly_increasing a = true ->
  forall i j, (i < j)%nat -> (j < length a)%nat -> nth i a 0 < nth j a 0.
Proof.
  induction a as [|x t IH]; intros H i j Hij Hj; [simpl in Hj; lia|].
  assert (Ht : strictly_increasing t = true).
  { destruct t; [reflexivity|]. cbn [strictly_increasing] in H.
    apply andb_prop in H. tauto. }
  destruct j as [|j]; [lia|]. simpl in Hj.
  destruct i as [|i]; simpl.
  - destruct t as [|y t']; [simpl in Hj; lia|].
    cbn [strictly_increasing] in H. apply andb_prop in H. destruct H as [Hxy _].
    apply Qltb_true in Hxy.
    apply Qlt_le_trans with y; [exact Hxy|].
    apply (sorted_ascending_nth (y :: t') (strictly_increasing_sorted _ Ht) 0 j); [lia|exact (proj1 (Nat.succ_lt_mono _ _) Hj) || lia].
  - apply IH; [exact Ht | lia | lia].
Qed.

(** ** Binary search *)

Lemma bisect_left_correct (a : list Q) (v : Q) :
  sorted_ascending a = true ->
  forall fuel lo hi,
    (lo <= hi)%nat -> (hi <= length a)%nat -> (hi - lo <= fuel)%nat ->
    (forall k, (k < lo)%nat -> nth k a 0 < v) ->
    (forall k, (hi <= k)%nat -> (k < length a)%nat -> v <= nth k a 0) ->
    insertion_point a v (bisect_left fuel a v lo hi).
Proof.
  intros Hs. induction fuel as [|fuel IH]; intros lo hi Hlh Hhi Hf Hlo Hge.
  - simpl. assert (lo = hi) by lia. subst hi.
    split; [lia|]. split; assumption.
  - cbn [bisect_left]. destruct (Nat.ltb_spec lo hi) as [Hlt|Hnlt].
    + assert (Hmid : ((hi - lo) / 2 < hi - lo)%nat) by (apply Nat.div_lt; lia).
      set (mid := (lo + (hi - lo) / 2)%nat) in *.
      assert (Hm1 : (lo <= mid)%nat) by (unfold mid; lia).
      assert (Hm2 : (mid < hi)%nat) by (unfold mid; lia).
      destruct (Qltb (nth mid a 0) v) eqn:E.
      * apply Qltb_true in E. apply IH; try lia; [|exact Hge].
        intros k Hk. apply Qle_lt_trans with (nth mid a 0); [|exact E].
        apply sorted_ascending_nth; [exact Hs | lia | lia].
      * apply Qltb_false in E. apply IH; try lia; [exact Hlo|].
        intros k Hk1 Hk2. apply Qle_trans with (nth mid a 0); [exact E|].
        apply sorted_ascending_nth; [exact Hs | lia | lia].
    + assert (lo = hi) by lia. subst hi.
      split; [lia|]. split; assumption.
Qed.

Lemma searchsorted_correct (a : list Q) (v : Q) :
  sorted_ascending a = true -> insertion_point a v (searchsorted a v).
Proof.
  intro Hs. unfold searchsorted.
  apply bisect_left_correct; try exact Hs; intros; lia.
Qed.

(** ** Nearest-value lookup *)

Lemma Qabs_cases (t : Q) : (0 <= t /\ Qabs t == t) \/ (t <= 0 /\ Qabs t == - t).
Proof.
  destruct (Qlt_le_dec t 0) as [H|H].
  - right. split; [lra|]. apply Qabs_neg. lra.
  - left. split; [exact H|]. apply Qabs_pos. exact H.
Qed.

(** Case split on the sign under every absolute value in sight, then linear
    arithmetic. *)
Ltac qabs_lra :=
  repeat match goal with
    | |- context [Qabs ?t] =>
        let a := fresh "a" in
        let Ha := fresh "Ha" in
        pose proof (Qabs_cases t) as Ha; set (a := Qabs t) in *; clearbody a
    | H : context [Qabs ?t] |- _ =>
        let a := fresh "a" in
        let Ha := fresh "Ha" in
        pose proof (Qabs_cases t) as Ha; set (a := Qabs t) in *; clearbody a
    end;
  repeat match goal with
    | H : _ \/ _ |- _ => destruct H as [[? ?]|[? ?]]
    end;
  lra.

Lemma In_nth_Q (a : list Q) (x : Q) :
  In x a -> exists k, (k < length a)%nat /\ nth k a 0 = x.
Proof. intro H. apply (In_nth a x 0 H). Qed.

Lemma find_nearest_unfold (a : list Q) (v : Q) :
  a <> [] -> (searchsorted a v <= length a)%nat ->
  find_nearest a v = Some (nearest_at a v (searchsorted a v)).
Proof.
  intros Hne Hidx. unfold find_nearest, nearest_at.
  assert (Hlen : (0 < length a)%nat) by (destruct a; [congruence | simpl; lia]).
  set (idx := searchsorted a v) in *.
  destruct (Nat.eqb_spec idx 0) as [E0|N0].
  - apply nth_error_nth'. exact Hlen.
  - destruct (Nat.eqb_spec idx (length a)) as [El|Nl].
    + apply nth_error_nth'. lia.
    + rewrite (nth_error_nth' a 0 (n := (idx - 1)%nat)) by lia.
      rewrite (nth_error_nth' a 0 (n := idx)) by lia.
      reflexivity.
Qed.

Lemma find_nearest_is_nearest (a : list Q) (v : Q) :
  a <> [] -> sorted_ascending a = true ->
  exists r, find_nearest a v = Some r /\ is_nearest a v r.
Proof.
  intros Hne Hs.
  destruct (searchsorted_correct a v Hs) as (Hidx & Hlow & Hhigh).
  rewrite (find_nearest_unfold a v Hne Hidx).
  eexists. split; [reflexivity|].
  assert (Hlen : (0 < length a)%nat) by (destruct a; [congruence | simpl; lia]).
  unfold nearest_at. set (idx := searchsorted a v) in *.
  pose proof (sorted_ascending_nth a Hs) as Hmono.
  destruct (Nat.eqb_spec idx 0) as [E0|N0].
  - split; [apply nth_In; exact Hlen|].
    intros x Hx. destruct (In_nth_Q a x Hx) as (k & Hk & <-).
    pose proof (Hhigh k ltac:(lia) Hk). pose proof (Hhigh 0%nat ltac:(lia) Hlen).
    pose proof (Hmono 0%nat k ltac:(lia) Hk).
    qabs_lra.
  - destruct (Nat.eqb_spec idx (length a)) as [El|Nl].
    + split; [apply nth_In; lia|].
      intros x Hx. destruct (In_nth_Q a x Hx) as (k & Hk & <-).
      pose proof (Hlow k ltac:(lia)). pose proof (Hlow (length a - 1)%nat ltac:(lia)).
      pose proof (Hmono k (length a - 1)%nat ltac:(lia) ltac:(lia)).
      qabs_lra.
    + pose proof (Hlow (idx - 1)%nat ltac:(lia)) as Hl.
      pose proof (Hhigh idx ltac:(lia) ltac:(lia)) as Hh.
      assert (Hall : forall x, In x a ->
                 x <= nth (idx - 1) a 0 \/ nth idx a 0 <= x).
      { intros x Hx. destruct (In_nth_Q a x Hx) as (k & Hk & <-).
        destruct (Nat.lt_ge_cases k idx).
        - left. apply Hmono; lia.
        - right. apply Hmono; lia. }
      destruct (Qltb _ _) eqn:E.
      * apply Qltb_true in E. split; [apply nth_In; lia|].
        intros x Hx. destruct (Hall x Hx); qabs_lra.
      * apply Qltb_false in E. split; [apply nth_In; lia|].
        intros x Hx. destruct (Hall x Hx); qabs_lra.
Qed.

(** A query that is the value of a grid element is returned as it is. *)
Lemma find_nearest_exact (a : list Q) (v g : Q) :
  sorted_ascending a = true -> In g a -> g == v ->
  exists r, find_nearest a v = Some r /\ r == v.
Proof.
  intros Hs Hg Hgv.
  assert (Hne : a <> []) by (intros ->; destruct Hg).
  destruct (find_nearest_is_nearest a v Hne Hs) as (r & Hr & _ & Hclose).
  exists r. split; [exact Hr|].
  specialize (Hclose g Hg).
  assert (Qabs (g - v) == 0) by (rewrite Hgv; setoid_replace (v - v) with 0 by ring; reflexivity).
  qabs_lra.
Qed.

(** C1, as stated, at the grid [0, 2] and the query 1: the query is exactly
    half way between 0 and 2, and the lookup returns 2, not the lower
    candidate 0. *)
Lemma find_nearest_tie_not_lower :
  [0; 2] <> [] /\ strictly_increasing [0; 2] = true /\
  find_nearest [0; 2] 1 = Some 2 /\
  ~ (exists r, find_nearest [0; 2] 1 = Some r /\ is_nearest [0; 2] 1 r /\
               forall i lo hi, exact_tie [0; 2] 1 i lo hi -> r == lo).
Proof.
  split; [discriminate|]. split; [reflexivity|]. split; [reflexivity|].
  intros (r & Hr & _ & Htie).
  vm_compute in Hr. injection Hr as <-.
  assert (T : exact_tie [0; 2] 1 0 0 2).
  { unfold exact_tie. simpl. repeat split; reflexivity. }
  specialize (Htie 0%nat 0 2 T). discriminate Htie.
Qed.

(** ** Optimal episode reward *)

Lemma inject_Z_of_nat_succ (n : nat) :
  inject_Z (Z.of_nat (S n)) == inject_Z (Z.of_nat n) + 1.
Proof.
  rewrite Nat2Z.inj_succ, <- Z.add_1_r, inject_Z_plus. reflexivity.
Qed.

(** A loop whose body adds a reward of value 1 at every step counts the
    steps. *)
Lemma for_range_adds_one (body : nat -> Q -> option Q) (len : nat) :
  forall start acc,
    (forall t acc', (start <= t < start + len)%nat ->
                    exists r, body t acc' = Some (acc' + r) /\ r == 1) ->
    exists total, for_range start len body acc = Some total /\
                  total == acc + inject_Z (Z.of_nat len).
Proof.
  induction len as [|len IH]; intros start acc Hbody.
  - exists acc. split; [reflexivity|]. simpl. unfold inject_Z. lra.
  - cbn [for_range].
    destruct (Hbody start acc ltac:(lia)) as (r & -> & Hr). cbn [bind].
    destruct (IH (S start) (acc + r)) as (total & -> & Htotal).
    { intros t acc' Ht. apply Hbody. lia. }
    exists total. split; [reflexivity|].
    rewrite Htotal, Hr, inject_Z_of_nat_succ. lra.
Qed.

(** Two loops with the same body on the range give the same result. *)
Lemma for_range_ext {S : Type} (body body' : nat -> S -> option S) (len : nat) :
  forall start acc,
    (forall t acc', (start <= t < start + len)%nat -> body t acc' = body' t acc') ->
    for_range start len body acc = for_range start len body' acc.
Proof.
  induction len as [|len IH]; intros start acc H; [reflexivity|].
  cbn [for_range]. rewrite H by lia.
  destruct (body' start acc) as [acc'|]; [|reflexivity]. cbn [bind].
  apply IH. intros t a Ht. apply H. lia.
Qed.

(** The two reward laws agree on every reward shape but ["exp"]. *)
Lemma step_rewards_agree_off_exp (np_exp : Q -> Q) (reward_shape : option string)
  (c : option Q) (truth best_pred_acc : Q) :
  shape_is reward_shape "exp" = false ->
  piecewise_step_reward np_exp reward_shape c truth best_pred_acc =
  sigmoid_step_reward np_exp reward_shape c truth best_pred_acc.
Proof.
  intro H. unfold piecewise_step_reward, sigmoid_step_reward.
  rewrite H, orb_false_r. reflexivity.
Qed.

(** C2 (the code departs from the claim).  At a reward shape of ["exp"] the
    single-target branch applies the linear law and the piecewise-target branch
    the exponential law: with one time step, truth 1/4, grid [0, 1] and
    c = 4.6 the former returns 0 + (1 - |1/4 - 0|) and the latter
    0 + exp(-4.6 * |1/4 - 0|), whatever [np.exp] is. *)
Theorem reward_law_differs_on_exp_shape (np_exp : Q -> Q) :
  let sigmoid_env :=
    mkEnv DiffImportanceFineTuneSigmoidEnv 1 1 [1] [0]
          (fun _ _ _ => 1 # 4) (fun _ => 1 # 4) in
  let piecewise_env :=
    mkEnv PiecewiseLinearEnv 1 1 [1] [0] (fun _ _ _ => 1 # 4) (fun _ => 1 # 4) in
  compute_optimal_episode_reward np_exp sigmoid_env [0; 1] (Some "exp"%string)
    (Some (46 # 10))
  = Some (0 + (1 - Qabs ((1 # 4) - 0))) /\
  compute_optimal_episode_reward np_exp piecewise_env [0; 1] (Some "exp"%string)
    (Some (46 # 10))
  = Some (0 + np_exp (- (46 # 10) * Qabs ((1 # 4) - 0))) /\
  sigmoid_step_reward np_exp (Some "exp"%string) (Some (46 # 10)) (1 # 4) 0
  = Some (linear_reward (1 # 4) 0) /\
  piecewise_step_reward np_exp (Some "exp"%string) (Some (46 # 10)) (1 # 4) 0
  = exponential_reward np_exp (Some (46 # 10)) (1 # 4) 0.
Proof.
  repeat split; reflexivity.
Qed.

(** C4.  Single-target variant, reward shape other than ["exponential"]: if the
    truth at every time step of the episode is the value of an element of the
    (strictly increasing) action grid, the optimal episode reward is
    [n_steps]. *)
Theorem optimal_reward_perfect_score (np_exp : Q -> Q) (env : Env) (grid : list Q)
  (reward_shape : option string) (c : option Q) (slope shift : Q) :
  env_class env = DiffImportanceFineTuneSigmoidEnv ->
  shape_is reward_shape "exponential" = false ->
  nth_error (slopes env) 0 = Some slope ->
  nth_error (shifts env) 0 = Some shift ->
  strictly_increasing grid = true ->
  (forall t, (t < n_steps env)%nat ->
             exists g, In g grid /\ g == _sig env t slope shift) ->
  exists r, compute_optimal_episode_reward np_exp env grid reward_shape c = Some r /\
            r == inject_Z (Z.of_nat (n_steps env)).
Proof.
  intros Hcls Hshape Hslope Hshift Hgrid Htruth.
  unfold compute_optimal_episode_reward. rewrite Hcls, Hshift, Hslope. cbn [bind].
  destruct (for_range_adds_one
              (fun t optim_episode_reward =>
                 best_pred_acc <- find_nearest grid (_sig env t slope shift) ;;
                 r <- sigmoid_step_reward np_exp reward_shape c
                        (_sig env t slope shift) best_pred_acc ;;
                 Some (optim_episode_reward + r))
              (n_steps env) 0%nat 0) as (total & Htotal & Hval).
  - intros t acc' Ht.
    destruct (Htruth t ltac:(lia)) as (g & Hg & Hgv).
    destruct (find_nearest_exact grid _ g (strictly_increasing_sorted _ Hgrid) Hg Hgv)
      as (r & -> & Hr).
    cbn [bind]. unfold sigmoid_step_reward. rewrite Hshape. cbn [bind].
    eexists. split; [reflexivity|].
    unfold linear_reward. qabs_lra.
  - exists total. split; [exact Htotal|]. rewrite Hval. lra.
Qed.

(** C9.  In the single-target variant only index 0 of the slopes and shifts is
    read: replacing them by any lists with the same entry at index 0 (or, like
    them, without one) leaves the result unchanged. *)
Theorem single_target_reads_index_0_only (np_exp : Q -> Q) (env : Env)
  (slopes' shifts' : list Q) (possible_actions : list Q)
  (reward_shape : option string) (c : option Q) :
  env_class env = DiffImportanceFineTuneSigmoidEnv ->
  nth_error slopes' 0 = nth_error (slopes env) 0 ->
  nth_error shifts' 0 = nth_error (shifts env) 0 ->
  compute_optimal_episode_reward np_exp (with_slopes_shifts env slopes' shifts')
    possible_actions reward_shape c
  = compute_optimal_episode_reward np_exp env possible_actions reward_shape c.
Proof.
  intros Hcls Hsl Hsh. unfold compute_optimal_episode_reward.
  cbn [with_slopes_shifts env_class slopes shifts n_steps _sig].
  rewrite Hcls, Hsl, Hsh. reflexivity.
Qed.

(** ** Run-name canonicalization *)

Lemma translate_run_name_no_marker (s : string) :
  no_marker s = true -> translate_run_name s = s.
Proof.
  unfold no_marker, translate_run_name. intro H.
  apply negb_true_iff in H.
  repeat (apply orb_false_iff in H; destruct H as [H ?]).
  repeat match goal with E : _ = false |- _ => rewrite E; clear E end.
  reflexivity.
Qed.

(** The result is one of the four labels, or the input itself, which then
    carries no marker. *)
Lemma translate_run_name_cases (s : string) :
  translate_run_name s = "DDQN"%string \/
  translate_run_name s = "SAQL"%string \/
  translate_run_name s = "IQL"%string \/
  translate_run_name s = "simSDQN"%string \/
  (translate_run_name s = s /\ no_marker s = true).
Proof.
  unfold translate_run_name, no_marker.
  destruct (py_in "adqn" s); [tauto|].
  destruct (py_in "ddqn" s); [tauto|].
  destruct (py_in "fdqn_a" s); [tauto|].
  destruct (py_in "saql" s); [tauto|].
  destruct (py_in "fdqn" s); [tauto|].
  destruct (py_in "iql" s); [tauto|].
  destruct (py_in "sdqn" s); [tauto|].
  right; right; right; right. split; reflexivity.
Qed.

(** C3.  The four examples; the identity fallback on inputs without a marker;
    and the priority of 'fdqn_a' / 'saql' over 'fdqn' / 'iql': an input with
    one of the former (and no 'adqn' / 'ddqn') is SAQL even though 'fdqn_a'
    contains 'fdqn'. *)
Theorem translate_run_name_spec (s : string) :
  translate_run_name "exp_ddqn_seed0" = "DDQN"%string /\
  translate_run_name "exp_fdqn_a_seed3" = "SAQL"%string /\
  translate_run_name "exp_fdqn_seed1" = "IQL"%string /\
  translate_run_name "exp_sdqn_seed2" = "simSDQN"%string /\
  translate_run_name "unrecognized_tag" = "unrecognized_tag"%string /\
  (no_marker s = true -> translate_run_name s = s) /\
  (py_in "adqn" s = false -> py_in "ddqn" s = false ->
   py_in "fdqn_a" s = true \/ py_in "saql" s = true ->
   translate_run_name s = "SAQL"%string) /\
  (py_in "adqn" s = false -> py_in "ddqn" s = false ->
   py_in "fdqn_a" s = false -> py_in "saql" s = false ->
   py_in "fdqn" s = true \/ py_in "iql" s = true ->
   translate_run_name s = "IQL"%string).
Proof.
  repeat (split; [reflexivity|]).
  split; [apply translate_run_name_no_marker|].
  split.
  - intros H1 H2 H3. unfold translate_run_name. rewrite H1, H2. cbn [orb].
    destruct H3 as [-> | ->]; [reflexivity|].
    rewrite orb_true_r. reflexivity.
  - intros H1 H2 H3 H4 H5. unfold translate_run_name.
    rewrite H1, H2, H3, H4. cbn [orb].
    destruct H5 as [-> | ->]; [reflexivity|].
    rewrite orb_true_r. reflexivity.
Qed.

Lemma translate_run_name_spec_witness :
  translate_run_name "unrecognized_tag" = "unrecognized_tag"%string /\
  translate_run_name "exp_fdqn_a_seed3" = "SAQL"%string.
Proof.
  split.
  - apply (translate_run_name_spec "unrecognized_tag"). reflexivity.
  - apply (translate_run_name_spec "exp_fdqn_a_seed3"); try reflexivity.
    left. reflexivity.
Defined.

(** C8.  Canonicalizing twice is canonicalizing once; "DDQN" is a fixed
    point. *)
Theorem translate_run_name_idempotent (s : string) :
  translate_run_name (translate_run_name s) = translate_run_name s /\
  translate_run_name "DDQN" = "DDQN"%string.
Proof.
  split; [|reflexivity].
  destruct (translate_run_name_cases s) as [E|[E|[E|[E|[E Hs]]]]];
    rewrite E; try reflexivity.
  apply translate_run_name_no_marker. exact Hs.
Qed.

(** ** Configuration-table filtering *)

Lemma filter_filter {A : Type} (p q : A -> bool) (l : list A) :
  filter q (filter p l) = filter (fun x => p x && q x) l.
Proof.
  induction l as [|x t IH]; [reflexivity|].
  simpl. destruct (p x); simpl; [|exact IH].
  destruct (q x); rewrite IH; reflexivity.
Qed.

Lemma filter_sublist {A : Type} (p : A -> bool) (l : list A) :
  sublist (filter p l) l.
Proof.
  induction l as [|x t IH]; simpl; [constructor|].
  destruct (p x); constructor; exact IH.
Qed.

(** ** Combinatorial action-grid generation *)

Lemma mapM_nil_or_fail {A B : Type} (f : A -> option B) (l : list A) :
  (forall x, In x l -> f x = None) -> l <> [] -> mapM f l = None.
Proof.
  intros H Hne. destruct l as [|x t]; [congruence|].
  simpl. rewrite (H x (or_introl eq_refl)). reflexivity.
Qed.

Lemma mapM_total {A B : Type} (f : A -> option B) (l : list A) :
  (forall x, In x l -> f x <> None) -> exists ys, mapM f l = Some ys.
Proof.
  induction l as [|x t IH]; intro H; [exists []; reflexivity|].
  simpl. destruct (f x) as [y|] eqn:E.
  - destruct IH as (ys & ->); [intros z Hz; apply H; right; exact Hz|].
    exists (y :: ys). reflexivity.
  - exfalso. apply (H x (or_introl eq_refl)). exact E.
Qed.

Lemma py_div_None (a : Q) (n_acts : Z) :
  py_div a (inject_Z (n_acts - 1)) = None <-> n_acts = 1%Z.
Proof.
  unfold py_div.
  destruct (Qeq_bool (inject_Z (n_acts - 1)) 0) eqn:E.
  - apply Qeq_bool_iff in E. unfold Qeq, inject_Z in E. simpl in E.
    split; [intros _; lia | reflexivity].
  - split; [discriminate|]. intros ->. discriminate.
Qed.

Lemma range_nil (n : Z) : range n = [] <-> (n <= 0)%Z.
Proof.
  unfold range. destruct (Z.to_nat n) eqn:E; simpl.
  - split; [intros _; lia | reflexivity].
  - split; [discriminate | lia].
Qed.

(** The uniformly spaced grid raises exactly at [n_acts = 1]. *)
Lemma uniform_actions_None (n_acts : Z) :
  uniform_actions n_acts = None <-> n_acts = 1%Z.
Proof.
  unfold uniform_actions. split.
  - intro H. destruct (Z.eq_dec n_acts 1) as [E|N]; [exact E|exfalso].
    destruct (mapM_total
                (fun i => q <- py_div 1 (inject_Z (n_acts - 1)) ;; Some (q * inject_Z i))
                (range n_acts)) as (ys & Hys); [|congruence].
    intros i _. destruct (py_div 1 (inject_Z (n_acts - 1))) eqn:E.
    + discriminate.
    + apply py_div_None in E. contradiction.
  - intros ->. reflexivity.
Qed.

Lemma centered_actions_total (importance_base : Q) (n_acts i : Z) :
  n_acts <> 1%Z -> centered_actions importance_base n_acts i <> None.
Proof.
  intros N H. unfold centered_actions in H.
  destruct (mapM_total
              (fun j => q <- py_div (inject_Z j) (inject_Z (n_acts - 1)) ;;
                        Some (importance_base ^ i * (q - (1 # 2))))
              (range n_acts)) as (ys & Hys); [|congruence].
  intros j _. destruct (py_div (inject_Z j) (inject_Z (n_acts - 1))) eqn:E.
  - discriminate.
  - apply py_div_None in E. contradiction.
Qed.

Lemma possible_actions_per_dim_None (max_dim : Z) (importance_base : Q) (n_acts : Z) :
  possible_actions_per_dim max_dim importance_base n_acts = None <-> n_acts = 1%Z.
Proof.
  unfold possible_actions_per_dim. split.
  - intro H. destruct (Z.eq_dec n_acts 1) as [E|N]; [exact E|exfalso].
    destruct (uniform_actions n_acts) as [row0|] eqn:E0.
    + cbn [bind] in H.
      destruct (mapM_total (centered_actions importance_base n_acts)
                  (range_from_1 max_dim)) as (rows & Hrows).
      { intros i _. apply centered_actions_total. exact N. }
      rewrite Hrows in H. discriminate.
    + apply uniform_actions_None in E0. contradiction.
  - intros ->. reflexivity.
Qed.

Lemma get_actions_importance_sigmoid_None (max_dim : Z) (importance_base : Q)
  (n_acts : Z) :
  get_actions_importance_sigmoid max_dim importance_base n_acts = None <-> n_acts = 1%Z.
Proof.
  rewrite <- (possible_actions_per_dim_None max_dim importance_base n_acts).
  unfold get_actions_importance_sigmoid.
  destruct (possible_actions_per_dim max_dim importance_base n_acts); cbn [bind].
  - split; discriminate.
  - tauto.
Qed.

(** *** Sorting and deduplication *)

Lemma insert_sorted_sorted (x : Q) (l : list Q) :
  sorted_ascending l = true -> sorted_ascending (insert_sorted x l) = true.
Proof.
  induction l as [|y t IH]; intro H; [reflexivity|].
  cbn [insert_sorted]. destruct (Qle_bool x y) eqn:E.
  - cbn [sorted_ascending]. rewrite E. exact H.
  - pose proof (IH (sorted_ascending_tail _ _ H)) as IH'.
    apply Qle_bool_false in E.
    destruct t as [|z t'].
    + cbn [insert_sorted sorted_ascending].
      apply andb_true_intro. split; [|reflexivity].
      apply Qle_bool_iff. lra.
    + cbn [sorted_ascending] in H. apply andb_prop in H. destruct H as [Hyz Ht].
      cbn [insert_sorted] in *. destruct (Qle_bool x z) eqn:E'.
      * cbn [sorted_ascending] in *. rewrite E'.
        replace (Qle_bool y x) with true
          by (symmetry; apply Qle_bool_iff; lra).
        exact Ht.
      * change (sorted_ascending (y :: z :: insert_sorted x t') = true).
        cbn [sorted_ascending]. rewrite Hyz. exact IH'.
Qed.

Lemma np_sort_sorted (l : list Q) : sorted_ascending (np_sort l) = true.
Proof.
  induction l as [|x t IH]; [reflexivity|].
  simpl. apply insert_sorted_sorted. exact IH.
Qed.

Lemma insert_sorted_perm (x : Q) (l : list Q) :
  Permutation (x :: l) (insert_sorted x l).
Proof.
  induction l as [|y t IH]; [reflexivity|].
  cbn [insert_sorted]. destruct (Qle_bool x y); [reflexivity|].
  rewrite perm_swap. constructor. exact IH.
Qed.

Lemma np_sort_perm (l : list Q) : Permutation l (np_sort l).
Proof.
  induction l as [|x t IH]; [reflexivity|].
  simpl. rewrite <- insert_sorted_perm. constructor. exact IH.
Qed.

(** Sorting an array that is already ascending leaves it as it is. *)
Lemma np_sort_of_sorted (l : list Q) :
  sorted_ascending l = true -> np_sort l = l.
Proof.
  induction l as [|x t IH]; intro H; [reflexivity|].
  simpl. rewrite (IH (sorted_ascending_tail _ _ H)).
  destruct t as [|y t']; [reflexivity|].
  cbn [sorted_ascending] in H. apply andb_prop in H. destruct H as [Hxy _].
  cbn [insert_sorted]. rewrite Hxy. reflexivity.
Qed.

Lemma strictly_increasing_cons (x y : Q) (l : list Q) :
  strictly_increasing (x :: y :: l) = true <->
  x < y /\ strictly_increasing (y :: l) = true.
Proof.
  cbn [strictly_increasing]. rewrite andb_true_iff, Qltb_true. reflexivity.
Qed.

Lemma strictly_increasing_head_eq (x y : Q) (l : list Q) :
  x == y -> strictly_increasing (y :: l) = true -> strictly_increasing (x :: l) = true.
Proof.
  intros E H. destruct l as [|z t]; [reflexivity|].
  apply strictly_increasing_cons in H. apply strictly_increasing_cons.
  split; [lra | tauto].
Qed.

Lemma keep_changes_strict (l : list Q) :
  forall x, sorted_ascending (x :: l) = true ->
            strictly_increasing (x :: keep_changes x l) = true.
Proof.
  induction l as [|y t IH]; intros x H; [reflexivity|].
  pose proof (IH y (sorted_ascending_tail _ _ H)) as IHy.
  cbn [sorted_ascending] in H. apply andb_prop in H. destruct H as [Hxy _].
  apply Qle_bool_iff in Hxy.
  cbn [keep_changes]. destruct (Qeq_bool y x) eqn:E.
  - apply Qeq_bool_iff in E. apply strictly_increasing_head_eq with y; [lra|exact IHy].
  - apply strictly_increasing_cons. split; [|exact IHy].
    apply Qeq_bool_neq in E. lra.
Qed.

Lemma np_unique_strict (l : list Q) : strictly_increasing (np_unique l) = true.
Proof.
  unfold np_unique. pose proof (np_sort_sorted l) as H.
  destruct (np_sort l) as [|x t]; [reflexivity|].
  apply keep_changes_strict. exact H.
Qed.

Lemma keep_changes_InQ (l : list Q) :
  forall p x, InQ x (p :: keep_changes p l) <-> InQ x (p :: l).
Proof.
  induction l as [|y t IH]; intros p x; [reflexivity|].
  cbn [keep_changes]. destruct (Qeq_bool y p) eqn:E.
  - apply Qeq_bool_iff in E. split.
    + intros (z & [<-|Hz] & Hzx).
      * exists p. split; [left; reflexivity | exact Hzx].
      * assert (Hy : InQ x (y :: keep_changes y t)) by (exists z; split; [right; exact Hz|exact Hzx]).
        apply IH in Hy. destruct Hy as (w & Hw & Hwx).
        exists w. split; [right; exact Hw | exact Hwx].
    + intros (z & [<-|Hz] & Hzx).
      * exists p. split; [left; reflexivity | exact Hzx].
      * assert (Hy : InQ x (y :: t)) by (exists z; split; assumption).
        apply IH in Hy. destruct Hy as (w & [<-|Hw] & Hwx).
        -- exists p. split; [left; reflexivity | lra].
        -- exists w. split; [right; exact Hw | exact Hwx].
  - split.
    + intros (z & [<-|Hz] & Hzx).
      * exists p. split; [left; reflexivity | exact Hzx].
      * assert (Hy : InQ x (y :: keep_changes y t)) by (exists z; split; assumption).
        apply IH in Hy. destruct Hy as (w & Hw & Hwx).
        exists w. split; [right; exact Hw | exact Hwx].
    + intros (z & [<-|Hz] & Hzx).
      * exists p. split; [left; reflexivity | exact Hzx].
      * assert (Hy : InQ x (y :: t)) by (exists z; split; assumption).
        apply IH in Hy. destruct Hy as (w & Hw & Hwx).
        exists w. split; [right; exact Hw | exact Hwx].
Qed.

Lemma np_unique_InQ (l : list Q) (x : Q) : InQ x (np_unique l) <-> InQ x l.
Proof.
  unfold np_unique. pose proof (np_sort_perm l) as P.
  assert (H : InQ x (np_sort l) <-> InQ x l).
  { split; intros (y & Hy & Hyx); exists y; split; try exact Hyx.
    - apply Permutation_in with (np_sort l); [symmetry; exact P | exact Hy].
    - apply Permutation_in with l; [exact P | exact Hy]. }
  rewrite <- H. destruct (np_sort l) as [|p t]; [reflexivity|].
  apply keep_changes_InQ.
Qed.

Lemma get_actions_importance_sigmoid_Some (max_dim : Z) (importance_base : Q)
  (n_acts : Z) :
  n_acts <> 1%Z ->
  exists per_dim,
    possible_actions_per_dim max_dim importance_base n_acts = Some per_dim /\
    get_actions_importance_sigmoid max_dim importance_base n_acts
    = Some (np_sort (np_unique (product_sums per_dim))).
Proof.
  intro N. unfold get_actions_importance_sigmoid.
  destruct (possible_actions_per_dim max_dim importance_base n_acts) as [per_dim|] eqn:E.
  - exists per_dim. split; reflexivity.
  - apply possible_actions_per_dim_None in E. contradiction.
Qed.

Lemma get_actions_importance_sigmoid_no_actions (max_dim : Z) (importance_base : Q)
  (n_acts : Z) :
  (n_acts <= 0)%Z ->
  get_actions_importance_sigmoid max_dim importance_base n_acts = Some [].
Proof.
  intro H.
  destruct (get_actions_importance_sigmoid_Some max_dim importance_base n_acts)
    as (per_dim & Hper & ->); [lia|].
  unfold possible_actions_per_dim, uniform_actions in Hper.
  rewrite (proj2 (range_nil n_acts) H) in Hper. cbn [mapM bind] in Hper.
  destruct (mapM _ (range_from_1 max_dim)) as [rows|]; [|discriminate].
  cbn [bind] in Hper. injection Hper as <-. reflexivity.
Qed.

(** C5.  For [max_dim = 2], [importance_base = 0.5], [n_acts = 3] the
    per-dimension candidates are [0, 0.5, 1] and [-0.25, 0, 0.25] and the
    returned grid is [-0.25, 0, 0.25, 0.5, 0.75, 1, 1.25]: seven values, at
    most nine, strictly increasing.  In general, for [max_dim >= 1] and
    [n_acts >= 2] a grid is returned, it is strictly increasing, and its values
    are those of the sums over the Cartesian product of the per-dimension
    candidates. *)
Theorem get_actions_importance_sigmoid_grid (max_dim : Z) (importance_base : Q)
  (n_acts : Z) :
  (exists per_dim grid,
      possible_actions_per_dim 2 (1 # 2) 3 = Some per_dim /\
      Forall2 Qlist_eq per_dim [[0; 1 # 2; 1]; [- (1 # 4); 0; 1 # 4]] /\
      get_actions_importance_sigmoid 2 (1 # 2) 3 = Some grid /\
      Qlist_eq grid [- (1 # 4); 0; 1 # 4; 1 # 2; 3 # 4; 1; 5 # 4] /\
      (length (product_sums per_dim) = 9)%nat /\
      (length grid <= 9)%nat /\
      strictly_increasing grid = true) /\
  ((1 <= max_dim)%Z -> (2 <= n_acts)%Z ->
   exists per_dim grid,
     possible_actions_per_dim max_dim importance_base n_acts = Some per_dim /\
     get_actions_importance_sigmoid max_dim importance_base n_acts = Some grid /\
     strictly_increasing grid = true /\
     forall x, InQ x grid <-> InQ x (product_sums per_dim)).
Proof.
  split.
  - eexists. eexists.
    split; [vm_compute; reflexivity|].
    split; [repeat constructor|].
    split; [vm_compute; reflexivity|].
    split; [repeat constructor|].
    split; [reflexivity|].
    split; [simpl; lia | reflexivity].
  - intros _ Hn.
    destruct (get_actions_importance_sigmoid_Some max_dim importance_base n_acts)
      as (per_dim & Hper & Hgrid); [lia|].
    exists per_dim, (np_sort (np_unique (product_sums per_dim))).
    split; [exact Hper|]. split; [exact Hgrid|].
    pose proof (np_unique_strict (product_sums per_dim)) as Hstrict.
    rewrite (np_sort_of_sorted _ (strictly_increasing_sorted _ Hstrict)).
    split; [exact Hstrict|].
    intro x. apply np_unique_InQ.
Qed.

Lemma get_actions_importance_sigmoid_grid_witness :
  exists per_dim grid,
    possible_actions_per_dim 2 (1 # 2) 3 = Some per_dim /\
    get_actions_importance_sigmoid 2 (1 # 2) 3 = Some grid /\
    strictly_increasing grid = true /\
    forall x, InQ x grid <-> InQ x (product_sums per_dim).
Proof.
  apply (get_actions_importance_sigmoid_grid 2 (1 # 2) 3); lia.
Defined.

(** C10, as stated, at [n_acts = 0]: a grid (the empty one) is returned
    although [n_acts >= 2] fails; no candidate value is computed, so nothing
    is divided. *)
Lemma get_actions_total_without_two_actions :
  ~ (get_actions_importance_sigmoid 2 (1 # 2) 0 <> None -> (2 <= 0)%Z).
Proof.
  intro H. assert (2 <= 0)%Z; [|lia].
  apply H. vm_compute. discriminate.
Qed.

(** C10, amended.  Grid generation raises (division by [n_acts - 1 = 0])
    exactly when [n_acts = 1], for every [max_dim] and base; so does the
    uniformly spaced grid, and with it [get_best_possible_avg_reward].  For
    [n_acts >= 2] a grid is returned; for [n_acts <= 0] no candidate is
    computed and the empty grid is returned. *)
Theorem action_grid_raises_iff_single_action (np_exp : Q -> Q) (B : Benchmarks)
  (dim : Z) (benchmark : string) (reward_shape : option string) (c : option Q)
  (max_dim : Z) (max_dim_arg : option Z) (importance_base : Q) (n_acts : Z) :
  (get_actions_importance_sigmoid max_dim importance_base n_acts = None <->
   n_acts = 1%Z) /\
  (uniform_actions n_acts = None <-> n_acts = 1%Z) /\
  get_best_possible_avg_reward np_exp B dim benchmark reward_shape c importance_base 1
    max_dim_arg = None /\
  ((2 <= n_acts)%Z -> (1 <= max_dim)%Z ->
   exists grid,
     get_actions_importance_sigmoid max_dim importance_base n_acts = Some grid) /\
  ((n_acts <= 0)%Z ->
   get_actions_importance_sigmoid max_dim importance_base n_acts = Some []).
Proof.
  split; [apply get_actions_importance_sigmoid_None|].
  split; [apply uniform_actions_None|].
  split.
  - unfold get_best_possible_avg_reward.
    destruct (String.eqb benchmark "candid_sigmoid" || String.eqb benchmark "piecewise_linear").
    + destruct max_dim_arg as [m|]; cbn [bind]; [|reflexivity].
      rewrite (proj2 (get_actions_importance_sigmoid_None m importance_base 1) eq_refl).
      reflexivity.
    + reflexivity.
  - split.
    + intros Hn _.
      destruct (get_actions_importance_sigmoid_Some max_dim importance_base n_acts)
        as (per_dim & _ & ->); [lia|].
      eexists. reflexivity.
    + apply get_actions_importance_sigmoid_no_actions.
Qed.

Lemma action_grid_raises_iff_single_action_witness :
  (exists grid, get_actions_importance_sigmoid 2 (1 # 2) 3 = Some grid) /\
  get_actions_importance_sigmoid 2 (1 # 2) 0 = Some [].
Proof.
  pose (B := mkBenchmarks (fun _ _ _ => mkEnvState [] 0) (fun _ _ => mkEnvState [] 0)
               (fun _ => mkEnvState [] 0)).
  split.
  - apply (action_grid_raises_iff_single_action (fun x => x) B 1 "sigmoid" None None
             2 None (1 # 2) 3); lia.
  - apply (action_grid_raises_iff_single_action (fun x => x) B 1 "sigmoid" None None
             2 None (1 # 2) 0); lia.
Defined.

(** ** Best possible average reward *)

Lemma skipn_nth_error {A : Type} (l : list A) :
  forall j x, nth_error l j = Some x -> skipn j l = x :: skipn (S j) l.
Proof.
  induction l as [|y t IH]; intros j x H; [destruct j; discriminate|].
  destruct j as [|j]; simpl in H.
  - injection H as ->. reflexivity.
  - change (skipn (S j) (y :: t)) with (skipn j t).
    change (skipn (S (S j)) (y :: t)) with (skipn (S j) t).
    apply IH. exact H.
Qed.

(** Without wrapping around, the visited instances are a segment of the
    list. *)
Lemma visited_segment (l : list Env) (k : nat) :
  forall j, (j + k <= length l)%nat -> visited l j k = firstn k (skipn j l).
Proof.
  induction k as [|k IH]; intros j H; [reflexivity|].
  cbn [visited].
  destruct (nth_error l j) as [x|] eqn:E.
  - rewrite (skipn_nth_error l j x E). cbn [firstn]. f_equal.
    destruct k as [|k']; [reflexivity|].
    rewrite Nat.mod_small by lia.
    replace (j + 1)%nat with (S j) by lia.
    apply IH. lia.
  - apply nth_error_None in E. lia.
Qed.

Lemma visited_app (l : list Env) (k1 k2 : nat) :
  forall j, (j < length l)%nat ->
            visited l j (k1 + k2)
            = visited l j k1 ++ visited l ((j + k1) mod length l) k2.
Proof.
  induction k1 as [|k1 IH]; intros j Hj.
  - simpl. rewrite Nat.add_0_r, Nat.mod_small by exact Hj. reflexivity.
  - cbn [Nat.add visited].
    destruct (nth_error l j) as [x|] eqn:E.
    + cbn [app]. f_equal.
      rewrite IH by (apply Nat.mod_upper_bound; lia).
      f_equal. f_equal.
      rewrite Nat.Div0.add_mod_idemp_l. f_equal. lia.
    + apply nth_error_None in E. lia.
Qed.

Lemma mapM_Permutation {A B : Type} (f : A -> option B) (l1 l2 : list A) :
  Permutation l1 l2 ->
  match mapM f l1, mapM f l2 with
  | Some r1, Some r2 => Permutation r1 r2
  | None, None => True
  | _, _ => False
  end.
Proof.
  induction 1 as [|x l1 l2 _ IH|x y l|l1 l2 l3 _ IH1 _ IH2]; simpl.
  - constructor.
  - destruct (f x); simpl; [|exact I].
    destruct (mapM f l1), (mapM f l2); simpl; try exact IH.
    constructor. exact IH.
  - destruct (f x), (f y); simpl; try exact I.
    destruct (mapM f l); simpl; [|exact I]. apply perm_swap.
  - destruct (mapM f l1), (mapM f l2), (mapM f l3); try tauto.
    eapply perm_trans; eassumption.
Qed.

(** ** Concrete instances *)

Lemma optimal_reward_perfect_score_witness :
  exists r,
    compute_optimal_episode_reward (fun _ => 1)
      (mkEnv DiffImportanceFineTuneSigmoidEnv 3 1 [1] [0]
             (fun t _ _ => if Nat.even t then 0 else 1) (fun _ => 0))
      [0; 1 # 2; 1] None None = Some r /\
    r == inject_Z (Z.of_nat 3).
Proof.
  apply (optimal_reward_perfect_score (fun _ => 1)
           (mkEnv DiffImportanceFineTuneSigmoidEnv 3 1 [1] [0]
                  (fun t _ _ => if Nat.even t then 0 else 1) (fun _ => 0))
           [0; 1 # 2; 1] None None 1 0).
  - reflexivity.
  - reflexivity.
  - reflexivity.
  - reflexivity.
  - reflexivity.
  - intros t Ht. simpl in Ht.
    destruct t as [|[|[|t]]].
    + exists 0. split; [simpl; tauto | reflexivity].
    + exists 1. split; [simpl; tauto | reflexivity].
    + exists 0. split; [simpl; tauto | reflexivity].
    + lia.
Defined.

Lemma single_target_reads_index_0_only_witness :
  compute_optimal_episode_reward (fun _ => 1)
    (with_slopes_shifts
       (mkEnv DiffImportanceFineTuneSigmoidEnv 2 2 [1; 2] [0; 3]
              (fun t slope shift => slope * inject_Z (Z.of_nat t) + shift) (fun _ => 0))
       [1; 7; 9] [0])
    [0; 1] (Some "exponential"%string) (Some 1)
  = compute_optimal_episode_reward (fun _ => 1)
      (mkEnv DiffImportanceFineTuneSigmoidEnv 2 2 [1; 2] [0; 3]
             (fun t slope shift => slope * inject_Z (Z.of_nat t) + shift) (fun _ => 0))
      [0; 1] (Some "exponential"%string) (Some 1).
Proof.
  apply (single_target_reads_index_0_only (fun _ => 1)
           (mkEnv DiffImportanceFineTuneSigmoidEnv 2 2 [1; 2] [0; 3]
                  (fun t slope shift => slope * inject_Z (Z.of_nat t) + shift)
                  (fun _ => 0))
           [1; 7; 9] [0] [0; 1] (Some "exponential"%string) (Some 1));
    reflexivity.
Defined.

(** * Further properties *)

(** ** Nearest-value lookup on arbitrary arrays *)

(** The binary search stays within its bounds, sorted array or not. *)
Lemma bisect_left_range (a : list Q) (v : Q) :
  forall fuel lo hi,
    (lo <= hi)%nat ->
    (lo <= bisect_left fuel a v lo hi)%nat /\ (bisect_left fuel a v lo hi <= hi)%nat.
Proof.
  induction fuel as [|fuel IH]; intros lo hi H; [simpl; lia|].
  cbn [bisect_left]. destruct (Nat.ltb_spec lo hi) as [Hlt|Hge]; [|lia].
  assert (Hmid : ((hi - lo) / 2 < hi - lo)%nat) by (apply Nat.div_lt; lia).
  destruct (Qltb _ _).
  - destruct (IH (S (lo + (hi - lo) / 2))%nat hi ltac:(lia)). lia.
  - destruct (IH lo (lo + (hi - lo) / 2)%nat ltac:(lia)). lia.
Qed.

Lemma searchsorted_le_length (a : list Q) (v : Q) :
  (searchsorted a v <= length a)%nat.
Proof.
  unfold searchsorted. apply (bisect_left_range a v (length a) 0 (length a)). lia.
Qed.

Lemma nearest_at_In (a : list Q) (v : Q) (idx : nat) :
  a <> [] -> (idx <= length a)%nat -> In (nearest_at a v idx) a.
Proof.
  intros Hne Hidx.
  assert (Hlen : (0 < length a)%nat) by (destruct a; [congruence | simpl; lia]).
  unfold nearest_at.
  destruct (Nat.eqb_spec idx 0); [apply nth_In; lia|].
  destruct (Nat.eqb_spec idx (length a)); [apply nth_In; lia|].
  destruct (Qltb _ _); apply nth_In; lia.
Qed.

Lemma find_nearest_Some_In (array : list Q) (value r : Q) :
  find_nearest array value = Some r -> In r array.
Proof.
  destruct array as [|x t]; [discriminate|].
  assert (Hne : x :: t <> []) by discriminate.
  rewrite (find_nearest_unfold (x :: t) value Hne (searchsorted_le_length _ _)).
  intros [= <-]. apply nearest_at_In; [exact Hne | apply searchsorted_le_length].
Qed.

(** X1.  [find_nearest] raises exactly on the empty array; on every other
    array, sorted or not, it returns one of the array's elements. *)
Theorem find_nearest_raises_iff_empty (array : list Q) (value : Q) :
  (find_nearest array value = None <-> array = []) /\
  (forall r, find_nearest array value = Some r -> In r array).
Proof.
  split; [|intro r; apply find_nearest_Some_In].
  destruct array as [|x t]; [split; reflexivity|].
  assert (Hne : x :: t <> []) by discriminate.
  rewrite (find_nearest_unfold (x :: t) value Hne (searchsorted_le_length _ _)).
  split; discriminate.
Qed.

(** ** Nearest-value lookup on sorted arrays *)

(** X2.  Boundary policy on a sorted, non-empty array: a query at or below the
    first element returns the first element; a query at or above the last
    element returns an element of the value of the last one. *)
Theorem find_nearest_boundaries (array : list Q) (value : Q) :
  array <> [] -> sorted_ascending array = true ->
  (value <= nth 0 array 0 -> find_nearest array value = Some (nth 0 array 0)) /\
  (nth (length array - 1) array 0 <= value ->
   exists r, find_nearest array value = Some r /\
             r == nth (length array - 1) array 0).
Proof.
  intros Hne Hs.
  assert (Hlen : (0 < length array)%nat) by (destruct array; [congruence | simpl; lia]).
  split.
  - intro Hv.
    destruct (searchsorted_correct array value Hs) as (Hidx & Hlow & _).
    rewrite (find_nearest_unfold array value Hne Hidx). f_equal.
    unfold nearest_at.
    destruct (Nat.eqb_spec (searchsorted array value) 0) as [_|N]; [reflexivity|].
    pose proof (Hlow 0%nat ltac:(lia)). lra.
  - intro Hv.
    destruct (find_nearest_is_nearest array value Hne Hs) as (r & Hr & Hin & Hclose).
    exists r. split; [exact Hr|].
    destruct (In_nth_Q array r Hin) as (k & Hk & <-).
    pose proof (sorted_ascending_nth array Hs k (length array - 1)
                  ltac:(lia) ltac:(lia)) as Hle.
    assert (Hlast : In (nth (length array - 1) array 0) array)
      by (apply nth_In; lia).
    pose proof (Hclose _ Hlast).
    qabs_lra.
Qed.

Lemma find_nearest_boundaries_witness :
  find_nearest [0; 1 # 2; 1] (- (3)) = Some 0 /\
  exists r, find_nearest [0; 1 # 2; 1] 7 = Some r /\ r == 1.
Proof.
  split.
  - apply (find_nearest_boundaries [0; 1 # 2; 1] (- (3))); [discriminate | reflexivity |].
    simpl. discriminate.
  - apply (find_nearest_boundaries [0; 1 # 2; 1] 7); [discriminate | reflexivity |].
    simpl. discriminate.
Defined.

Lemma insertion_point_count (a : list Q) (v : Q) :
  forall idx, insertion_point a v idx ->
              length (filter (fun x => Qltb x v) a) = idx.
Proof.
  induction a as [|x t IH]; intros idx (Hidx & Hlow & Hhigh).
  - simpl in *. lia.
  - cbn [filter]. destruct idx as [|i].
    + pose proof (Hhigh 0%nat ltac:(lia) ltac:(simpl; lia)) as H0. simpl in H0.
      apply Qltb_false in H0. rewrite H0.
      apply IH. split; [lia|]. split; [intros k Hk; lia|].
      intros k _ Hk. apply (Hhigh (S k) ltac:(lia)). simpl. lia.
    + pose proof (Hlow 0%nat ltac:(lia)) as H0. simpl in H0.
      apply Qltb_true in H0. rewrite H0. cbn [length]. f_equal.
      apply IH. split; [simpl in Hidx; lia|]. split.
      * intros k Hk. apply (Hlow (S k)). lia.
      * intros k Hk1 Hk2. apply (Hhigh (S k) ltac:(lia)). simpl. lia.
Qed.

(** X3.  On a sorted array [np.searchsorted] returns the number of elements
    strictly below the query. *)
Theorem searchsorted_counts_smaller (array : list Q) (value : Q) :
  sorted_ascending array = true ->
  searchsorted array value = length (filter (fun x => Qltb x value) array).
Proof.
  intro Hs. symmetry. apply insertion_point_count.
  apply searchsorted_correct. exact Hs.
Qed.

Lemma searchsorted_counts_smaller_witness :
  searchsorted [0; 1 # 2; 1; 1; 3] 1
  = length (filter (fun x => Qltb x 1) [0; 1 # 2; 1; 1; 3]).
Proof.
  apply (searchsorted_counts_smaller [0; 1 # 2; 1; 1; 3] 1). reflexivity.
Defined.

(** Two elements of a strictly increasing array with the same value are the
    same element. *)
Lemma strictly_increasing_In_eq (a : list Q) (x y : Q) :
  strictly_increasing a = true -> In x a -> In y a -> x == y -> x = y.
Proof.
  intros Hs Hx Hy E.
  destruct (In_nth_Q a x Hx) as (i & Hi & <-).
  destruct (In_nth_Q a y Hy) as (j & Hj & <-).
  destruct (Nat.lt_trichotomy i j) as [L|[->|L]]; [|reflexivity|].
  - pose proof (strictly_increasing_nth a Hs i j L Hj). lra.
  - pose proof (strictly_increasing_nth a Hs j i L Hi). lra.
Qed.

(** X4.  The elements of a strictly increasing grid are fixed points of the
    lookup, so looking up a result again returns it unchanged. *)
Theorem find_nearest_fixed_points (A : list Q) (v : Q) :
  strictly_increasing A = true ->
  (forall g, In g A -> find_nearest A g = Some g) /\
  (forall r, find_nearest A v = Some r -> find_nearest A r = Some r).
Proof.
  intro Hs.
  assert (Hfix : forall g, In g A -> find_nearest A g = Some g).
  { intros g Hg.
    destruct (find_nearest_exact A g g (strictly_increasing_sorted _ Hs) Hg
                ltac:(reflexivity)) as (r & Hr & Hrg).
    rewrite Hr. f_equal.
    apply (strictly_increasing_In_eq A r g Hs); [|exact Hg|exact Hrg].
    apply (find_nearest_Some_In A g). exact Hr. }
  split; [exact Hfix|].
  intros r Hr. apply Hfix. apply (find_nearest_Some_In A v). exact Hr.
Qed.

Lemma find_nearest_fixed_points_witness :
  find_nearest [0; 1 # 2; 1] (1 # 2) = Some (1 # 2).
Proof.
  apply (proj1 (find_nearest_fixed_points [0; 1 # 2; 1] 0 eq_refl)).
  right. left. reflexivity.
Defined.

(** The lookup depends on the query only through its value. *)
Lemma Qltb_value (x x' y y' : Q) : x == x' -> y == y' -> Qltb x y = Qltb x' y'.
Proof.
  intros Ex Ey. destruct (Qltb x' y') eqn:E.
  - apply Qltb_true in E. apply Qltb_true. lra.
  - apply Qltb_false in E. apply Qltb_false. lra.
Qed.

Lemma bisect_left_value (a : list Q) (v w : Q) :
  v == w -> forall fuel lo hi, bisect_left fuel a v lo hi = bisect_left fuel a w lo hi.
Proof.
  intros E. induction fuel as [|fuel IH]; intros lo hi; [reflexivity|].
  cbn [bisect_left]. destruct (lo <? hi)%nat; [|reflexivity].
  rewrite (Qltb_value _ (nth (lo + (hi - lo) / 2) a 0) v w ltac:(reflexivity) E).
  destruct (Qltb _ w); apply IH.
Qed.

Lemma find_nearest_value (a : list Q) (v w : Q) :
  v == w -> find_nearest a v = find_nearest a w.
Proof.
  intro E. unfold find_nearest, searchsorted.
  rewrite (bisect_left_value a v w E).
  destruct (_ =? 0)%nat; [reflexivity|].
  destruct (_ =? length a)%nat; [reflexivity|].
  destruct (nth_error a _) as [low|]; [|reflexivity]. cbn [bind].
  destruct (nth_error a _) as [high|]; [|reflexivity]. cbn [bind].
  rewrite (Qltb_value (v - low) (w - low) (high - v) (high - w)); [reflexivity | |];
    rewrite E; reflexivity.
Qed.

(** X5.  On a sorted grid the lookup is monotone: a larger query never
    returns a smaller element. *)
Theorem find_nearest_monotone (A : list Q) (v w r_v r_w : Q) :
  sorted_ascending A = true -> v <= w ->
  find_nearest A v = Some r_v -> find_nearest A w = Some r_w ->
  r_v <= r_w.
Proof.
  intros Hs Hvw Hv Hw.
  assert (Hne : A <> []) by (intros ->; discriminate).
  destruct (find_nearest_is_nearest A v Hne Hs) as (r1 & Hr1 & Hin1 & Hc1).
  destruct (find_nearest_is_nearest A w Hne Hs) as (r2 & Hr2 & Hin2 & Hc2).
  rewrite Hv in Hr1. injection Hr1 as <-.
  rewrite Hw in Hr2. injection Hr2 as <-.
  apply Qnot_lt_le. intro Hlt.
  pose proof (Hc1 r_w Hin2) as H1. pose proof (Hc2 r_v Hin1) as H2.
  assert (E : v == w) by qabs_lra.
  rewrite (find_nearest_value A v w E), Hw in Hv. injection Hv as ->. lra.
Qed.

Lemma find_nearest_monotone_witness :
  find_nearest [0; 1 # 2; 1] (1 # 5) = Some 0 /\
  find_nearest [0; 1 # 2; 1] (4 # 5) = Some 1 /\
  0 <= 1.
Proof.
  split; [reflexivity|]. split; [reflexivity|].
  apply (find_nearest_monotone [0; 1 # 2; 1] (1 # 5) (4 # 5) 0 1);
    reflexivity || discriminate.
Defined.

(** ** Run names and markers *)

Lemma prefix_app (sub s : string) :
  String.prefix sub s = true <-> exists post, s = (sub ++ post)%string.
Proof.
  revert s. induction sub as [|c sub IH]; intro s.
  - split; [intros _; exists s; reflexivity | intros _; destruct s; reflexivity].
  - destruct s as [|d s]; simpl.
    + split; [discriminate | intros (post & H); discriminate].
    + destruct (Ascii.ascii_dec c d) as [->|N].
      * rewrite IH. split; intros (post & H); exists post; congruence.
      * split; [discriminate | intros (post & H); congruence].
Qed.

(** The containment test holds exactly when the marker occurs as a contiguous
    substring. *)
Lemma py_in_substring (sub s : string) :
  py_in sub s = true <-> exists pre post, s = (pre ++ sub ++ post)%string.
Proof.
  induction s as [|c s IH].
  - cbn [py_in]. rewrite orb_false_r, prefix_app. split.
    + intros (post & H). exists ""%string, post. exact H.
    + intros ([|d pre] & post & H); [exists post; exact H | discriminate].
  - cbn [py_in]. rewrite orb_true_iff, prefix_app, IH. split.
    + intros [(post & H) | (pre & post & H)].
      * exists ""%string, post. exact H.
      * exists (String c pre), post. simpl. congruence.
    + intros ([|d pre] & post & H).
      * left. exists post. exact H.
      * right. exists pre, post. simpl in H. congruence.
Qed.

Lemma append_assoc (a b c : string) : ((a ++ b) ++ c = a ++ (b ++ c))%string.
Proof. induction a as [|x a IH]; simpl; [reflexivity | rewrite IH; reflexivity]. Qed.

(** A name that contains a marker contains every prefix of the marker. *)
Lemma py_in_marker_prefix (m rest s : string) :
  py_in (m ++ rest) s = true -> py_in m s = true.
Proof.
  rewrite !py_in_substring. intros (pre & post & ->).
  exists pre, (rest ++ post)%string. rewrite append_assoc. reflexivity.
Qed.

(** X7.  Every run name containing 'fdqn_a' also contains 'fdqn'; with the
    order of the tests in the code such a name is labelled DDQN or SAQL and
    never IQL. *)
Theorem fdqn_a_names_never_IQL (run_name : string) :
  py_in "fdqn_a" run_name = true ->
  py_in "fdqn" run_name = true /\
  (translate_run_name run_name = "DDQN"%string \/
   translate_run_name run_name = "SAQL"%string) /\
  translate_run_name run_name <> "IQL"%string.
Proof.
  intro H. split; [exact (py_in_marker_prefix "fdqn" "_a" run_name H)|].
  unfold translate_run_name. rewrite H.
  destruct (py_in "adqn" run_name || py_in "ddqn" run_name); cbn [orb];
    (split; [tauto | discriminate]).
Qed.

Lemma fdqn_a_names_never_IQL_witness :
  translate_run_name "exp_fdqn_a_seed3" <> "IQL"%string.
Proof.
  apply (fdqn_a_names_never_IQL "exp_fdqn_a_seed3"). reflexivity.
Defined.

(** X8.  The fallback is taken exactly on marker-free names: a run name is
    returned unchanged if and only if it contains none of the seven markers
    (a name with a marker becomes a label, and no label contains a marker). *)
Theorem translate_run_name_unchanged_iff (run_name : string) :
  translate_run_name run_name = run_name <-> no_marker run_name = true.
Proof.
  split; [|apply translate_run_name_no_marker].
  intro H. destruct (no_marker run_name) eqn:E; [reflexivity|exfalso].
  destruct (translate_run_name_cases run_name) as [L|[L|[L|[L|[_ L]]]]];
    try congruence;
    rewrite L in H; subst run_name; discriminate E.
Qed.

(** ** Loops *)

Lemma for_range_invariant {S : Type} (I : nat -> S -> Prop)
  (body : nat -> S -> option S) (len : nat) :
  forall start acc,
    I start acc ->
    (forall t a, (start <= t < start + len)%nat -> I t a ->
                 exists a', body t a = Some a' /\ I (Datatypes.S t) a') ->
    exists r, for_range start len body acc = Some r /\ I (start + len)%nat r.
Proof.
  induction len as [|len IH]; intros start acc HI Hbody.
  - exists acc. split; [reflexivity|]. rewrite Nat.add_0_r. exact HI.
  - cbn [for_range].
    destruct (Hbody start acc ltac:(lia) HI) as (a' & -> & HI'). cbn [bind].
    destruct (IH (Datatypes.S start) a' HI') as (r & Hr & HIr).
    { intros t a Ht. apply Hbody. lia. }
    exists r. split; [exact Hr|].
    replace (start + Datatypes.S len)%nat with (Datatypes.S start + len)%nat by lia.
    exact HIr.
Qed.

Lemma for_range_rel {S1 S2 : Type} (R : S1 -> S2 -> Prop)
  (body1 : nat -> S1 -> option S1) (body2 : nat -> S2 -> option S2) (len : nat) :
  forall start a1 a2,
    R a1 a2 ->
    (forall t x1 x2, (start <= t < start + len)%nat -> R x1 x2 ->
                     opt_rel R (body1 t x1) (body2 t x2)) ->
    opt_rel R (for_range start len body1 a1) (for_range start len body2 a2).
Proof.
  induction len as [|len IH]; intros start a1 a2 HR Hbody; [exact HR|].
  cbn [for_range].
  pose proof (Hbody start a1 a2 ltac:(lia) HR) as H.
  destruct (body1 start a1) as [x1|], (body2 start a2) as [x2|];
    cbn [opt_rel bind] in *; try tauto.
  apply IH; [exact H|]. intros t y1 y2 Ht. apply Hbody. lia.
Qed.

(** A loop that succeeds and adds at most 1 per round adds at most the number
    of rounds. *)
Lemma for_range_at_most_one (body : nat -> Q -> option Q) (len : nat) :
  (forall t a a', body t a = Some a' -> a' <= a + 1) ->
  forall start acc r,
    for_range start len body acc = Some r ->
    r <= acc + inject_Z (Z.of_nat len).
Proof.
  intro Hbody. induction len as [|len IH]; intros start acc r H.
  - simpl in H. injection H as <-. simpl. unfold inject_Z. lra.
  - cbn [for_range] in H.
    destruct (body start acc) as [a'|] eqn:E; [|discriminate]. cbn [bind] in H.
    pose proof (Hbody _ _ _ E). pose proof (IH _ _ _ H).
    rewrite inject_Z_of_nat_succ. lra.
Qed.

(** ** Optimal episode reward: edges and bounds *)

Lemma find_nearest_nil (v : Q) : find_nearest [] v = None.
Proof. reflexivity. Qed.

(** X9.  With an empty action grid the computation raises as soon as one
    lookup is made: in every variant when the episode has at least one step
    (and, in the multi-action variant, at least one action dimension). *)
Theorem optimal_reward_empty_grid_raises (np_exp : Q -> Q) (env : Env)
  (reward_shape : option string) (c : option Q) :
  (0 < n_steps env)%nat ->
  (env_class env = SigmoidEnv -> (0 < n_actions env)%nat) ->
  compute_optimal_episode_reward np_exp env [] reward_shape c = None.
Proof.
  intros Hsteps Hacts. unfold compute_optimal_episode_reward.
  destruct (n_steps env) as [|k]; [lia|].
  destruct (env_class env).
  - destruct (nth_error (shifts env) 0); [|reflexivity].
    destruct (nth_error (slopes env) 0); reflexivity.
  - reflexivity.
  - destruct (n_actions env) as [|m]; [specialize (Hacts eq_refl); lia|].
    cbn [for_range].
    destruct (nth_error (slopes env) 0); [|reflexivity].
    destruct (nth_error (shifts env) 0); reflexivity.
Qed.

Lemma optimal_reward_empty_grid_raises_witness :
  compute_optimal_episode_reward (fun _ => 1)
    (mkEnv SigmoidEnv 2 1 [1] [0] (fun _ _ _ => 1 # 4) (fun _ => 0))
    [] None None = None.
Proof.
  apply (optimal_reward_empty_grid_raises (fun _ => 1)
           (mkEnv SigmoidEnv 2 1 [1] [0] (fun _ _ _ => 1 # 4) (fun _ => 0)));
    simpl; lia.
Defined.

(** X10.  A multi-action environment without action dimensions makes no
    lookup: every step reward is the empty product 1 and the result is
    [n_steps], for every grid (the empty one included), reward shape and
    constant. *)
Theorem optimal_reward_no_actions (np_exp : Q -> Q) (env : Env)
  (possible_actions : list Q) (reward_shape : option string) (c : option Q) :
  env_class env = SigmoidEnv -> n_actions env = 0%nat ->
  exists r, compute_optimal_episode_reward np_exp env possible_actions reward_shape c
            = Some r /\
            r == inject_Z (Z.of_nat (n_steps env)).
Proof.
  intros Hcls Hacts. unfold compute_optimal_episode_reward. rewrite Hcls, Hacts.
  destruct (for_range_adds_one
              (fun (t : nat) (optim_episode_reward : Q) =>
                 step_reward <- for_range 0 0
                   (fun i step_reward =>
                      slope <- nth_error (slopes env) i ;;
                      shift <- nth_error (shifts env) i ;;
                      best_pred_acc <-
                        find_nearest possible_actions (_sig env t slope shift) ;;
                      Some (step_reward
                            * (1 - Qabs (_sig env t slope shift - best_pred_acc))))
                   1 ;;
                 Some (optim_episode_reward + step_reward))
              (n_steps env) 0%nat 0) as (total & Htotal & Hval).
  - intros t acc' _. exists 1. split; reflexivity.
  - exists total. split; [exact Htotal|]. rewrite Hval. lra.
Qed.

Lemma optimal_reward_no_actions_witness :
  exists r,
    compute_optimal_episode_reward (fun _ => 1)
      (mkEnv SigmoidEnv 4 0 [] [] (fun _ _ _ => 1 # 4) (fun _ => 0))
      [] (Some "exponential"%string) None = Some r /\
    r == inject_Z (Z.of_nat 4).
Proof.
  apply (optimal_reward_no_actions (fun _ => 1)
           (mkEnv SigmoidEnv 4 0 [] [] (fun _ _ _ => 1 # 4) (fun _ => 0)));
    reflexivity.
Defined.

Lemma linear_reward_le_1 (truth best_pred_acc : Q) :
  linear_reward truth best_pred_acc <= 1.
Proof. unfold linear_reward. qabs_lra. Qed.

(** X11.  With a linear reward shape the single-target and piecewise-target
    variants never return more than [n_steps]. *)
Theorem optimal_reward_at_most_n_steps (np_exp : Q -> Q) (env : Env)
  (possible_actions : list Q) (reward_shape : option string) (c : option Q) (r : Q) :
  env_class env <> SigmoidEnv ->
  shape_is reward_shape "exponential" = false ->
  shape_is reward_shape "exp" = false ->
  compute_optimal_episode_reward np_exp env possible_actions reward_shape c = Some r ->
  r <= inject_Z (Z.of_nat (n_steps env)).
Proof.
  intros Hcls He1 He2 H. unfold compute_optimal_episode_reward in H.
  destruct (env_class env); [| |congruence].
  - destruct (nth_error (shifts env) 0) as [shift|]; [|discriminate].
    destruct (nth_error (slopes env) 0) as [slope|]; [|discriminate].
    cbn [bind] in H. apply for_range_at_most_one in H; [lra|].
    intros t a a' E.
    destruct (find_nearest possible_actions _) as [b|]; [|discriminate].
    cbn [bind] in E. unfold sigmoid_step_reward in E. rewrite He1 in E.
    cbn [bind] in E. injection E as <-.
    pose proof (linear_reward_le_1 (_sig env t slope shift) b). lra.
  - apply for_range_at_most_one in H; [lra|].
    intros t a a' E.
    destruct (find_nearest possible_actions _) as [b|]; [|discriminate].
    cbn [bind] in E. unfold piecewise_step_reward in E. rewrite He1, He2 in E.
    cbn [bind orb] in E. injection E as <-.
    pose proof (linear_reward_le_1 (_get_target env t) b). lra.
Qed.

Lemma optimal_reward_at_most_n_steps_witness :
  compute_optimal_episode_reward (fun _ => 1)
    (mkEnv PiecewiseLinearEnv 2 1 [] [] (fun _ _ _ => 0) (fun _ => 1 # 2))
    [0; 1] None None = Some (4 # 4) /\
  4 # 4 <= inject_Z (Z.of_nat 2).
Proof.
  split; [reflexivity|].
  apply (optimal_reward_at_most_n_steps (fun _ => 1)
           (mkEnv PiecewiseLinearEnv 2 1 [] [] (fun _ _ _ => 0) (fun _ => 1 # 2))
           [0; 1] None None (4 # 4)).
  - discriminate.
  - reflexivity.
  - reflexivity.
  - reflexivity.
Defined.

(** ** Optimal episode reward: the three variants side by side *)

(** X12.  Piecewise-target variant, linear reward shape: if the target at
    every time step is the value of an element of the (strictly increasing)
    grid, the result is [n_steps]. *)
Theorem optimal_reward_perfect_score_piecewise (np_exp : Q -> Q) (env : Env)
  (grid : list Q) (reward_shape : option string) (c : option Q) :
  env_class env = PiecewiseLinearEnv ->
  shape_is reward_shape "exponential" = false ->
  shape_is reward_shape "exp" = false ->
  strictly_increasing grid = true ->
  (forall t, (t < n_steps env)%nat ->
             exists g, In g grid /\ g == _get_target env t) ->
  exists r, compute_optimal_episode_reward np_exp env grid reward_shape c = Some r /\
            r == inject_Z (Z.of_nat (n_steps env)).
Proof.
  intros Hcls He1 He2 Hgrid Htruth.
  unfold compute_optimal_episode_reward. rewrite Hcls.
  destruct (for_range_adds_one
              (fun t optim_episode_reward =>
                 best_pred_acc <- find_nearest grid (_get_target env t) ;;
                 r <- piecewise_step_reward np_exp reward_shape c
                        (_get_target env t) best_pred_acc ;;
                 Some (optim_episode_reward + r))
              (n_steps env) 0%nat 0) as (total & Htotal & Hval).
  - intros t acc' Ht.
    destruct (Htruth t ltac:(lia)) as (g & Hg & Hgv).
    destruct (find_nearest_exact grid _ g (strictly_increasing_sorted _ Hgrid) Hg Hgv)
      as (r & -> & Hr).
    cbn [bind]. unfold piecewise_step_reward. rewrite He1, He2. cbn [bind orb].
    eexists. split; [reflexivity|].
    unfold linear_reward. qabs_lra.
  - exists total. split; [exact Htotal|]. rewrite Hval. lra.
Qed.

Lemma optimal_reward_perfect_score_piecewise_witness :
  exists r,
    compute_optimal_episode_reward (fun _ => 1)
      (mkEnv PiecewiseLinearEnv 3 1 [] [] (fun _ _ _ => 0)
             (fun t => if Nat.even t then 1 # 2 else 1))
      [0; 1 # 2; 1] None None = Some r /\
    r == inject_Z (Z.of_nat 3).
Proof.
  apply (optimal_reward_perfect_score_piecewise (fun _ => 1)
           (mkEnv PiecewiseLinearEnv 3 1 [] [] (fun _ _ _ => 0)
                  (fun t => if Nat.even t then 1 # 2 else 1))
           [0; 1 # 2; 1] None None).
  - reflexivity.
  - reflexivity.
  - reflexivity.
  - reflexivity.
  - intros t Ht. simpl in Ht.
    destruct t as [|[|[|t]]].
    + exists (1 # 2). split; [simpl; tauto | reflexivity].
    + exists 1. split; [simpl; tauto | reflexivity].
    + exists (1 # 2). split; [simpl; tauto | reflexivity].
    + lia.
Defined.

(** X13.  Multi-action variant: if every action dimension has a slope and a
    shift and its signal at every time step is the value of an element of the
    (strictly increasing) grid, every step reward is 1 and the result is
    [n_steps]. *)
Theorem optimal_reward_perfect_score_multi_action (np_exp : Q -> Q) (env : Env)
  (grid : list Q) (reward_shape : option string) (c : option Q) :
  env_class env = SigmoidEnv ->
  strictly_increasing grid = true ->
  (forall t i, (t < n_steps env)%nat -> (i < n_actions env)%nat ->
               exists slope shift g,
                 nth_error (slopes env) i = Some slope /\
                 nth_error (shifts env) i = Some shift /\
                 In g grid /\ g == _sig env t slope shift) ->
  exists r, compute_optimal_episode_reward np_exp env grid reward_shape c = Some r /\
            r == inject_Z (Z.of_nat (n_steps env)).
Proof.
  intros Hcls Hgrid Htruth.
  unfold compute_optimal_episode_reward. rewrite Hcls.
  match goal with
  | |- exists r, for_range 0 _ ?body 0 = Some r /\ _ =>
      destruct (for_range_adds_one body (n_steps env) 0%nat 0)
        as (total & Htotal & Hval)
  end.
  - intros t acc' Ht.
    match goal with
    | |- exists r, bind (for_range 0 _ ?inner 1) _ = _ /\ _ =>
        destruct (for_range_invariant (fun _ p => p == 1) inner (n_actions env) 0%nat 1)
          as (p & Hp & Hp1)
    end.
    + reflexivity.
    + intros i a Hi Ha.
      destruct (Htruth t i ltac:(lia) ltac:(lia))
        as (slope & shift & g & -> & -> & Hg & Hgv).
      cbn [bind].
      destruct (find_nearest_exact grid _ g (strictly_increasing_sorted _ Hgrid)
                  Hg Hgv) as (b & -> & Hb).
      cbn [bind]. eexists. split; [reflexivity|].
      rewrite Ha. qabs_lra.
    + rewrite Hp. cbn [bind]. exists p. split; [reflexivity | exact Hp1].
  - exists total. split; [exact Htotal|]. rewrite Hval. lra.
Qed.

Lemma optimal_reward_perfect_score_multi_action_witness :
  exists r,
    compute_optimal_episode_reward (fun _ => 1)
      (mkEnv SigmoidEnv 2 2 [1; 2] [0; 0] (fun _ slope _ => slope / 2) (fun _ => 0))
      [0; 1 # 2; 1] None None = Some r /\
    r == inject_Z (Z.of_nat 2).
Proof.
  apply (optimal_reward_perfect_score_multi_action (fun _ => 1)
           (mkEnv SigmoidEnv 2 2 [1; 2] [0; 0] (fun _ slope _ => slope / 2)
                  (fun _ => 0))
           [0; 1 # 2; 1] None None).
  - reflexivity.
  - reflexivity.
  - intros t i Ht Hi. simpl in Ht, Hi.
    destruct i as [|[|i]].
    + exists 1, 0, (1 # 2). repeat split; simpl; tauto || reflexivity.
    + exists 2, 0, 1. repeat split; simpl; tauto || reflexivity.
    + lia.
Defined.

(** X14.  For every reward shape other than 'exp', a piecewise-target
    environment whose target follows the sigmoid of index 0 of a single-target
    environment with the same horizon gets the same optimal reward. *)
Theorem optimal_reward_variants_agree_off_exp (np_exp : Q -> Q)
  (sigmoid_env piecewise_env : Env) (possible_actions : list Q)
  (reward_shape : option string) (c : option Q) (slope shift : Q) :
  env_class sigmoid_env = DiffImportanceFineTuneSigmoidEnv ->
  env_class piecewise_env = PiecewiseLinearEnv ->
  n_steps piecewise_env = n_steps sigmoid_env ->
  nth_error (slopes sigmoid_env) 0 = Some slope ->
  nth_error (shifts sigmoid_env) 0 = Some shift ->
  (forall t, (t < n_steps sigmoid_env)%nat ->
             _get_target piecewise_env t = _sig sigmoid_env t slope shift) ->
  shape_is reward_shape "exp" = false ->
  compute_optimal_episode_reward np_exp piecewise_env possible_actions reward_shape c
  = compute_optimal_episode_reward np_exp sigmoid_env possible_actions reward_shape c.
Proof.
  intros Hs Hp Hn Hslope Hshift Hsig Hshape.
  unfold compute_optimal_episode_reward. rewrite Hs, Hp, Hn, Hslope, Hshift.
  cbn [bind]. apply for_range_ext. intros t acc Ht.
  rewrite Hsig by lia.
  destruct (find_nearest possible_actions _) as [b|]; [|reflexivity].
  cbn [bind]. rewrite step_rewards_agree_off_exp by exact Hshape. reflexivity.
Qed.

Lemma optimal_reward_variants_agree_off_exp_witness :
  compute_optimal_episode_reward (fun x => 1 + x)
    (mkEnv PiecewiseLinearEnv 2 1 [] [] (fun _ _ _ => 0) (fun _ => 1 # 4))
    [0; 1] (Some "exponential"%string) (Some 1)
  = compute_optimal_episode_reward (fun x => 1 + x)
      (mkEnv DiffImportanceFineTuneSigmoidEnv 2 1 [1] [0] (fun _ _ _ => 1 # 4)
             (fun _ => 0))
      [0; 1] (Some "exponential"%string) (Some 1).
Proof.
  apply (optimal_reward_variants_agree_off_exp (fun x => 1 + x)
           (mkEnv DiffImportanceFineTuneSigmoidEnv 2 1 [1] [0] (fun _ _ _ => 1 # 4)
                  (fun _ => 0))
           (mkEnv PiecewiseLinearEnv 2 1 [] [] (fun _ _ _ => 0) (fun _ => 1 # 4))
           [0; 1] (Some "exponential"%string) (Some 1) 1 0); reflexivity.
Defined.

(** X15.  With a linear reward shape, the multi-action variant with a single
    action dimension computes the same reward as the single-target variant on
    the same slope, shift and sigmoid. *)
Theorem optimal_reward_single_action_is_single_target (np_exp : Q -> Q)
  (sigmoid_env multi_env : Env) (possible_actions : list Q)
  (reward_shape : option string) (c : option Q) (slope shift : Q) :
  env_class sigmoid_env = DiffImportanceFineTuneSigmoidEnv ->
  env_class multi_env = SigmoidEnv ->
  n_actions multi_env = 1%nat ->
  n_steps multi_env = n_steps sigmoid_env ->
  _sig multi_env = _sig sigmoid_env ->
  nth_error (slopes sigmoid_env) 0 = Some slope ->
  nth_error (shifts sigmoid_env) 0 = Some shift ->
  nth_error (slopes multi_env) 0 = Some slope ->
  nth_error (shifts multi_env) 0 = Some shift ->
  shape_is reward_shape "exponential" = false ->
  opt_Qeq
    (compute_optimal_episode_reward np_exp multi_env possible_actions reward_shape c)
    (compute_optimal_episode_reward np_exp sigmoid_env possible_actions reward_shape c).
Proof.
  intros Hs Hm Ha Hn Hsig Hsl Hsh Hsl' Hsh' Hshape.
  unfold compute_optimal_episode_reward.
  rewrite Hs, Hm, Ha, Hn, Hsig, Hsl, Hsh. cbn [bind].
  apply (for_range_rel Qeq); [reflexivity|].
  intros t x1 x2 _ Hx. cbn [for_range]. rewrite Hsl', Hsh'. cbn [bind].
  destruct (find_nearest possible_actions _) as [b|]; [|exact I].
  cbn [bind]. unfold sigmoid_step_reward. rewrite Hshape.
  cbn [bind opt_rel]. unfold linear_reward. rewrite Hx. ring.
Qed.

Lemma optimal_reward_single_action_is_single_target_witness :
  opt_Qeq
    (compute_optimal_episode_reward (fun _ => 1)
       (mkEnv SigmoidEnv 2 1 [1] [0] (fun _ _ _ => 1 # 4) (fun _ => 0))
       [0; 1] None None)
    (compute_optimal_episode_reward (fun _ => 1)
       (mkEnv DiffImportanceFineTuneSigmoidEnv 2 3 [1; 5] [0; 2]
              (fun _ _ _ => 1 # 4) (fun _ => 0))
       [0; 1] None None).
Proof.
  apply (optimal_reward_single_action_is_single_target (fun _ => 1)
           (mkEnv DiffImportanceFineTuneSigmoidEnv 2 3 [1; 5] [0; 2]
                  (fun _ _ _ => 1 # 4) (fun _ => 0))
           (mkEnv SigmoidEnv 2 1 [1] [0] (fun _ _ _ => 1 # 4) (fun _ => 0))
           [0; 1] None None 1 0); reflexivity.
Defined.

(** ** Action grids: shape and size *)

Lemma mapM_Some_map {A B : Type} (f : A -> option B) (g : A -> B) (l : list A) :
  (forall x, In x l -> f x = Some (g x)) -> mapM f l = Some (map g l).
Proof.
  induction l as [|x t IH]; intro H; [reflexivity|].
  simpl. rewrite (H x (or_introl eq_refl)). cbn [bind].
  rewrite IH by (intros y Hy; apply H; right; exact Hy). reflexivity.
Qed.

Lemma mapM_length {A B : Type} (f : A -> option B) (l : list A) :
  forall ys, mapM f l = Some ys -> length ys = length l.
Proof.
  induction l as [|x t IH]; intros ys H; simpl in H.
  - injection H as <-. reflexivity.
  - destruct (f x); [|discriminate]. cbn [bind] in H.
    destruct (mapM f t) as [zs|]; [|discriminate]. cbn [bind] in H.
    injection H as <-. simpl. f_equal. apply IH. reflexivity.
Qed.

Lemma mapM_Forall {A B : Type} (f : A -> option B) (P : B -> Prop) (l : list A) :
  (forall x y, In x l -> f x = Some y -> P y) ->
  forall ys, mapM f l = Some ys -> Forall P ys.
Proof.
  induction l as [|x t IH]; intros H ys E; simpl in E.
  - injection E as <-. constructor.
  - destruct (f x) as [y|] eqn:Ef; [|discriminate]. cbn [bind] in E.
    destruct (mapM f t) as [zs|]; [|discriminate]. cbn [bind] in E.
    injection E as <-. constructor.
    + apply (H x y); [left; reflexivity | exact Ef].
    + apply IH; [|reflexivity]. intros x' y' Hx'. apply H. right. exact Hx'.
Qed.

Lemma length_range (n : Z) : length (range n) = Z.to_nat n.
Proof. unfold range. rewrite length_map, length_seq. reflexivity. Qed.

Lemma nth_range (n : Z) (k : nat) :
  (k < Z.to_nat n)%nat -> nth k (range n) 0%Z = Z.of_nat k.
Proof.
  intro H. unfold range.
  rewrite (nth_indep _ 0%Z (Z.of_nat 0)) by (rewrite length_map, length_seq; exact H).
  rewrite map_nth, seq_nth by exact H. reflexivity.
Qed.

Lemma strictly_increasing_adjacent (l : list Q) :
  (forall i, (S i < length l)%nat -> nth i l 0 < nth (S i) l 0) ->
  strictly_increasing l = true.
Proof.
  induction l as [|x [|y t] IH]; intro H; try reflexivity.
  apply strictly_increasing_cons. split.
  - apply (H 0%nat). simpl. lia.
  - apply IH. intros i Hi. apply (H (S i)). simpl in *. lia.
Qed.

(** The uniform grid, in closed form. *)
Lemma uniform_actions_closed_form (n_acts : Z) :
  n_acts <> 1%Z ->
  uniform_actions n_acts
  = Some (map (fun i => 1 / inject_Z (n_acts - 1) * inject_Z i) (range n_acts)).
Proof.
  intro N. unfold uniform_actions. apply mapM_Some_map. intros i _.
  destruct (py_div 1 (inject_Z (n_acts - 1))) as [q|] eqn:E.
  - unfold py_div in E. destruct (Qeq_bool _ 0); [discriminate|].
    injection E as <-. reflexivity.
  - apply py_div_None in E. contradiction.
Qed.

Lemma inject_Z_pos (z : Z) : (0 < z)%Z -> 0 < inject_Z z.
Proof. intro H. unfold Qlt, inject_Z. simpl. lia. Qed.

(** The uniform grid for [n_acts >= 2]: its length, values, ends, range and
    order. *)
Lemma uniform_actions_shape (n_acts : Z) :
  (2 <= n_acts)%Z ->
  exists grid,
    uniform_actions n_acts = Some grid /\
    length grid = Z.to_nat n_acts /\
    (forall k, (k < Z.to_nat n_acts)%nat ->
               nth k grid 0 == inject_Z (Z.of_nat k) / inject_Z (n_acts - 1)) /\
    nth 0 grid 0 == 0 /\
    nth (Z.to_nat n_acts - 1) grid 0 == 1 /\
    (forall x, In x grid -> 0 <= x /\ x <= 1) /\
    strictly_increasing grid = true.
Proof.
  intro Hn. eexists. split; [apply uniform_actions_closed_form; lia|].
  set (f := fun i => 1 / inject_Z (n_acts - 1) * inject_Z i).
  assert (Hpos : 0 < inject_Z (n_acts - 1)) by (apply inject_Z_pos; lia).
  assert (Hlen : length (map f (range n_acts)) = Z.to_nat n_acts)
    by (rewrite length_map; apply length_range).
  assert (Hnth : forall k, (k < Z.to_nat n_acts)%nat ->
                   nth k (map f (range n_acts)) 0
                   == inject_Z (Z.of_nat k) / inject_Z (n_acts - 1)).
  { intros k Hk.
    rewrite (nth_indep _ 0 (f 0%Z)) by (rewrite Hlen; exact Hk).
    rewrite map_nth, nth_range by exact Hk. unfold f. field. lra. }
  split; [exact Hlen|]. split; [exact Hnth|].
  split; [rewrite Hnth by lia; simpl; field; lra|].
  split.
  { rewrite Hnth by lia.
    replace (Z.of_nat (Z.to_nat n_acts - 1)) with (n_acts - 1)%Z by lia.
    field. lra. }
  split.
  - intros x Hx. destruct (In_nth_Q _ x Hx) as (k & Hk & <-).
    rewrite Hlen in Hk. rewrite (Hnth k Hk).
    assert (Hk1 : 0 <= inject_Z (Z.of_nat k)).
    { unfold Qle, inject_Z. simpl. lia. }
    assert (Hk2 : inject_Z (Z.of_nat k) <= inject_Z (n_acts - 1)).
    { unfold Qle, inject_Z. simpl. lia. }
    split.
    + apply Qle_shift_div_l; [exact Hpos | lra].
    + apply Qle_shift_div_r; [exact Hpos | lra].
  - apply strictly_increasing_adjacent. intros i Hi. rewrite Hlen in Hi.
    rewrite (Hnth i) by lia. rewrite (Hnth (S i)) by lia.
    rewrite inject_Z_of_nat_succ. unfold Qdiv.
    apply Qmult_lt_compat_r; [apply Qinv_lt_0_compat; exact Hpos | lra].
Qed.

Lemma keep_changes_of_strict (l : list Q) :
  forall x, strictly_increasing (x :: l) = true -> keep_changes x l = l.
Proof.
  induction l as [|y t IH]; intros x H; [reflexivity|].
  apply strictly_increasing_cons in H. destruct H as [Hxy Ht].
  cbn [keep_changes].
  destruct (Qeq_bool y x) eqn:E; [apply Qeq_bool_iff in E; lra|].
  f_equal. apply IH. exact Ht.
Qed.

(** Sorting and deduplicating a strictly increasing array changes nothing. *)
Lemma np_unique_of_strict (l : list Q) :
  strictly_increasing l = true -> np_unique l = l.
Proof.
  intro H. unfold np_unique.
  rewrite (np_sort_of_sorted l (strictly_increasing_sorted l H)).
  destruct l as [|x t]; [reflexivity|].
  rewrite (keep_changes_of_strict t x H). reflexivity.
Qed.

Lemma strictly_increasing_Qlist_eq (l1 l2 : list Q) :
  Qlist_eq l1 l2 -> strictly_increasing l2 = true -> strictly_increasing l1 = true.
Proof.
  induction 1 as [|x y t1 t2 Hxy Ht IH]; intro H; [reflexivity|].
  destruct Ht as [|x' y' t1' t2' Hxy' Ht'].
  - reflexivity.
  - apply strictly_increasing_cons in H. destruct H as [Hlt Hrest].
    apply strictly_increasing_cons. split; [lra|]. apply IH. exact Hrest.
Qed.

Lemma product_singleton {A : Type} (pool : list A) :
  product [pool] = map (fun x => [x]) pool.
Proof.
  cbn [product]. induction pool as [|x t IH]; [reflexivity|].
  cbn [flat_map map app]. now f_equal.
Qed.

Lemma product_sums_single_row (row : list Q) :
  Qlist_eq (product_sums [row]) row.
Proof.
  unfold product_sums. cbn [map]. rewrite product_singleton, map_map.
  cbn [enumerate length seq combine map fst snd nth py_sum fold_left].
  unfold Qlist_eq.
  assert (H : forall (l : list Q) (k : nat),
             Forall2 Qeq (map (fun j => 0 + nth (j - k) l 0) (seq k (length l))) l).
  { induction l as [|x t IH]; intro k; [constructor|].
    cbn [length seq map]. constructor.
    - rewrite Nat.sub_diag. simpl. lra.
    - replace (map (fun j => 0 + nth (j - k) (x :: t) 0) (seq (S k) (length t)))
        with (map (fun j => 0 + nth (j - S k) t 0) (seq (S k) (length t))).
      + apply IH.
      + apply map_ext_in. intros j Hj. apply in_seq in Hj.
        replace (j - k)%nat with (S (j - S k)) by lia. reflexivity. }
  specialize (H row 0%nat).
  erewrite map_ext in H; [exact H|].
  intro j. rewrite Nat.sub_0_r. reflexivity.
Qed.

Lemma range_from_1_nil (max_dim : Z) : (max_dim <= 1)%Z -> range_from_1 max_dim = [].
Proof.
  intro H. unfold range_from_1.
  replace (Z.to_nat max_dim - 1)%nat with 0%nat by lia. reflexivity.
Qed.

(** X17.  With a single dimension ([max_dim <= 1]) and [n_acts >= 2] the
    combinatorial grid is the uniformly spaced grid, value by value, whatever
    the importance base. *)
Theorem get_actions_single_dimension (max_dim : Z) (importance_base : Q) (n_acts : Z) :
  (max_dim <= 1)%Z -> (2 <= n_acts)%Z ->
  exists grid uniform,
    get_actions_importance_sigmoid max_dim importance_base n_acts = Some grid /\
    uniform_actions n_acts = Some uniform /\
    Qlist_eq grid uniform.
Proof.
  intros Hd Hn.
  destruct (uniform_actions_shape n_acts Hn) as (uniform & Hu & _ & _ & _ & _ & _ & Hs).
  unfold get_actions_importance_sigmoid, possible_actions_per_dim.
  rewrite Hu, (range_from_1_nil max_dim Hd). cbn [mapM bind].
  pose proof (product_sums_single_row uniform) as Heq.
  pose proof (strictly_increasing_Qlist_eq _ _ Heq Hs) as Hs'.
  rewrite (np_unique_of_strict _ Hs').
  rewrite (np_sort_of_sorted _ (strictly_increasing_sorted _ Hs')).
  eexists. exists uniform. split; [reflexivity|]. split; [reflexivity | exact Heq].
Qed.

Lemma get_actions_single_dimension_witness :
  exists grid uniform,
    get_actions_importance_sigmoid 1 (1 # 2) 3 = Some grid /\
    uniform_actions 3 = Some uniform /\
    Qlist_eq grid uniform.
Proof.
  apply (get_actions_single_dimension 1 (1 # 2) 3); lia.
Defined.

Lemma length_product {A : Type} (pools : list (list A)) :
  length (product pools) = fold_right (fun pool n => (length pool * n)%nat) 1%nat pools.
Proof.
  induction pools as [|pool rest IH]; [reflexivity|].
  cbn [product fold_right]. rewrite <- IH.
  induction pool as [|x t IHt]; [reflexivity|].
  cbn [flat_map length]. rewrite length_app, length_map, IHt. reflexivity.
Qed.

Lemma fold_right_mul_const (rows : list (list Q)) (n : nat) :
  Forall (fun row => length row = n) rows ->
  fold_right (fun pool m => (length pool * m)%nat) 1%nat
    (map (fun vec : list Q => seq 0 (length vec)) rows)
  = (n ^ length rows)%nat.
Proof.
  induction 1 as [|row rows Hrow _ IH]; [reflexivity|].
  cbn [map fold_right length]. rewrite IH, length_seq, Hrow. reflexivity.
Qed.

Lemma length_keep_changes (l : list Q) :
  forall p, (length (keep_changes p l) <= length l)%nat.
Proof.
  induction l as [|x t IH]; intro p; [simpl; lia|].
  cbn [keep_changes]. destruct (Qeq_bool x p); simpl; specialize (IH x); lia.
Qed.

Lemma length_np_sort (l : list Q) : length (np_sort l) = length l.
Proof. symmetry. apply Permutation_length, np_sort_perm. Qed.

Lemma length_np_unique (l : list Q) : (length (np_unique l) <= length l)%nat.
Proof.
  unfold np_unique. rewrite <- (length_np_sort l).
  destruct (np_sort l) as [|x t]; [simpl; lia|].
  simpl. pose proof (length_keep_changes t x). lia.
Qed.

(** X18.  The returned grid never has more values than there are elements in
    the Cartesian product: [n_acts] to the power of the number of dimensions
    (one dimension when [max_dim <= 1]). *)
Theorem get_actions_size_bound (max_dim : Z) (importance_base : Q) (n_acts : Z)
  (grid : list Q) :
  get_actions_importance_sigmoid max_dim importance_base n_acts = Some grid ->
  (length grid <= Z.to_nat n_acts ^ S (Z.to_nat max_dim - 1))%nat.
Proof.
  unfold get_actions_importance_sigmoid, possible_actions_per_dim. intro H.
  destruct (uniform_actions n_acts) as [row0|] eqn:E0; [|discriminate].
  cbn [bind] in H.
  destruct (mapM (centered_actions importance_base n_acts) (range_from_1 max_dim))
    as [rows|] eqn:Er; [|discriminate].
  cbn [bind] in H. injection H as <-.
  rewrite length_np_sort.
  eapply Nat.le_trans; [apply length_np_unique|].
  unfold product_sums. rewrite length_map, length_product.
  rewrite (fold_right_mul_const (row0 :: rows) (Z.to_nat n_acts)).
  - cbn [length]. rewrite (mapM_length _ _ _ Er).
    unfold range_from_1. rewrite length_map, length_seq. lia.
  - constructor.
    + rewrite (mapM_length _ _ _ E0). apply length_range.
    + apply (mapM_Forall (centered_actions importance_base n_acts) _ _
                (fun i row _ Hrow => eq_trans (mapM_length _ _ _ Hrow) (length_range n_acts))
                rows Er).
Qed.

Lemma get_actions_size_bound_witness :
  match get_actions_importance_sigmoid 2 (1 # 2) 3 with
  | Some grid => (length grid <= Z.to_nat 3 ^ S (Z.to_nat 2 - 1))%nat
  | None => False
  end.
Proof.
  destruct (get_actions_importance_sigmoid 2 (1 # 2) 3) as [grid|] eqn:E.
  - apply (get_actions_size_bound 2 (1 # 2) 3 grid E).
  - discriminate E.
Defined.

(** ** Configuration-table filtering: the other selectors *)

Lemma get_run_configs_filter (df : list ConfigRow) (dim : Z) (benchmark : string)
  (config_id : ConfigId) (reverse_agents : bool) (importance_base : Q)
  (reward_shape : string) (exp_reward : Q) (n_act : option Z) :
  get_run_configs df dim benchmark config_id reverse_agents importance_base
    reward_shape exp_reward n_act
  = filter (keeps_row dim benchmark config_id reverse_agents importance_base
              reward_shape exp_reward n_act) df.
Proof.
  unfold get_run_configs, keeps_row.
  destruct (config_id_is_best config_id);
    destruct (String.eqb benchmark "candid_sigmoid" || String.eqb benchmark "piecewise_linear");
    try destruct (String.eqb reward_shape "exp");
    rewrite !filter_filter; apply filter_ext; intro r;
    rewrite ?andb_true_r, <- ?andb_assoc; reflexivity.
Qed.

Lemma n_act_eq_iff (cell : Z) (n_act : option Z) :
  n_act_eq cell n_act = true <-> n_act = Some cell.
Proof.
  destruct n_act as [n|]; simpl; [|split; discriminate].
  rewrite Z.eqb_eq. split; [intros ->; reflexivity | intros [= ->]; reflexivity].
Qed.





(** X22.  Filtering is idempotent: applying the same selectors to a result
    returns it unchanged. *)
Theorem get_run_configs_idempotent (df : list ConfigRow) (dim : Z)
  (benchmark : string) (config_id : ConfigId) (reverse_agents : bool)
  (importance_base : Q) (reward_shape : string) (exp_reward : Q) (n_act : option Z) :
  get_run_configs
    (get_run_configs df dim benchmark config_id reverse_agents importance_base
       reward_shape exp_reward n_act)
    dim benchmark config_id reverse_agents importance_base reward_shape exp_reward n_act
  = get_run_configs df dim benchmark config_id reverse_agents importance_base
      reward_shape exp_reward n_act.
Proof.
  rewrite !get_run_configs_filter, filter_filter.
  apply filter_ext. intro r. apply andb_diag.
Qed.

(** X23.  Selectors that do not apply are ignored: for a benchmark other than
    'candid_sigmoid' and 'piecewise_linear' the result does not depend on the
    importance base, the reward shape or the exponential-reward constant; for
    those two benchmarks with a reward shape other than 'exp' it does not
    depend on the exponential-reward constant. *)
Theorem get_run_configs_ignored_selectors (df : list ConfigRow) (dim : Z)
  (benchmark : string) (config_id : ConfigId) (reverse_agents : bool)
  (importance_base importance_base' : Q) (reward_shape reward_shape' : string)
  (exp_reward exp_reward' : Q) (n_act : option Z) :
  (benchmark <> "candid_sigmoid"%string -> benchmark <> "piecewise_linear"%string ->
   get_run_configs df dim benchmark config_id reverse_agents importance_base
     reward_shape exp_reward n_act
   = get_run_configs df dim benchmark config_id reverse_agents importance_base'
       reward_shape' exp_reward' n_act) /\
  (reward_shape <> "exp"%string ->
   get_run_configs df dim benchmark config_id reverse_agents importance_base
     reward_shape exp_reward n_act
   = get_run_configs df dim benchmark config_id reverse_agents importance_base
       reward_shape exp_reward' n_act).
Proof.
  split.
  - intros H1 H2. unfold get_run_configs.
    destruct (String.eqb_spec benchmark "candid_sigmoid"); [contradiction|].
    destruct (String.eqb_spec benchmark "piecewise_linear"); [contradiction|].
    reflexivity.
  - intro H. unfold get_run_configs.
    destruct (String.eqb_spec reward_shape "exp"); [contradiction|].
    reflexivity.
Qed.

Lemma get_run_configs_ignored_selectors_witness :
  get_run_configs [mkConfigRow "best_1" 2 "sigmoid" false 3 (1 # 2) "exp" 1]
    2 "sigmoid" (ConfigName "best") false (1 # 2) "exp" 1 (Some 3%Z)
  = get_run_configs [mkConfigRow "best_1" 2 "sigmoid" false 3 (1 # 2) "exp" 1]
      2 "sigmoid" (ConfigName "best") false (1 # 3) "linear" 7 (Some 3%Z) /\
  get_run_configs [mkConfigRow "best_1" 2 "candid_sigmoid" false 3 (1 # 2) "linear" 1]
    2 "candid_sigmoid" (ConfigName "best") false (1 # 2) "linear" 1 (Some 3%Z)
  = get_run_configs [mkConfigRow "best_1" 2 "candid_sigmoid" false 3 (1 # 2) "linear" 1]
      2 "candid_sigmoid" (ConfigName "best") false (1 # 2) "linear" 9 (Some 3%Z).
Proof.
  split.
  - apply (proj1 (get_run_configs_ignored_selectors
             [mkConfigRow "best_1" 2 "sigmoid" false 3 (1 # 2) "exp" 1]
             2 "sigmoid" (ConfigName "best") false (1 # 2) (1 # 3) "exp" "linear"
             1 7 (Some 3%Z))); discriminate.
  - apply (proj2 (get_run_configs_ignored_selectors
             [mkConfigRow "best_1" 2 "candid_sigmoid" false 3 (1 # 2) "linear" 1]
             2 "candid_sigmoid" (ConfigName "best") false (1 # 2) (1 # 2)
             "linear" "linear" 1 9 (Some 3%Z))); discriminate.
Defined.

(** ** Checkpoint names *)

Lemma py_str_inj (x y : Z) : py_str x = py_str y -> x = y.
Proof.
  unfold py_str. intro H.
  assert (Hnorm : forall z, Z.to_int z <> Decimal.Pos Decimal.Nil /\
                            Z.to_int z <> Decimal.Neg Decimal.Nil).
  { intro z. destruct z as [|p|p]; simpl; split; try discriminate;
      intros [= E]; exact (DecimalPos.Unsigned.to_uint_nonnil p E). }
  apply DecimalZ.to_int_inj.
  assert (E : Some (Z.to_int x) = Some (Z.to_int y)); [|congruence].
  rewrite <- (DecimalString.NilZero.isi (Z.to_int x)) by apply Hnorm.
  rewrite <- (DecimalString.NilZero.isi (Z.to_int y)) by apply Hnorm.
  rewrite H. reflexivity.
Qed.

Lemma append_inj_l (p a b : string) : (p ++ a = p ++ b)%string -> a = b.
Proof.
  induction p as [|c p IH]; simpl; intro H; [exact H|].
  apply IH. congruence.
Qed.

Lemma length_append (a b : string) :
  String.length (a ++ b) = (String.length a + String.length b)%nat.
Proof. induction a as [|c a IH]; simpl; [reflexivity | rewrite IH; reflexivity]. Qed.

Lemma append_inj_r (a b s : string) : (a ++ s = b ++ s)%string -> a = b.
Proof.
  revert b. induction a as [|c a IH]; intros [|d b] H.
  - reflexivity.
  - apply (f_equal String.length) in H. simpl in H. rewrite length_append in H. lia.
  - apply (f_equal String.length) in H. simpl in H. rewrite length_append in H. lia.
  - simpl in H. injection H as -> H. f_equal. apply IH. exact H.
Qed.

Lemma NoDup_map_inj {A B : Type} (f : A -> B) (l : list A) :
  (forall x y, f x = f y -> x = y) -> NoDup l -> NoDup (map f l).
Proof.
  intros Hinj. induction 1 as [|x l Hx _ IH]; simpl; constructor; [|exact IH].
  intro Hin. apply in_map_iff in Hin. destruct Hin as (y & Hy & Hyl).
  apply Hinj in Hy. subst y. contradiction.
Qed.

Lemma NoDup_range (n : Z) : NoDup (range n).
Proof.
  unfold range. apply NoDup_map_inj; [intros x y H; lia | apply seq_NoDup].
Qed.

(** X24.  A factorized policy loaded from a checkpoint directory gets one
    checkpoint path per dimension ([dim] paths, none for [dim <= 0]), the
    [i]-th being "{dir}/{episode}_q_network_{i}.pth" with the episode label
    'final' when [final] is set; the paths are pairwise distinct. *)
Theorem load_policy_checkpoint_paths (config : PolicyConfig) (env : EnvSpaces)
  (dir : string) (episode : Z) (final : bool) (obs_dim n_dims n_acts : Z)
  (paths : option (list string)) (autorecursive : bool) :
  load_policy_from_checkpoint config env (Some dir) episode final
  = Some (FactorizedPolicySpec obs_dim n_dims n_acts paths autorecursive) ->
  exists l,
    paths = Some l /\
    length l = Z.to_nat (cfg_dim config) /\
    (forall i, (i < Z.to_nat (cfg_dim config))%nat ->
               nth i l ""%string
               = (dir ++ "/" ++ episode_label episode final ++ "_q_network_"
                  ++ py_str (Z.of_nat i) ++ ".pth")%string) /\
    NoDup l.
Proof.
  unfold load_policy_from_checkpoint. intro H.
  destruct (cfg_fdqn config).
  - destruct (nth_error (observation_shape env) 0); [|discriminate].
    destruct (nth_error (action_nvec env) 0); [|discriminate].
    cbn [bind] in H. injection H as _ _ _ <- _.
    eexists. split; [reflexivity|].
    split; [rewrite length_map; apply length_range|].
    split.
    + intros i Hi.
      set (f := fun i0 : Z => _).
      rewrite (nth_indep _ ""%string (f 0%Z))
        by (rewrite length_map, length_range; exact Hi).
      rewrite map_nth, nth_range by exact Hi. reflexivity.
    + apply NoDup_map_inj; [|apply NoDup_range].
      intros x y E.
      apply append_inj_l in E. injection E as E. apply append_inj_l in E.
      repeat (injection E as E). apply append_inj_r in E.
      apply py_str_inj. exact E.
  - destruct (nth_error (observation_shape env) 0); discriminate.
Qed.

Lemma load_policy_checkpoint_paths_witness :
  exists l,
    Some ["ckpts/final_q_network_0.pth"%string; "ckpts/final_q_network_1.pth"%string]
    = Some l /\
    length l = Z.to_nat 2 /\
    (forall i, (i < Z.to_nat 2)%nat ->
               nth i l ""%string
               = ("ckpts" ++ "/" ++ episode_label 1000 true ++ "_q_network_"
                  ++ py_str (Z.of_nat i) ++ ".pth")%string) /\
    NoDup l.
Proof.
  apply (load_policy_checkpoint_paths (mkPolicyConfig true 2 false "exp_fdqn")
           (mkEnvSpaces [4%Z] [3%Z; 3%Z]) "ckpts" 1000 true 4 2 3
           (Some ["ckpts/final_q_network_0.pth"%string;
                  "ckpts/final_q_network_1.pth"%string]) false).
  reflexivity.
Defined.

(** X25.  What the download script fetches is what a factorized policy loads
    with [final] set: for the two benchmarks the script knows, the paths
    requested under a directory are that directory joined with the downloaded
    names, in the same order. *)
Theorem download_matches_factorized_load (config : PolicyConfig) (env : EnvSpaces)
  (benchmark dir : string) (episode : Z) (obs_dim n_dims n_acts : Z)
  (paths : list string) (autorecursive : bool) :
  benchmark = "candid_sigmoid"%string \/ benchmark = "piecewise_linear"%string ->
  load_policy_from_checkpoint config env (Some dir) episode true
  = Some (FactorizedPolicySpec obs_dim n_dims n_acts (Some paths) autorecursive) ->
  paths = map (fun name => (dir ++ "/" ++ name)%string)
              (download_final_ckpt benchmark (cfg_dim config)).
Proof.
  intros Hb H. unfold load_policy_from_checkpoint in H.
  destruct (cfg_fdqn config).
  - destruct (nth_error (observation_shape env) 0); [|discriminate].
    destruct (nth_error (action_nvec env) 0); [|discriminate].
    cbn [bind] in H. injection H as _ _ _ <- _.
    unfold download_final_ckpt.
    replace (String.eqb benchmark "candid_sigmoid" || String.eqb benchmark "piecewise_linear")
      with true by (destruct Hb as [-> | ->]; reflexivity).
    rewrite map_map. reflexivity.
  - destruct (nth_error (observation_shape env) 0); discriminate.
Qed.

Lemma download_matches_factorized_load_witness :
  ["ckpts/final_q_network_0.pth"%string; "ckpts/final_q_network_1.pth"%string]
  = map (fun name => ("ckpts" ++ "/" ++ name)%string)
        (download_final_ckpt "piecewise_linear" 2).
Proof.
  apply (download_matches_factorized_load (mkPolicyConfig true 2 false "exp_fdqn")
           (mkEnvSpaces [4%Z] [3%Z; 3%Z]) "piecewise_linear" "ckpts" 7 4 2 3
           ["ckpts/final_q_network_0.pth"%string; "ckpts/final_q_network_1.pth"%string]
           false).
  - right. reflexivity.
  - reflexivity.
Defined.

(** X26.  The download script never fetches a target-network checkpoint, and
    fetches nothing at all for a benchmark other than 'candid_sigmoid' and
    'piecewise_linear'; a non-factorized policy loaded with [final] set asks
    for "final_target_network_0.pth", which is therefore never among the
    downloaded files. *)
Theorem download_has_no_target_network (config : PolicyConfig) (env : EnvSpaces)
  (benchmark dir : string) (episode dim : Z) :
  (benchmark <> "candid_sigmoid"%string -> benchmark <> "piecewise_linear"%string ->
   download_final_ckpt benchmark dim = []) /\
  ~ In "final_target_network_0.pth"%string (download_final_ckpt benchmark dim) /\
  (cfg_fdqn config = false -> observation_shape env <> [] ->
   exists obs_dim n_outputs q_ckpt,
     load_policy_from_checkpoint config env (Some dir) episode true
     = Some (AtomicPolicySpec obs_dim n_outputs q_ckpt
               (Some (dir ++ "/" ++ "final_target_network_0.pth")%string))).
Proof.
  split; [|split].
  - intros H1 H2. unfold download_final_ckpt.
    destruct (String.eqb_spec benchmark "candid_sigmoid"); [contradiction|].
    destruct (String.eqb_spec benchmark "piecewise_linear"); [contradiction|].
    reflexivity.
  - unfold download_final_ckpt.
    destruct (_ || _); [|intros []].
    intro H. apply in_map_iff in H. destruct H as (i & H & _). discriminate H.
  - intros Hf Hobs. unfold load_policy_from_checkpoint. rewrite Hf.
    destruct (observation_shape env) as [|o rest]; [congruence|].
    cbn [nth_error bind]. eexists _, _, _. reflexivity.
Qed.

Lemma download_has_no_target_network_witness :
  download_final_ckpt "sigmoid" 3 = [] /\
  exists obs_dim n_outputs q_ckpt,
    load_policy_from_checkpoint (mkPolicyConfig false 2 false "exp_ddqn")
      (mkEnvSpaces [4%Z] [3%Z; 3%Z]) (Some "ckpts"%string) 7 true
    = Some (AtomicPolicySpec obs_dim n_outputs q_ckpt
              (Some ("ckpts" ++ "/" ++ "final_target_network_0.pth")%string)).
Proof.
  split.
  - apply (proj1 (download_has_no_target_network
                    (mkPolicyConfig false 2 false "exp_ddqn")
                    (mkEnvSpaces [4%Z] [3%Z; 3%Z]) "sigmoid" "ckpts" 7 3));
      discriminate.
  - apply (proj2 (proj2 (download_has_no_target_network
                    (mkPolicyConfig false 2 false "exp_ddqn")
                    (mkEnvSpaces [4%Z] [3%Z; 3%Z]) "sigmoid" "ckpts" 7 3)));
      [reflexivity | discriminate].
Defined.

(** ** Unflattening a joint action *)

Lemma fold_left_mul_acc (l : list Z) :
  forall a, fold_left Z.mul l a = (a * fold_left Z.mul l 1)%Z.
Proof.
  induction l as [|x t IH]; intro a; cbn [fold_left]; [lia|].
  rewrite (IH (a * x)%Z), (IH (1 * x)%Z). lia.
Qed.

Lemma np_prod_cons (n : Z) (l : list Z) : np_prod (n :: l) = (n * np_prod l)%Z.
Proof. unfold np_prod. cbn [fold_left]. rewrite fold_left_mul_acc. lia. Qed.

Lemma np_prod_pos (l : list Z) : Forall (fun n => (0 < n)%Z) l -> (0 < np_prod l)%Z.
Proof.
  induction 1 as [|n l Hn _ IH]; [reflexivity|].
  rewrite np_prod_cons. lia.
Qed.

(** The digits computed from the last dimension to the first. *)
Lemma unravel_fold (index : Z) (shape : list Z) :
  Forall (fun n => (0 < n)%Z) shape -> (0 <= index)%Z ->
  let st := fold_right
              (fun dim (st : Z * list Z) =>
                 ((fst st / dim)%Z, (fst st mod dim)%Z :: snd st))
              (index, []) shape in
  fst st = (index / np_prod shape)%Z /\
  Forall2 (fun i n => (0 <= i < n)%Z) (snd st) shape /\
  ravel_multi_index (snd st) shape = (index mod np_prod shape)%Z.
Proof.
  intros Hshape Hidx. induction Hshape as [|n rest Hn Hrest IH].
  - simpl. split; [symmetry; apply Z.div_1_r|].
    split; [constructor | symmetry; apply Z.mod_1_r].
  - cbn [fold_right]. cbv zeta in IH. destruct IH as (Hq & Hdigits & Hravel).
    set (st := fold_right _ _ rest) in *.
    cbn [fst snd ravel_multi_index]. rewrite np_prod_cons.
    pose proof (np_prod_pos rest Hrest) as Hpos.
    split; [|split].
    + rewrite Hq, Z.div_div by lia. f_equal. lia.
    + constructor; [apply Z.mod_pos_bound; exact Hn | exact Hdigits].
    + rewrite Hravel, Hq.
      rewrite (Z.mul_comm n (np_prod rest)).
      rewrite (Z.rem_mul_r index (np_prod rest) n) by lia. lia.
Qed.

(** X27.  A non-factorized policy's output [a] with [0 <= a < prod(nvec)] (the
    number of outputs [load_policy_from_checkpoint] gives such a policy) is
    turned into an action tuple with one component per dimension, each within
    its dimension's cardinality, whose position in the joint space is [a]; so
    distinct outputs give distinct tuples.  An output outside that range
    raises. *)
Theorem select_action_unflattens {Obs : Type} (forward : Obs -> Z) (nvec : list Z)
  (obs : Obs) :
  Forall (fun n => (0 < n)%Z) nvec ->
  ((0 <= forward obs < np_prod nvec)%Z ->
   exists action,
     select_action (AtomicPolicy forward) nvec obs = Some action /\
     Forall2 (fun i n => (0 <= i < n)%Z) action nvec /\
     ravel_multi_index action nvec = forward obs) /\
  (~ (0 <= forward obs < np_prod nvec)%Z ->
   select_action (AtomicPolicy forward) nvec obs = None).
Proof.
  intro Hshape. cbn [select_action]. unfold unravel_index. split.
  - intros [H0 H1].
    replace ((0 <=? forward obs)%Z && (forward obs <? np_prod nvec)%Z) with true
      by (symmetry; apply andb_true_intro; split; [apply Z.leb_le | apply Z.ltb_lt]; lia).
    destruct (unravel_fold (forward obs) nvec Hshape H0) as (_ & Hdigits & Hravel).
    eexists. split; [reflexivity|]. split; [exact Hdigits|].
    rewrite Hravel. apply Z.mod_small. lia.
  - intro H.
    destruct (Z.leb_spec 0 (forward obs)); [|reflexivity].
    destruct (Z.ltb_spec (forward obs) (np_prod nvec)); [lia | reflexivity].
Qed.

Lemma select_action_unflattens_witness :
  exists action,
    select_action (AtomicPolicy (fun obs : Z => (obs + 1)%Z)) [2; 3; 4]%Z 6%Z
    = Some action /\
    Forall2 (fun i n => (0 <= i < n)%Z) action [2; 3; 4]%Z /\
    ravel_multi_index action [2; 3; 4]%Z = (6 + 1)%Z.
Proof.
  apply (proj1 (select_action_unflattens (fun obs : Z => (obs + 1)%Z) [2; 3; 4]%Z 6%Z
                  ltac:(repeat constructor))).
  simpl. unfold np_prod. simpl. lia.
Defined.

(** ** Policy evaluation over all instances *)

Lemma array_set_length {A : Type} (i : nat) (x : A) (l : list A) :
  length (array_set i x l) = length l.
Proof.
  revert i. induction l as [|y t IH]; intro i; [reflexivity|].
  destruct i; simpl; [reflexivity | rewrite IH; reflexivity].
Qed.

Lemma array_set_nth_same {A : Type} (i : nat) (x d : A) (l : list A) :
  (i < length l)%nat -> nth i (array_set i x l) d = x.
Proof.
  revert i. induction l as [|y t IH]; intros i H; [simpl in H; lia|].
  destruct i; simpl; [reflexivity | apply IH; simpl in H; lia].
Qed.

Lemma array_set_nth_other {A : Type} (i j : nat) (x d : A) (l : list A) :
  i <> j -> nth j (array_set i x l) d = nth j l d.
Proof.
  revert i j. induction l as [|y t IH]; intros i j H; [destruct i; reflexivity|].
  destruct i, j; simpl; try reflexivity; [congruence | apply IH; congruence].
Qed.

(** Every residue is reached within [n] steps of the cycle. *)
Lemma cycle_reaches (n c idx : nat) :
  (idx < n)%nat -> exists j, (1 <= j <= n)%nat /\ ((c + j) mod n = idx)%nat.
Proof.
  intro H.
  pose proof (Nat.div_mod_eq c n) as Hc.
  pose proof (Nat.mod_upper_bound c n ltac:(lia)) as Hr.
  set (q := (c / n)%nat) in *. set (r := (c mod n)%nat) in *.
  destruct (Nat.lt_ge_cases r idx) as [L|G].
  - exists (idx - r)%nat. split; [lia|].
    symmetry. apply (Nat.mod_unique _ _ q); [exact H | lia].
  - exists (n + idx - r)%nat. split; [lia|].
    symmetry. apply (Nat.mod_unique _ _ (S q)); [exact H | lia].
Qed.

Section Evaluation.

Context {St Obs : Type}.
Variable fuel : nat.
Variable policy : Policy Obs.
Variable env : GymEnv St Obs.
Variable n : nat.
Hypothesis Hcycle : cycles_instances env n.
Hypothesis Hend : episodes_end_within fuel policy env.

Lemma run_episode_inst_id (k : nat) :
  forall obs st acc r st',
    run_episode k policy env obs st acc = Returned (r, st') ->
    gym_inst_id env st' = gym_inst_id env st.
Proof.
  induction k as [|k IH]; intros obs st acc r st' H; [discriminate|].
  cbn [run_episode] in H.
  destruct (select_action policy (gym_nvec env st) obs) as [action|]; [|discriminate].
  destruct (gym_step env action st) as [[[[[obs' reward] terminated] truncated] st1]|]
    eqn:E; [|discriminate].
  pose proof (proj2 Hcycle _ _ _ _ _ _ _ E) as Hid.
  destruct (terminated || truncated).
  - injection H as _ <-. exact Hid.
  - rewrite <- Hid. eapply IH. exact H.
Qed.

(** After [k] rounds from an environment at instance [c], the array has kept
    its length and holds a value wherever it held one before and at the
    instances [c + 1, ..., c + k] of the cycle. *)
Lemma eval_rounds_fills (k : nat) :
  (0 < n)%nat ->
  forall st rewards,
    length rewards = n ->
    exists rewards',
      eval_rounds fuel policy env k st rewards = Returned rewards' /\
      length rewards' = n /\
      forall idx,
        (nth idx rewards None <> None \/
         exists j, (1 <= j <= k)%nat /\ ((gym_inst_id env st + j) mod n = idx)%nat) ->
        nth idx rewards' None <> None.
Proof.
  intro Hn. induction k as [|k IH]; intros st rewards Hlen.
  - exists rewards. split; [reflexivity|]. split; [exact Hlen|].
    intros idx [H|(j & Hj & _)]; [exact H | lia].
  - cbn [eval_rounds].
    destruct (proj1 Hcycle st) as (obs & st1 & Hreset & Hid1). rewrite Hreset.
    destruct (Hend st obs st1 Hreset) as (r & st2 & Hrun). rewrite Hrun.
    pose proof (run_episode_inst_id fuel _ _ _ _ _ Hrun) as Hid2.
    assert (Hc : (gym_inst_id env st2 < n)%nat).
    { rewrite Hid2, Hid1. apply Nat.mod_upper_bound. lia. }
    rewrite Hlen. rewrite (proj2 (Nat.ltb_lt _ _) Hc).
    destruct (IH st2 (array_set (gym_inst_id env st2) (Some r) rewards))
      as (rewards' & Hrounds & Hlen' & Hfilled).
    { rewrite array_set_length. exact Hlen. }
    exists rewards'. split; [exact Hrounds|]. split; [exact Hlen'|].
    intros idx Hidx. apply Hfilled.
    destruct (Nat.eq_dec (gym_inst_id env st2) idx) as [E|N].
    + left. rewrite E, array_set_nth_same by lia. discriminate.
    + destruct Hidx as [H|(j & Hj & Hmod)].
      * left. rewrite array_set_nth_other by exact N. exact H.
      * right. destruct (Nat.eq_dec j 1) as [->|Hj1].
        -- exfalso. apply N. rewrite Hid2, Hid1. exact Hmod.
        -- exists (j - 1)%nat. split; [lia|].
           rewrite Hid2, Hid1, Nat.Div0.add_mod_idemp_l, <- Hmod.
           f_equal. lia.
Qed.

End Evaluation.

(** X28.  On an environment that cycles through its instances and whose
    episodes all end within [fuel] steps, the evaluation returns an array with
    one entry per instance and none of them is left at [nan]: every
    instance's episodic reward is recorded, at the index of its identifier,
    whatever instance the environment starts from. *)
Theorem eval_policy_records_every_instance {St Obs : Type} (fuel : nat)
  (policy : Policy Obs) (env : GymEnv St Obs) (st : St) :
  cycles_instances env (gym_n_instances env st) ->
  episodes_end_within fuel policy env ->
  exists rewards,
    eval_policy_on_sigmoid fuel policy env st = Returned rewards /\
    length rewards = gym_n_instances env st /\
    forall idx, (idx < gym_n_instances env st)%nat -> nth idx rewards None <> None.
Proof.
  intros Hcycle Hend. unfold eval_policy_on_sigmoid.
  set (n := gym_n_instances env st) in *.
  destruct (Nat.eq_dec n 0) as [E|N].
  - rewrite E. exists []. split; [reflexivity|]. split; [reflexivity|].
    intros idx H. lia.
  - destruct (eval_rounds_fills fuel policy env n Hcycle Hend n ltac:(lia) st
                (repeat None n) (repeat_length _ _)) as (rewards & H & Hlen & Hfilled).
    exists rewards. split; [exact H|]. split; [exact Hlen|].
    intros idx Hidx. apply Hfilled. right.
    apply cycle_reaches. exact Hidx.
Qed.

Lemma eval_policy_records_every_instance_witness :
  exists rewards,
    eval_policy_on_sigmoid 1 (AtomicPolicy (fun _ : unit => 0%Z))
      (mkGymEnv nat unit (fun _ => 3%nat)
         (fun st => Some (tt, ((st + 1) mod 3)%nat))
         (fun _ st => Some (tt, inject_Z (Z.of_nat st), true, false, st))
         (fun st => st) (fun _ => [2%Z]))
      1%nat
    = Returned rewards /\
    length rewards = 3%nat /\
    forall idx, (idx < 3)%nat -> nth idx rewards None <> None.
Proof.
  apply (eval_policy_records_every_instance 1 (AtomicPolicy (fun _ : unit => 0%Z))
           (mkGymEnv nat unit (fun _ => 3%nat)
              (fun st => Some (tt, ((st + 1) mod 3)%nat))
              (fun _ st => Some (tt, inject_Z (Z.of_nat st), true, false, st))
              (fun st => st) (fun _ => [2%Z]))
           1%nat).
  - split.
    + intro st. exists tt, ((st + 1) mod 3)%nat. split; reflexivity.
    + intros action st obs reward terminated truncated st' H.
      injection H as _ _ _ _ <-. reflexivity.
  - intros st obs st' _. eexists. eexists. reflexivity.
Defined.

(** * Properties of tables with string or numeric identifiers *)

Lemma get_run_configs_df_best (df : list TableRow) (dim : Z) (benchmark : string)
  (reverse_agents : bool) (importance_base : Q) (reward_shape : string)
  (exp_reward : Q) (n_act : option Z) :
  get_run_configs_df df dim benchmark (ConfigName "best") reverse_agents
    importance_base reward_shape exp_reward n_act
  = if string_config_ids df
    then Some (filter (keeps_best_cells dim benchmark reverse_agents importance_base
                         reward_shape exp_reward n_act) df)
    else None.
Proof.
  unfold get_run_configs_df, select_str_contains_best, keeps_best_cells.
  cbn [config_id_is_best]. change (String.eqb "best" "best") with true. cbv iota.
  destruct (string_config_ids df); [|reflexivity].
  cbn [bind].
  destruct (String.eqb benchmark "candid_sigmoid" || String.eqb benchmark "piecewise_linear").
  - destruct (String.eqb reward_shape "exp").
    + rewrite !filter_filter. f_equal. apply filter_ext. intro r.
      rewrite <- !andb_assoc. reflexivity.
    + rewrite !filter_filter. f_equal. apply filter_ext. intro r.
      rewrite andb_true_r, <- !andb_assoc. reflexivity.
  - rewrite !filter_filter. f_equal. apply filter_ext. intro r.
    rewrite andb_true_r. reflexivity.
Qed.

Lemma keeps_best_cells_iff (dim : Z) (benchmark : string) (reverse_agents : bool)
  (importance_base : Q) (reward_shape : string) (exp_reward : Q) (n_act : option Z)
  (r : TableRow) :
  keeps_best_cells dim benchmark reverse_agents importance_base reward_shape exp_reward
    n_act r = true <->
  cell_contains_best (cell_config_id r) = true /\
  matches_remaining_cells r dim benchmark reverse_agents importance_base
    reward_shape exp_reward n_act.
Proof.
  unfold keeps_best_cells, matches_remaining_cells.
  rewrite !andb_true_iff, Z.eqb_eq, String.eqb_eq, Bool.eqb_true_iff, n_act_eq_iff.
  assert (Hb : String.eqb benchmark "candid_sigmoid" || String.eqb benchmark "piecewise_linear"
               = true <->
               benchmark = "candid_sigmoid"%string \/ benchmark = "piecewise_linear"%string).
  { rewrite orb_true_iff, !String.eqb_eq. reflexivity. }
  destruct (String.eqb benchmark "candid_sigmoid" || String.eqb benchmark "piecewise_linear").
  - rewrite !andb_true_iff, Qeq_bool_iff, String.eqb_eq.
    assert (He : (if String.eqb reward_shape "exp"
                  then Qeq_bool (cell_exp_reward r) exp_reward else true) = true <->
                 (reward_shape = "exp"%string -> cell_exp_reward r == exp_reward)).
    { destruct (String.eqb_spec reward_shape "exp") as [E|N].
      - rewrite Qeq_bool_iff. tauto.
      - split; [intros _ E; contradiction | reflexivity]. }
    rewrite He. pose proof (proj1 Hb eq_refl). tauto.
  - assert (~ (benchmark = "candid_sigmoid"%string \/ benchmark = "piecewise_linear"%string)).
    { intro H. apply Hb in H. discriminate. }
    tauto.
Qed.

Lemma cell_contains_best_iff (cell : ConfigId) :
  cell_contains_best cell = true <->
  exists s, cell = ConfigName s /\ py_in "best" s = true.
Proof.
  destruct cell as [s|z]; simpl.
  - split; [intro H; exists s; split; [reflexivity | exact H]|].
    intros (s' & [= <-] & H). exact H.
  - split; [discriminate|]. intros (s' & E & _). discriminate E.
Qed.

Lemma string_config_ids_false (df : list TableRow) :
  string_config_ids df = false <->
  exists r z, In r df /\ cell_config_id r = ConfigNumber z.
Proof.
  unfold string_config_ids. split.
  - intro H. induction df as [|x t IH]; [discriminate H|].
    cbn [forallb] in H. apply andb_false_iff in H. destruct H as [H|H].
    + destruct (cell_config_id x) as [s|z] eqn:E; [discriminate H|].
      exists x, z. split; [left; reflexivity | exact E].
    + destruct (IH H) as (r & z & Hin & E). exists r, z. split; [right; exact Hin | exact E].
  - intros (r & z & Hin & E).
    destruct (forallb (fun r0 => is_string_cell (cell_config_id r0)) df) eqn:F;
      [|reflexivity].
    rewrite forallb_forall in F. specialize (F r Hin). rewrite E in F. discriminate F.
Qed.

(** The typed table of the sections above is the table whose identifiers are
    all strings: on such a table, and for a string [config_id], the call
    returns, and its rows are those the typed function returns. *)

Lemma mapM_filter {A B : Type} (f : A -> option B) (p : A -> bool) (q : B -> bool)
  (l : list A) (l' : list B) :
  (forall x y, f x = Some y -> p x = q y) ->
  mapM f l = Some l' ->
  mapM f (filter p l) = Some (filter q l').
Proof.
  intro Hpq. revert l'. induction l as [|x t IH]; intros l' H.
  - injection H as <-. reflexivity.
  - cbn [mapM] in H. destruct (f x) as [y|] eqn:Fx; [|discriminate H].
    cbn [bind] in H. destruct (mapM f t) as [ys|] eqn:Ft; [|discriminate H].
    cbn [bind] in H. injection H as <-.
    cbn [filter]. rewrite <- (Hpq x y Fx).
    destruct (p x).
    + cbn [mapM]. rewrite Fx. cbn [bind]. rewrite (IH ys eq_refl). reflexivity.
    + apply IH. reflexivity.
Qed.

Lemma as_config_row_strings (df : list TableRow) (rows : list ConfigRow) :
  mapM as_config_row df = Some rows -> string_config_ids df = true.
Proof.
  revert rows. induction df as [|x t IH]; intros rows H; [reflexivity|].
  cbn [mapM] in H. destruct (as_config_row x) as [y|] eqn:Fx; [|discriminate H].
  cbn [bind] in H. destruct (mapM as_config_row t) as [ys|] eqn:Ft; [|discriminate H].
  unfold string_config_ids. cbn [forallb].
  fold (string_config_ids t). rewrite (IH ys eq_refl), andb_true_r.
  unfold as_config_row in Fx. destruct (cell_config_id x); [reflexivity | discriminate Fx].
Qed.

Lemma get_run_configs_df_on_strings (df : list TableRow) (rows : list ConfigRow)
  (dim : Z) (benchmark : string) (config_id : ConfigId) (reverse_agents : bool)
  (importance_base : Q) (reward_shape : string) (exp_reward : Q) (n_act : option Z) :
  mapM as_config_row df = Some rows ->
  exists out,
    get_run_configs_df df dim benchmark config_id reverse_agents importance_base
      reward_shape exp_reward n_act = Some out /\
    mapM as_config_row out
    = Some (get_run_configs rows dim benchmark config_id reverse_agents
              importance_base reward_shape exp_reward n_act).
Proof.
  intro H. pose proof (as_config_row_strings df rows H) as Hs.
  unfold get_run_configs_df, get_run_configs, select_str_contains_best.
  rewrite Hs.
  assert (Hrow : forall x y, as_config_row x = Some y ->
            cell_config_id x = ConfigName (col_config_id y) /\
            cell_dim x = col_dim y /\ cell_benchmark x = col_benchmark y /\
            cell_reverse_agents x = col_reverse_agents y /\
            cell_n_act x = col_n_act y /\
            cell_importance_base x = col_importance_base y /\
            cell_reward_shape x = col_reward_shape y /\
            cell_exp_reward x = col_exp_reward y).
  { intros x y E. unfold as_config_row in E.
    destruct (cell_config_id x) as [s|z]; [|discriminate E].
    injection E as <-. cbn. repeat split; reflexivity. }
  assert (H1 : exists out1,
             (if config_id_is_best config_id
              then Some (filter (fun r => cell_contains_best (cell_config_id r)) df)
              else Some (filter (fun r => cell_eq (cell_config_id r) config_id) df))
             = Some out1 /\
             mapM as_config_row out1
             = Some (if config_id_is_best config_id
                     then filter (fun r => py_in "best" (col_config_id r)) rows
                     else filter (fun r => config_id_eq (col_config_id r) config_id) rows)).
  { destruct (config_id_is_best config_id).
    - eexists. split; [reflexivity|]. apply mapM_filter; [|exact H].
      intros x y E. destruct (Hrow x y E) as (-> & _). reflexivity.
    - eexists. split; [reflexivity|]. apply mapM_filter; [|exact H].
      intros x y E. destruct (Hrow x y E) as (-> & _).
      destruct config_id; reflexivity. }
  destruct H1 as (out1 & -> & Hout1). cbn [bind].
  set (rows1 := if config_id_is_best config_id
                then filter (fun r => py_in "best" (col_config_id r)) rows
                else filter (fun r => config_id_eq (col_config_id r) config_id) rows) in *.
  assert (H2 : mapM as_config_row
                 (filter (fun r => Z.eqb (cell_dim r) dim
                                   && String.eqb (cell_benchmark r) benchmark
                                   && Bool.eqb (cell_reverse_agents r) reverse_agents
                                   && n_act_eq (cell_n_act r) n_act) out1)
               = Some (filter (fun r => Z.eqb (col_dim r) dim
                                        && String.eqb (col_benchmark r) benchmark
                                        && Bool.eqb (col_reverse_agents r) reverse_agents
                                        && n_act_eq (col_n_act r) n_act) rows1)).
  { apply mapM_filter; [|exact Hout1].
    intros x y E. destruct (Hrow x y E) as (_ & -> & -> & -> & -> & _). reflexivity. }
  destruct (String.eqb benchmark "candid_sigmoid" || String.eqb benchmark "piecewise_linear").
  - assert (H3 : forall l l', mapM as_config_row l = Some l' ->
               mapM as_config_row
                 (filter (fun r => Qeq_bool (cell_importance_base r) importance_base
                                   && String.eqb (cell_reward_shape r) reward_shape) l)
               = Some (filter (fun r => Qeq_bool (col_importance_base r) importance_base
                                        && String.eqb (col_reward_shape r) reward_shape) l')).
    { intros l l' Hl. apply mapM_filter; [|exact Hl].
      intros x y E. destruct (Hrow x y E) as (_ & _ & _ & _ & _ & -> & -> & _).
      reflexivity. }
    destruct (String.eqb reward_shape "exp").
    + eexists. split; [reflexivity|].
      apply mapM_filter; [|apply H3; exact H2].
      intros x y E. destruct (Hrow x y E) as (_ & _ & _ & _ & _ & _ & _ & ->).
      reflexivity.
    + eexists. split; [reflexivity|]. apply H3. exact H2.
  - eexists. split; [reflexivity|]. exact H2.
Qed.

(** C7, as stated.  The table has one row, whose [config_id] is the number 3
    and whose other columns match the selectors [dim = 2],
    [benchmark = 'sigmoid'], [n_act = 3].  Called with [config_id = 'best'],
    the function raises (the [.str] accessor of a numeric column), although
    the claim promises a result, empty where nothing matches, for every
    table.  The same holds when a string identifier stands next to the
    number. *)
Lemma get_run_configs_best_numeric_ids_raise :
  get_run_configs_df [mkTableRow (ConfigNumber 3) 2 "sigmoid" false 3 (1 # 2) "exp" 1]
    2 "sigmoid" (ConfigName "best") false (1 # 2) "exp" 1 (Some 3%Z) = None /\
  get_run_configs_df
    [mkTableRow (ConfigName "best_3") 2 "sigmoid" false 3 (1 # 2) "exp" 1;
     mkTableRow (ConfigNumber 3) 2 "sigmoid" false 3 (1 # 2) "exp" 1]
    5 "sigmoid" (ConfigName "best") false (1 # 2) "exp" 1 (Some 3%Z) = None /\
  ~ (exists result,
        get_run_configs_df
          [mkTableRow (ConfigNumber 3) 2 "sigmoid" false 3 (1 # 2) "exp" 1]
          2 "sigmoid" (ConfigName "best") false (1 # 2) "exp" 1 (Some 3%Z)
        = Some result).
Proof.
  split; [reflexivity|]. split; [reflexivity|].
  intros (result & H). discriminate H.
Qed.

(** C7, amended.  On a table whose [config_id] column holds strings only, the
    call with [config_id = 'best'] returns the table filtered, in order and
    without altering any row, by: the row's [config_id] contains "best" and
    the row matches the remaining applicable selectors.  A row without "best"
    never appears, and when no row matches the result is the empty table.  On
    a table with a non-string identifier the call raises, whatever the other
    selectors are. *)
Theorem get_run_configs_best_string_ids (df : list TableRow) (dim : Z)
  (benchmark : string) (reverse_agents : bool) (importance_base : Q)
  (reward_shape : string) (exp_reward : Q) (n_act : option Z) :
  (string_config_ids df = true ->
   exists result,
     get_run_configs_df df dim benchmark (ConfigName "best") reverse_agents
       importance_base reward_shape exp_reward n_act = Some result /\
     (exists keep : TableRow -> bool,
         result = filter keep df /\
         forall r, keep r = true <->
                   (exists s, cell_config_id r = ConfigName s /\ py_in "best" s = true) /\
                   matches_remaining_cells r dim benchmark reverse_agents
                     importance_base reward_shape exp_reward n_act) /\
     sublist result df /\
     (forall r, In r result <->
                In r df /\
                (exists s, cell_config_id r = ConfigName s /\ py_in "best" s = true) /\
                matches_remaining_cells r dim benchmark reverse_agents
                  importance_base reward_shape exp_reward n_act) /\
     (forall r s, cell_config_id r = ConfigName s -> py_in "best" s = false ->
                  ~ In r result) /\
     ((forall r, In r df ->
                 ~ ((exists s, cell_config_id r = ConfigName s /\ py_in "best" s = true) /\
                    matches_remaining_cells r dim benchmark reverse_agents
                      importance_base reward_shape exp_reward n_act)) ->
      result = [])) /\
  ((exists r z, In r df /\ cell_config_id r = ConfigNumber z) ->
   get_run_configs_df df dim benchmark (ConfigName "best") reverse_agents
     importance_base reward_shape exp_reward n_act = None).
Proof.
  rewrite get_run_configs_df_best. split.
  - intros ->.
    set (keep := keeps_best_cells dim benchmark reverse_agents importance_base
                   reward_shape exp_reward n_act).
    assert (Hkeep : forall r, keep r = true <->
                  (exists s, cell_config_id r = ConfigName s /\ py_in "best" s = true) /\
                  matches_remaining_cells r dim benchmark reverse_agents
                    importance_base reward_shape exp_reward n_act).
    { intro r. unfold keep. rewrite keeps_best_cells_iff, cell_contains_best_iff.
      reflexivity. }
    exists (filter keep df). split; [reflexivity|].
    split; [exists keep; split; [reflexivity | exact Hkeep]|].
    split; [apply filter_sublist|].
    split; [intro r; rewrite filter_In, Hkeep; reflexivity|].
    split.
    + intros r s Hs Hno Hin. apply filter_In in Hin. destruct Hin as [_ Hk].
      apply Hkeep in Hk. destruct Hk as [(s' & Hs' & Hb) _].
      rewrite Hs in Hs'. injection Hs' as <-. congruence.
    + intro Hnone. induction df as [|x t IH]; [reflexivity|].
      simpl. destruct (keep x) eqn:E.
      * exfalso. apply (Hnone x (or_introl eq_refl)). apply Hkeep. exact E.
      * apply IH. intros r Hr. apply Hnone. right. exact Hr.
  - intro H. apply string_config_ids_false in H. rewrite H. reflexivity.
Qed.

Lemma get_run_configs_best_string_ids_witness :
  exists result,
    get_run_configs_df
      [mkTableRow (ConfigName "best_7") 2 "sigmoid" false 3 (1 # 2) "exp" 1;
       mkTableRow (ConfigName "12") 2 "sigmoid" false 3 (1 # 2) "exp" 1;
       mkTableRow (ConfigName "best_9") 5 "sigmoid" false 3 (1 # 2) "exp" 1]
      2 "sigmoid" (ConfigName "best") false (1 # 2) "exp" 1 (Some 3%Z)
    = Some result /\
    result = [mkTableRow (ConfigName "best_7") 2 "sigmoid" false 3 (1 # 2) "exp" 1].
Proof.
  destruct (proj1 (get_run_configs_best_string_ids
                     [mkTableRow (ConfigName "best_7") 2 "sigmoid" false 3 (1 # 2) "exp" 1;
                      mkTableRow (ConfigName "12") 2 "sigmoid" false 3 (1 # 2) "exp" 1;
                      mkTableRow (ConfigName "best_9") 5 "sigmoid" false 3 (1 # 2) "exp" 1]
                     2 "sigmoid" false (1 # 2) "exp" 1 (Some 3%Z))
              eq_refl) as (result & Hres & _).
  exists result. split; [exact Hres|].
  vm_compute in Hres. injection Hres as <-. reflexivity.
Defined.

(** * Properties in double precision *)

(** ** Binary64 rounding is monotone *)

Lemma round_half_even_monotone (a b a' b' : Z) :
  (0 < b)%Z -> (0 < b')%Z -> (a * b' <= a' * b)%Z ->
  (round_half_even a b <= round_half_even a' b')%Z.
Proof.
  intros Hb Hb' H. unfold round_half_even.
  pose proof (Z.div_mod a b ltac:(lia)) as E.
  pose proof (Z.div_mod a' b' ltac:(lia)) as E'.
  pose proof (Z.mod_pos_bound a b Hb) as R.
  pose proof (Z.mod_pos_bound a' b' Hb') as R'.
  set (q := (a / b)%Z) in *. set (r := (a mod b)%Z) in *.
  set (q' := (a' / b')%Z) in *. set (r' := (a' mod b')%Z) in *.
  assert (Hbb : (0 < b * b')%Z) by nia.
  assert (Hq : (q <= q')%Z).
  { destruct (Z_lt_le_dec q' q) as [Hlt|Hle]; [exfalso | exact Hle].
    assert (H1 : (b * b' * (q' + 1) <= b * b' * q)%Z)
      by (apply Z.mul_le_mono_nonneg_l; lia).
    assert (H2 : (r' * b < b' * b)%Z) by (apply Z.mul_lt_mono_pos_r; lia).
    assert (H3 : (0 <= r * b')%Z) by (apply Z.mul_nonneg_nonneg; lia).
    rewrite E, E' in H. lia. }
  destruct (Z.eq_dec q q') as [Eq|Nq].
  - rewrite <- Eq in *.
    assert (Hr : (r * b' <= r' * b)%Z) by nia.
    destruct (Z.compare_spec (2 * r) b) as [C|C|C];
      destruct (Z.compare_spec (2 * r') b') as [C'|C'|C'];
      try destruct (Z.even q); try lia; nia.
  - destruct (Z.compare_spec (2 * r) b) as [C|C|C];
      destruct (Z.compare_spec (2 * r') b') as [C'|C'|C'];
      try destruct (Z.even q); try destruct (Z.even q'); lia.
Qed.

Lemma round_half_even_integer (m : Z) : round_half_even m 1 = m.
Proof.
  unfold round_half_even. rewrite Z.div_1_r, Z.mod_1_r. reflexivity.
Qed.

Lemma pow2_pos (k : Z) : 0 < 2 ^ k.
Proof. apply Qpower_0_lt. reflexivity. Qed.

Lemma pow2_add (j k : Z) : 2 ^ (j + k) == 2 ^ j * 2 ^ k.
Proof. apply Qpower_plus. discriminate. Qed.

Lemma pow2_opp (k : Z) : 2 ^ (- k) == / 2 ^ k.
Proof. apply Qpower_opp. Qed.

Lemma pow2_le (j k : Z) : (j <= k)%Z -> 2 ^ j <= 2 ^ k.
Proof. intro H. apply Qpower_le_compat_l; [exact H | discriminate]. Qed.

Lemma pow2_inject (k : Z) : (0 <= k)%Z -> inject_Z (2 ^ k) == 2 ^ k.
Proof. intro H. apply (Zpower_Qpower 2 k H). Qed.

Lemma Zpow2_pos (k : Z) : (0 <= k)%Z -> (0 < 2 ^ k)%Z.
Proof. intro H. apply Z.pow_pos_nonneg; lia. Qed.

Lemma inject_Z_pos' (z : Z) : (0 < z)%Z -> 0 < inject_Z z.
Proof. intro H. unfold Qlt, inject_Z. simpl. lia. Qed.

(** The scaled pair [(a, b)] denotes the fraction divided by the power of
    two: [a * 2 ^ k * d = n * b]. *)
Lemma scaled_value (n d k : Z) :
  (0 < d)%Z ->
  (0 < snd (scaled n d k))%Z /\
  inject_Z (fst (scaled n d k)) * 2 ^ k * inject_Z d
  == inject_Z n * inject_Z (snd (scaled n d k)).
Proof.
  intro Hd. unfold scaled.
  pose proof (pow2_pos k) as Hk.
  destruct (Z.leb_spec 0 k) as [H|H]; cbn [fst snd].
  - pose proof (Zpow2_pos k H). split; [lia|].
    rewrite inject_Z_mult, pow2_inject by exact H. ring.
  - split; [exact Hd|].
    rewrite inject_Z_mult, pow2_inject by lia. rewrite pow2_opp. field. lra.
Qed.

Lemma inject_Z_log2_bounds (n : Z) :
  (0 < n)%Z ->
  2 ^ Z.log2 n <= inject_Z n /\ inject_Z n < 2 * 2 ^ Z.log2 n.
Proof.
  intro Hn. destruct (Z.log2_spec n Hn) as [Hlo Hhi].
  pose proof (Z.log2_nonneg n) as Ha.
  rewrite <- (pow2_inject (Z.log2 n)) by exact Ha.
  split.
  - rewrite <- Zle_Qle. exact Hlo.
  - change 2 with (inject_Z 2) at 1. rewrite <- inject_Z_mult, <- Zlt_Qlt.
    rewrite Z.pow_succ_r in Hhi by exact Ha. exact Hhi.
Qed.

(** The exponent chosen puts the scaled fraction in [[2 ^ 52, 2 ^ 53)]. *)
Lemma ulp_exponent_spec (n d : Z) :
  (0 < n)%Z -> (0 < d)%Z ->
  2 ^ 52 * 2 ^ ulp_exponent n d * inject_Z d <= inject_Z n /\
  inject_Z n < 2 * 2 ^ 52 * 2 ^ ulp_exponent n d * inject_Z d.
Proof.
  intros Hn Hd. unfold ulp_exponent.
  set (k0 := (Z.log2 n - Z.log2 d - 52)%Z).
  destruct (inject_Z_log2_bounds n Hn) as [HA1 HA2].
  destruct (inject_Z_log2_bounds d Hd) as [HB1 HB2].
  destruct (scaled_value n d k0 Hd) as [Hs Hv].
  pose proof (pow2_pos (Z.log2 n)) as HA.
  pose proof (pow2_pos (Z.log2 d)) as HB.
  pose proof (pow2_pos k0) as HK.
  pose proof (pow2_pos 52) as HP.
  pose proof (inject_Z_pos' d Hd) as HD.
  pose proof (inject_Z_pos' _ Hs) as HS.
  assert (EK : 2 ^ k0 * 2 ^ Z.log2 d * 2 ^ 52 == 2 ^ Z.log2 n).
  { rewrite <- !pow2_add. unfold k0.
    replace (Z.log2 n - Z.log2 d - 52 + Z.log2 d + 52)%Z with (Z.log2 n) by lia.
    reflexivity. }
  set (A := 2 ^ Z.log2 n) in *. set (B := 2 ^ Z.log2 d) in *.
  set (K := 2 ^ k0) in *. set (P := 2 ^ 52) in *.
  set (N := inject_Z n) in *. set (D := inject_Z d) in *.
  set (F := fst (scaled n d k0)) in *. set (S := snd (scaled n d k0)) in *.
  assert (Hlow : P * K * D < 2 * N).
  { (* A * D < 2 * A * B <= 2 * B * N *)
    assert (P * K * B * D < P * K * B * (2 * B)) by nra.
    nra. }
  assert (Hhigh : N < 2 * P * K * D).
  { assert (K * B * P * B <= K * B * P * D) by nra.
    nra. }
  destruct (Z.ltb_spec F (S * 2 ^ 52)) as [Ht|Ht].
  - assert (Ht' : inject_Z F < inject_Z S * P).
    { unfold P. rewrite <- pow2_inject by lia. rewrite <- inject_Z_mult, <- Zlt_Qlt.
      exact Ht. }
    assert (EK1 : 2 ^ (k0 - 1) * 2 == K).
    { unfold K. replace k0 with ((k0 - 1) + 1)%Z at 2 by lia.
      rewrite pow2_add. reflexivity. }
    set (K1 := 2 ^ (k0 - 1)) in *.
    assert (Hn' : N < P * K * D).
    { assert (inject_Z F * K * D < inject_Z S * P * K * D) by nra.
      nra. }
    split; nra.
  - assert (Ht' : inject_Z S * P <= inject_Z F).
    { unfold P. rewrite <- pow2_inject by lia. rewrite <- inject_Z_mult, <- Zle_Qle.
      exact Ht. }
    assert (Hn' : P * K * D <= N).
    { assert (inject_Z S * P * K * D <= inject_Z F * K * D) by nra.
      nra. }
    change (2 ^ k0) with K. split; [exact Hn' | exact Hhigh].
Qed.

Lemma round_magnitude_value (n d : Z) :
  round_magnitude n d
  == inject_Z (round_half_even
                 (fst (scaled n d (Z.max (ulp_exponent n d) (-1074))))
                 (snd (scaled n d (Z.max (ulp_exponent n d) (-1074)))))
     * 2 ^ Z.max (ulp_exponent n d) (-1074).
Proof.
  unfold round_magnitude.
  set (k := Z.max (ulp_exponent n d) (-1074)).
  set (m := round_half_even _ _).
  destruct (Z.leb_spec 0 k) as [H|H].
  - rewrite inject_Z_mult, pow2_inject by exact H. reflexivity.
  - rewrite pow2_inject by lia. rewrite pow2_opp. field.
    pose proof (pow2_pos k). lra.
Qed.

Lemma inject_Z_le (x y : Z) : inject_Z x <= inject_Z y -> (x <= y)%Z.
Proof. intro H. rewrite Zle_Qle. exact H. Qed.

Lemma round_magnitude_nonneg (n d : Z) :
  (0 < n)%Z -> (0 < d)%Z -> 0 <= round_magnitude n d.
Proof.
  intros Hn Hd. rewrite round_magnitude_value.
  set (k := Z.max (ulp_exponent n d) (-1074)).
  destruct (scaled_value n d k Hd) as [Hs Hv].
  pose proof (pow2_pos k) as HK.
  pose proof (inject_Z_pos' d Hd) as HD.
  pose proof (inject_Z_pos' n Hn) as HN.
  pose proof (inject_Z_pos' _ Hs) as HS.
  assert (HF : (0 <= fst (scaled n d k))%Z).
  { apply inject_Z_le.
    set (F := inject_Z (fst (scaled n d k))) in *.
    set (S := inject_Z (snd (scaled n d k))) in *.
    set (K := 2 ^ k) in *. set (D := inject_Z d) in *. set (N := inject_Z n) in *.
    change (inject_Z 0) with 0.
    assert (0 < K * D) by (apply Qmult_lt_0_compat; assumption).
    assert (0 < N * S) by (apply Qmult_lt_0_compat; assumption).
    destruct (Qlt_le_dec F 0) as [Hneg|Hpos]; [|exact Hpos].
    exfalso. assert (0 < (- F) * (K * D)) by (apply Qmult_lt_0_compat; lra).
    assert (F * K * D == F * (K * D)) by ring. lra. }
  assert (Hm : (round_half_even 0 1
                <= round_half_even (fst (scaled n d k)) (snd (scaled n d k)))%Z)
    by (apply round_half_even_monotone; lia).
  rewrite round_half_even_integer in Hm.
  apply Qmult_le_0_compat; [|lra].
  change 0 with (inject_Z 0). rewrite <- Zle_Qle. exact Hm.
Qed.

Ltac qpos := repeat apply Qmult_lt_0_compat; first [assumption | lra].

Lemma ulp_exponent_monotone (n d n' d' : Z) :
  (0 < n)%Z -> (0 < d)%Z -> (0 < n')%Z -> (0 < d')%Z ->
  (n * d' <= n' * d)%Z ->
  (ulp_exponent n d <= ulp_exponent n' d')%Z.
Proof.
  intros Hn Hd Hn' Hd' Hle.
  destruct (ulp_exponent_spec n d Hn Hd) as [Hlo _].
  destruct (ulp_exponent_spec n' d' Hn' Hd') as [_ Hhi'].
  set (k1 := ulp_exponent n d) in *. set (k1' := ulp_exponent n' d') in *.
  pose proof (inject_Z_pos' d Hd) as HD.
  pose proof (inject_Z_pos' d' Hd') as HD'.
  pose proof (pow2_pos 52) as HP.
  assert (HleQ : inject_Z n * inject_Z d' <= inject_Z n' * inject_Z d).
  { rewrite <- !inject_Z_mult, <- Zle_Qle. exact Hle. }
  assert (H : 2 ^ k1 < 2 ^ (k1' + 1)).
  { rewrite pow2_add. change (2 ^ 1) with 2.
    set (P := 2 ^ 52) in *. set (A := 2 ^ k1) in *. set (A' := 2 ^ k1') in *.
    set (N := inject_Z n) in *. set (D := inject_Z d) in *.
    set (N' := inject_Z n') in *. set (D' := inject_Z d') in *.
    assert (H1 : (P * A * D) * D' <= N * D')
      by (apply Qmult_le_compat_r; [exact Hlo | lra]).
    assert (H2 : N' * D < (2 * P * A' * D') * D)
      by (apply Qmult_lt_compat_r; assumption).
    assert (H3 : 0 < P * D * D') by qpos.
    apply Qnot_le_lt. intro Hc.
    assert (H4 : (A' * 2) * (P * D * D') <= A * (P * D * D'))
      by (apply Qmult_le_compat_r; [exact Hc | lra]).
    lra. }
  apply Qpower_lt_compat_l_inv in H; [lia | reflexivity].
Qed.

(** The integer part is at most [2 ^ 53], and at least [2 ^ 52] unless the
    exponent is that of the subnormals. *)
Lemma round_half_even_scaled_bounds (n d k : Z) :
  (0 < n)%Z -> (0 < d)%Z -> (ulp_exponent n d <= k)%Z ->
  (round_half_even (fst (scaled n d k)) (snd (scaled n d k)) <= 2 ^ 53)%Z /\
  (k = ulp_exponent n d ->
   (2 ^ 52 <= round_half_even (fst (scaled n d k)) (snd (scaled n d k)))%Z).
Proof.
  intros Hn Hd Hk.
  destruct (ulp_exponent_spec n d Hn Hd) as [Hlo Hhi].
  destruct (scaled_value n d k Hd) as [Hs Hv].
  pose proof (inject_Z_pos' d Hd) as HD.
  pose proof (inject_Z_pos' _ Hs) as HS.
  pose proof (pow2_pos 52) as HP.
  pose proof (pow2_pos k) as HK.
  pose proof (pow2_pos (ulp_exponent n d)) as HK1.
  pose proof (pow2_le _ _ Hk) as Hpk.
  set (F := fst (scaled n d k)) in *. set (S := snd (scaled n d k)) in *.
  set (P := 2 ^ 52) in *. set (K := 2 ^ k) in *.
  set (N := inject_Z n) in *. set (D := inject_Z d) in *.
  set (f := inject_Z F) in *. set (s := inject_Z S) in *.
  assert (HKD : 0 < K * D) by qpos.
  split.
  - rewrite <- (round_half_even_integer (2 ^ 53)).
    apply round_half_even_monotone; [exact Hs | lia |].
    apply inject_Z_le. rewrite !inject_Z_mult. change (inject_Z 1) with 1.
    change (inject_Z (2 ^ 53)) with (2 * 2 ^ 52). fold f s P.
    set (K1 := 2 ^ ulp_exponent n d) in *.
    assert (H0 : (P * D) * K1 <= (P * D) * K).
    { rewrite !(Qmult_comm (P * D)).
      apply Qmult_le_compat_r; [exact Hpk|]. apply Qlt_le_weak. qpos. }
    assert (H1 : N * s < (2 * P * K * D) * s)
      by (apply Qmult_lt_compat_r; [exact HS | lra]).
    apply Qnot_lt_le. intro Hc.
    assert (H2 : (2 * P * s) * (K * D) < (f * 1) * (K * D))
      by (apply Qmult_lt_compat_r; assumption).
    lra.
  - intros ->.
    rewrite <- (round_half_even_integer (2 ^ 52)) at 1.
    apply round_half_even_monotone; [lia | exact Hs |].
    apply inject_Z_le. rewrite !inject_Z_mult. change (inject_Z 1) with 1.
    change (inject_Z (2 ^ 52)) with (2 ^ 52). fold f s P.
    assert (H1 : (P * K * D) * s <= N * s)
      by (apply Qmult_le_compat_r; [exact Hlo | lra]).
    apply Qnot_lt_le. intro Hc.
    assert (H2 : (f * 1) * (K * D) < (P * s) * (K * D))
      by (apply Qmult_lt_compat_r; assumption).
    lra.
Qed.

Lemma round_magnitude_monotone (n d n' d' : Z) :
  (0 < n)%Z -> (0 < d)%Z -> (0 < n')%Z -> (0 < d')%Z ->
  (n * d' <= n' * d)%Z ->
  round_magnitude n d <= round_magnitude n' d'.
Proof.
  intros Hn Hd Hn' Hd' Hle.
  rewrite !round_magnitude_value.
  pose proof (ulp_exponent_monotone n d n' d' Hn Hd Hn' Hd' Hle) as Hk1.
  set (k1 := ulp_exponent n d) in *. set (k1' := ulp_exponent n' d') in *.
  set (k := Z.max k1 (-1074)). set (k' := Z.max k1' (-1074)).
  assert (Hk : (k <= k')%Z) by (unfold k, k'; lia).
  pose proof (pow2_pos k) as HK. pose proof (pow2_pos k') as HK'.
  destruct (Z.eq_dec k k') as [E|N].
  - (* the same exponent: the integer parts are ordered *)
    rewrite <- E.
    destruct (scaled_value n d k Hd) as [Hs Hv].
    destruct (scaled_value n' d' k Hd') as [Hs' Hv'].
    pose proof (inject_Z_pos' d Hd) as HD.
    pose proof (inject_Z_pos' d' Hd') as HD'.
    pose proof (inject_Z_pos' _ Hs) as HS.
    pose proof (inject_Z_pos' _ Hs') as HS'.
    assert (HleQ : inject_Z n * inject_Z d' <= inject_Z n' * inject_Z d).
    { rewrite <- !inject_Z_mult, <- Zle_Qle. exact Hle. }
    apply Qmult_le_compat_r; [|lra].
    rewrite <- Zle_Qle.
    apply round_half_even_monotone; [exact Hs | exact Hs' |].
    apply inject_Z_le. rewrite !inject_Z_mult.
    set (K := 2 ^ k) in *.
    set (N := inject_Z n) in *. set (D := inject_Z d) in *.
    set (N' := inject_Z n') in *. set (D' := inject_Z d') in *.
    set (f := inject_Z (fst (scaled n d k))) in *.
    set (s := inject_Z (snd (scaled n d k))) in *.
    set (f' := inject_Z (fst (scaled n' d' k))) in *.
    set (s' := inject_Z (snd (scaled n' d' k))) in *.
    assert (H1 : (f * s') * (K * D * D') == (N * D') * (s * s')).
    { setoid_replace ((f * s') * (K * D * D')) with ((f * K * D) * (s' * D'))
        by ring.
      rewrite Hv. ring. }
    assert (H2 : (f' * s) * (K * D * D') == (N' * D) * (s * s')).
    { setoid_replace ((f' * s) * (K * D * D')) with ((f' * K * D') * (s * D))
        by ring.
      rewrite Hv'. ring. }
    assert (H3 : 0 < K * D * D') by qpos.
    assert (H4 : 0 < s * s') by qpos.
    assert (H5 : (N * D') * (s * s') <= (N' * D) * (s * s'))
      by (apply Qmult_le_compat_r; lra).
    apply Qnot_lt_le. intro Hc.
    assert ((f' * s) * (K * D * D') < (f * s') * (K * D * D'))
      by (apply Qmult_lt_compat_r; assumption).
    lra.
  - (* a smaller exponent: the result stays below the next binade *)
    assert (Ek' : k' = k1') by (unfold k, k' in *; lia).
    assert (Hkk1 : (k1 <= k)%Z) by (unfold k; lia).
    destruct (round_half_even_scaled_bounds n d k Hn Hd Hkk1) as [Hm _].
    destruct (round_half_even_scaled_bounds n' d' k' Hn' Hd'
                ltac:(fold k1'; lia)) as [_ Hm'].
    specialize (Hm' Ek').
    apply Qle_trans with (2 ^ 52 * 2 ^ k').
    + apply Qle_trans with (2 * 2 ^ 52 * 2 ^ k).
      * apply Qmult_le_compat_r; [|lra].
        change (2 * 2 ^ 52) with (inject_Z (2 ^ 53)).
        rewrite <- Zle_Qle. exact Hm.
      * assert (Hp : 2 ^ (k + 1) <= 2 ^ k') by (apply pow2_le; lia).
        rewrite pow2_add in Hp. change (2 ^ 1) with 2 in Hp.
        pose proof (pow2_pos 52) as HP.
        set (P := 2 ^ 52) in *. set (K := 2 ^ k) in *. set (K' := 2 ^ k') in *.
        assert (H : P * (K * 2) <= P * K').
        { rewrite !(Qmult_comm P). apply Qmult_le_compat_r; lra. }
        lra.
    + apply Qmult_le_compat_r; [|lra].
      change (2 ^ 52) with (inject_Z (2 ^ 52)).
      rewrite <- Zle_Qle. exact Hm'.
Qed.

(** Rounding to the nearest double is monotone. *)
Lemma round_double_monotone : monotone round_double.
Proof.
  intros [xn xd] [yn yd] H. unfold Qle in H. cbn [Qnum Qden] in H.
  unfold round_double. cbn [Qnum Qden].
  assert (Hxd : (0 < Z.pos xd)%Z) by lia.
  assert (Hyd : (0 < Z.pos yd)%Z) by lia.
  set (dx := Z.pos xd) in *. set (dy := Z.pos yd) in *.
  destruct (Z.eqb_spec (Z.abs xn) 0) as [Ex|Nx];
    destruct (Z.eqb_spec (Z.abs yn) 0) as [Ey|Ny].
  - apply Qle_refl.
  - assert (Hy : (0 < yn)%Z) by nia.
    destruct (Z.ltb_spec yn 0) as [Sy|Sy]; [lia|].
    apply round_magnitude_nonneg; lia.
  - assert (Hx : (xn < 0)%Z) by nia.
    destruct (Z.ltb_spec xn 0) as [Sx|Sx]; [|lia].
    pose proof (round_magnitude_nonneg (Z.abs xn) dx ltac:(lia) Hxd). lra.
  - pose proof (round_magnitude_nonneg (Z.abs xn) dx ltac:(lia) Hxd) as Px.
    pose proof (round_magnitude_nonneg (Z.abs yn) dy ltac:(lia) Hyd) as Py.
    destruct (Z.ltb_spec xn 0) as [Sx|Sx]; destruct (Z.ltb_spec yn 0) as [Sy|Sy].
    + apply Qopp_le_compat.
      apply round_magnitude_monotone; lia.
    + lra.
    + exfalso. nia.
    + apply round_magnitude_monotone; lia.
Qed.

Lemma round_double_0 : round_double 0 = 0.
Proof. reflexivity. Qed.

(** Some values: the doubles of 0.1 and of 0.1 + 0.2; a tie, rounded to the
    even neighbour; and the mean of 0.99, 0.98 and 0.85 taken in two orders,
    0.94 and 0.9400000000000001. *)
Lemma round_double_values :
  round_double (1 # 10) == 3602879701896397 # 36028797018963968 /\
  round_double (round_double (1 # 10) + round_double (2 # 10))
  == 5404319552844596 # 18014398509481984 /\
  round_double (9007199254740993 # 1) == 9007199254740992 # 1 /\
  mean_in_order round_double
    [round_double (99 # 100); round_double (98 # 100); round_double (85 # 100)]
  == round_double (94 # 100) /\
  mean_in_order round_double
    [round_double (98 # 100); round_double (85 # 100); round_double (99 # 100)]
  == round_double (94 # 100) + (1 # 9007199254740992).
Proof. repeat split; vm_compute; reflexivity. Qed.

(** ** Nearest-value lookup with rounded distances *)

Lemma monotone_value (rnd : Q -> Q) (x y : Q) :
  monotone rnd -> x == y -> rnd x == rnd y.
Proof.
  intros Hm E. apply Qle_antisym; apply Hm; rewrite E; apply Qle_refl.
Qed.

(** Without rounding the lookup is the exact one. *)
Lemma find_nearest_fl_exact (array : list Q) (value : Q) :
  find_nearest_fl (fun x => x) array value = find_nearest array value.
Proof. reflexivity. Qed.

Lemma find_nearest_fl_unfold (rnd : Q -> Q) (a : list Q) (v : Q) :
  a <> [] ->
  find_nearest_fl rnd a v = Some (nearest_at_fl rnd a v (searchsorted a v)).
Proof.
  intros Hne. pose proof (searchsorted_le_length a v) as Hidx.
  unfold find_nearest_fl, nearest_at_fl.
  assert (Hlen : (0 < length a)%nat) by (destruct a; [congruence | simpl; lia]).
  set (idx := searchsorted a v) in *.
  destruct (Nat.eqb_spec idx 0) as [E0|N0].
  - apply nth_error_nth'. exact Hlen.
  - destruct (Nat.eqb_spec idx (length a)) as [El|Nl].
    + apply nth_error_nth'. lia.
    + rewrite (nth_error_nth' a 0 (n := (idx - 1)%nat)) by lia.
      rewrite (nth_error_nth' a 0 (n := idx)) by lia.
      reflexivity.
Qed.

(** The cases of the lookup on a sorted array, with what the code has
    established in each: at the left end nothing is below the query, at the
    right end everything is, and in between the result is one of the two
    elements around the insertion point, the lower one exactly when its
    rounded distance is strictly smaller. *)
Lemma find_nearest_fl_cases (rnd : Q -> Q) (a : list Q) (v : Q) :
  a <> [] -> sorted_ascending a = true ->
  exists r, find_nearest_fl rnd a v = Some r /\ In r a /\
    ((forall x, In x a -> v <= x /\ r <= x) \/
     (forall x, In x a -> x < v /\ x <= r) \/
     (exists lo hi,
         In lo a /\ In hi a /\ lo < v /\ v <= hi /\
         (forall x, In x a -> x <= lo \/ hi <= x) /\
         ((r = lo /\ rnd (v - lo) < rnd (hi - v)) \/
          (r = hi /\ rnd (hi - v) <= rnd (v - lo))))).
Proof.
  intros Hne Hs.
  destruct (searchsorted_correct a v Hs) as (Hidx & Hlow & Hhigh).
  rewrite (find_nearest_fl_unfold rnd a v Hne).
  eexists. split; [reflexivity|].
  assert (Hlen : (0 < length a)%nat) by (destruct a; [congruence | simpl; lia]).
  unfold nearest_at_fl. set (idx := searchsorted a v) in *.
  pose proof (sorted_ascending_nth a Hs) as Hmono.
  destruct (Nat.eqb_spec idx 0) as [E0|N0].
  - split; [apply nth_In; exact Hlen|]. left.
    intros x Hx. destruct (In_nth_Q a x Hx) as (k & Hk & <-).
    split; [apply Hhigh; lia | apply Hmono; lia].
  - destruct (Nat.eqb_spec idx (length a)) as [El|Nl].
    + split; [apply nth_In; lia|]. right. left.
      intros x Hx. destruct (In_nth_Q a x Hx) as (k & Hk & <-).
      split; [apply Hlow; lia | apply Hmono; lia].
    + assert (Hin_lo : In (nth (idx - 1) a 0) a) by (apply nth_In; lia).
      assert (Hin_hi : In (nth idx a 0) a) by (apply nth_In; lia).
      assert (Hall : forall x, In x a -> x <= nth (idx - 1) a 0 \/ nth idx a 0 <= x).
      { intros x Hx. destruct (In_nth_Q a x Hx) as (k & Hk & <-).
        destruct (Nat.lt_ge_cases k idx).
        - left. apply Hmono; lia.
        - right. apply Hmono; lia. }
      assert (Hl : nth (idx - 1) a 0 < v) by (apply Hlow; lia).
      assert (Hh : v <= nth idx a 0) by (apply Hhigh; lia).
      destruct (Qltb _ _) eqn:E.
      * apply Qltb_true in E. split; [exact Hin_lo|]. right. right.
        exists (nth (idx - 1) a 0), (nth idx a 0).
        repeat (split; [assumption|]). left. split; [reflexivity | exact E].
      * apply Qltb_false in E. split; [exact Hin_hi|]. right. right.
        exists (nth (idx - 1) a 0), (nth idx a 0).
        repeat (split; [assumption|]). right. split; [reflexivity | exact E].
Qed.

(** In binary64 the element returned need not be the nearest one: on the grid
    generated for [max_dim = 2], [importance_base = 0.1], [n_acts = 3] and the
    query 0.25 both distances round to the same double, the upper candidate
    (0.45) is returned, and the lower one (0.05) is strictly closer. *)
Lemma find_nearest_double_not_nearest :
  exists grid lo hi,
    get_actions_importance_sigmoid_fl (double_ops (fun x => x)) 2
      (round_double (1 # 10)) 3 = Some grid /\
    nth_error grid 2 = Some lo /\ nth_error grid 3 = Some hi /\
    find_nearest_fl round_double grid (1 # 4) = Some hi /\
    round_double ((1 # 4) - lo) == round_double (hi - (1 # 4)) /\
    Qabs (lo - (1 # 4)) < Qabs (hi - (1 # 4)).
Proof.
  eexists. eexists. eexists.
  split; [vm_compute; reflexivity|].
  split; [reflexivity|]. split; [reflexivity|].
  split; [vm_compute; reflexivity|].
  split; vm_compute; reflexivity.
Qed.

(** C1, amended.  On a non-empty, strictly increasing array, whatever the
    (monotone) rounding of the two distances: the lookup returns an element
    of the array; every larger element of the array is strictly farther from
    the query; no element is strictly closer once distances are rounded as the
    code computes them; and when the two computed distances are equal, in
    particular when the query is exactly half way between two adjacent
    elements, the returned element is the higher-indexed (larger) one. *)
Theorem find_nearest_rounded_ties_high (rnd : Q -> Q) (A : list Q) (v : Q) :
  monotone rnd -> A <> [] -> strictly_increasing A = true ->
  exists r,
    find_nearest_fl rnd A v = Some r /\ In r A /\
    (forall x, In x A -> r < x -> Qabs (r - v) < Qabs (x - v)) /\
    (forall x, In x A -> ~ rnd (Qabs (x - v)) < rnd (Qabs (r - v))) /\
    (forall i lo hi,
        nth_error A i = Some lo -> nth_error A (S i) = Some hi ->
        lo < v -> v < hi -> rnd (v - lo) == rnd (hi - v) -> r = hi) /\
    (forall i lo hi, exact_tie A v i lo hi -> r = hi).
Proof.
  intros Hm Hne Hstrict.
  pose proof (strictly_increasing_sorted A Hstrict) as Hs.
  destruct (find_nearest_fl_cases rnd A v Hne Hs) as (r & Hr & Hin & Hcases).
  exists r. split; [exact Hr|]. split; [exact Hin|].
  assert (Habs : forall s t, Qabs s <= Qabs t ->
                             ~ rnd (Qabs t) < rnd (Qabs s)).
  { intros s t Hst Hlt. apply Hm in Hst. lra. }
  assert (Hfar : forall x, In x A -> r < x -> Qabs (r - v) < Qabs (x - v)).
  { intros x Hx Hrx.
    destruct Hcases as [H0 | [H1 | (lo & hi & _ & _ & Hl & Hh & Hall & Hsel)]].
    - destruct (H0 r Hin) as [? _]. qabs_lra.
    - destruct (H1 x Hx) as [_ ?]. lra.
    - destruct (Hall x Hx) as [Hx'|Hx'].
      + destruct Hsel as [[-> _]|[-> _]]; lra.
      + destruct Hsel as [[-> E]|[-> _]]; [|qabs_lra].
        assert (v - lo < hi - v).
        { apply Qnot_le_lt. intro Hge. apply Hm in Hge. lra. }
        qabs_lra. }
  assert (Hclose : forall x, In x A -> ~ rnd (Qabs (x - v)) < rnd (Qabs (r - v))).
  { intros x Hx.
    destruct Hcases as [H0 | [H1 | (lo & hi & _ & _ & Hl & Hh & Hall & Hsel)]].
    - destruct (H0 x Hx) as [? ?]. destruct (H0 r Hin) as [? _].
      apply Habs. qabs_lra.
    - destruct (H1 x Hx) as [? ?]. destruct (H1 r Hin) as [? _].
      apply Habs. qabs_lra.
    - assert (Elo : rnd (Qabs (lo - v)) == rnd (v - lo))
        by (apply monotone_value; [exact Hm | qabs_lra]).
      assert (Ehi : rnd (Qabs (hi - v)) == rnd (hi - v))
        by (apply monotone_value; [exact Hm | qabs_lra]).
      destruct (Hall x Hx) as [Hx'|Hx'].
      + assert (Hge : rnd (v - lo) <= rnd (Qabs (x - v)))
          by (apply Hm; qabs_lra).
        destruct Hsel as [[-> E]|[-> E]]; lra.
      + assert (Hge : rnd (hi - v) <= rnd (Qabs (x - v)))
          by (apply Hm; qabs_lra).
        destruct Hsel as [[-> E]|[-> E]]; lra. }
  assert (Htie : forall i lo hi,
             nth_error A i = Some lo -> nth_error A (S i) = Some hi ->
             lo < v -> v < hi -> rnd (v - lo) == rnd (hi - v) -> r = hi).
  { intros i lo hi Hlo Hhi Hl Hh E.
    assert (Hi : (S i < length A)%nat) by (apply nth_error_Some; congruence).
    assert (Elo : nth i A 0 = lo) by (apply nth_error_nth; exact Hlo).
    assert (Ehi : nth (S i) A 0 = hi) by (apply nth_error_nth; exact Hhi).
    destruct (searchsorted_correct A v Hs) as (Hidx & Hlow & Hhigh).
    assert (Eidx : searchsorted A v = S i).
    { set (idx := searchsorted A v) in *.
      destruct (Nat.lt_ge_cases i idx) as [H1|H1].
      - destruct (Nat.lt_ge_cases (S i) idx) as [H2|H2]; [|lia].
        pose proof (Hlow (S i) H2). rewrite Ehi in *. lra.
      - pose proof (Hhigh i H1 ltac:(lia)). rewrite Elo in *. lra. }
    rewrite (find_nearest_fl_unfold rnd A v Hne) in Hr. injection Hr as <-.
    unfold nearest_at_fl. rewrite Eidx.
    destruct (Nat.eqb_spec (S i) 0) as [|_]; [lia|].
    destruct (Nat.eqb_spec (S i) (length A)) as [|_]; [lia|].
    replace (S i - 1)%nat with i by lia. rewrite Elo, Ehi.
    destruct (Qltb (rnd (v - lo)) (rnd (hi - v))) eqn:E'; [|reflexivity].
    apply Qltb_true in E'. lra. }
  split; [exact Hfar|]. split; [exact Hclose|]. split; [exact Htie|].
  intros i lo hi (Hlo & Hhi & Hl & Hh & E).
  apply (Htie i lo hi Hlo Hhi Hl Hh). apply monotone_value; assumption.
Qed.

Lemma find_nearest_rounded_ties_high_witness :
  exists r,
    find_nearest_fl round_double
      [round_double (5 # 100); round_double (45 # 100)] (1 # 4) = Some r /\
    In r [round_double (5 # 100); round_double (45 # 100)] /\
    (forall x, In x [round_double (5 # 100); round_double (45 # 100)] -> r < x ->
               Qabs (r - (1 # 4)) < Qabs (x - (1 # 4))) /\
    (forall x, In x [round_double (5 # 100); round_double (45 # 100)] ->
               ~ round_double (Qabs (x - (1 # 4)))
                 < round_double (Qabs (r - (1 # 4)))) /\
    (forall i lo hi,
        nth_error [round_double (5 # 100); round_double (45 # 100)] i = Some lo ->
        nth_error [round_double (5 # 100); round_double (45 # 100)] (S i) = Some hi ->
        lo < 1 # 4 -> 1 # 4 < hi ->
        round_double ((1 # 4) - lo) == round_double (hi - (1 # 4)) ->
        r = hi) /\
    (forall i lo hi,
        exact_tie [round_double (5 # 100); round_double (45 # 100)] (1 # 4) i lo hi ->
        r = hi).
Proof.
  apply (find_nearest_rounded_ties_high round_double
           [round_double (5 # 100); round_double (45 # 100)] (1 # 4)).
  - exact round_double_monotone.
  - discriminate.
  - vm_compute. reflexivity.
Defined.

(** X6.  On a sorted array, whatever the (monotone) rounding of the
    distances: a query lying between two adjacent elements [lo] and [hi] is
    answered with an element of the value of [lo] or of [hi], so the result is
    at most [hi - lo] away from the query. *)
Theorem find_nearest_returns_neighbour (rnd : Q -> Q) (A : list Q) (v : Q) (i : nat)
  (lo hi : Q) :
  monotone rnd -> sorted_ascending A = true ->
  nth_error A i = Some lo -> nth_error A (S i) = Some hi ->
  lo <= v -> v <= hi ->
  exists r, find_nearest_fl rnd A v = Some r /\
            (r == lo \/ r == hi) /\
            Qabs (v - r) <= hi - lo.
Proof.
  intros Hm Hs Hlo Hhi Hl Hh.
  assert (Hne : A <> []) by (intros ->; destruct i; discriminate).
  assert (Hi : (S i < length A)%nat) by (apply nth_error_Some; congruence).
  assert (Elo : nth i A 0 = lo) by (apply nth_error_nth; exact Hlo).
  assert (Ehi : nth (S i) A 0 = hi) by (apply nth_error_nth; exact Hhi).
  destruct (searchsorted_correct A v Hs) as (Hidx & Hlow & Hhigh).
  pose proof (sorted_ascending_nth A Hs) as Hmono.
  rewrite (find_nearest_fl_unfold rnd A v Hne).
  eexists. split; [reflexivity|].
  assert (Hor : nearest_at_fl rnd A v (searchsorted A v) == lo \/
                nearest_at_fl rnd A v (searchsorted A v) == hi).
  { unfold nearest_at_fl. set (idx := searchsorted A v) in *.
    assert (Hle : (idx <= S i)%nat).
    { destruct (Nat.lt_ge_cases (S i) idx) as [H|H]; [|exact H].
      pose proof (Hlow (S i) H). rewrite Ehi in *. lra. }
    destruct (Nat.eq_dec idx (S i)) as [E|N].
    - rewrite E.
      destruct (Nat.eqb_spec (S i) 0) as [|_]; [lia|].
      destruct (Nat.eqb_spec (S i) (length A)) as [|_]; [lia|].
      replace (S i - 1)%nat with i by lia. rewrite Elo, Ehi.
      destruct (Qltb _ _); [left | right]; reflexivity.
    - assert (Hv : nth idx A 0 == lo).
      { pose proof (Hhigh idx ltac:(lia) ltac:(lia)).
        pose proof (Hmono idx i ltac:(lia) ltac:(lia)). rewrite Elo in *. lra. }
      left.
      destruct (Nat.eqb_spec idx 0) as [E0|N0]; [rewrite <- E0; exact Hv|].
      destruct (Nat.eqb_spec idx (length A)) as [|_]; [lia|].
      destruct (Qltb _ _) eqn:E; [|exact Hv].
      apply Qltb_true in E.
      pose proof (Hlow (idx - 1)%nat ltac:(lia)) as Hbelow.
      assert (rnd (nth idx A 0 - v) <= rnd (v - nth (idx - 1) A 0))
        by (apply Hm; lra).
      lra. }
  split; [exact Hor|].
  destruct Hor as [E|E]; qabs_lra.
Qed.

Lemma find_nearest_returns_neighbour_witness :
  exists r,
    find_nearest_fl round_double
      [round_double (5 # 100); round_double (45 # 100)] (1 # 4) = Some r /\
    (r == round_double (5 # 100) \/ r == round_double (45 # 100)) /\
    Qabs ((1 # 4) - r) <= round_double (45 # 100) - round_double (5 # 100).
Proof.
  apply (find_nearest_returns_neighbour round_double
           [round_double (5 # 100); round_double (45 # 100)] (1 # 4) 0
           (round_double (5 # 100)) (round_double (45 # 100))).
  - exact round_double_monotone.
  - vm_compute. reflexivity.
  - reflexivity.
  - reflexivity.
  - vm_compute. discriminate.
  - vm_compute. discriminate.
Defined.

(** ** The uniform grid with rounded products *)

(** Without rounding the grid is the exact one. *)
Lemma uniform_actions_fl_exact (n_acts : Z) :
  uniform_actions_fl (fun x => x) n_acts = uniform_actions n_acts.
Proof. reflexivity. Qed.

Lemma sorted_ascending_map_seq (g : nat -> Q) (s n : nat) :
  (forall k, g k <= g (S k)) -> sorted_ascending (map g (seq s n)) = true.
Proof.
  intro Hg. revert s. induction n as [|n IH]; intro s; [reflexivity|].
  destruct n as [|n]; [reflexivity|].
  specialize (IH (S s)). cbn [seq map] in *. cbn [sorted_ascending].
  apply andb_true_iff. split; [|exact IH].
  apply Qle_bool_iff. apply Hg.
Qed.

Lemma uniform_actions_fl_closed_form (rnd : Q -> Q) (n_acts : Z) :
  n_acts <> 1%Z ->
  uniform_actions_fl rnd n_acts
  = Some (map (fun k => rnd (rnd (1 / inject_Z (n_acts - 1)) * inject_Z (Z.of_nat k)))
              (seq 0 (Z.to_nat n_acts))).
Proof.
  intro N. unfold uniform_actions_fl, range. rewrite <- (map_map Z.of_nat
                (fun i => rnd (rnd (1 / inject_Z (n_acts - 1)) * inject_Z i))).
  apply mapM_Some_map. intros i _.
  unfold py_div_fl.
  destruct (Qeq_bool (inject_Z (n_acts - 1)) 0) eqn:E; [|reflexivity].
  exfalso. apply Qeq_bool_iff in E. unfold Qeq, inject_Z in E. simpl in E. lia.
Qed.

(** In binary64 the [k]-th value of the grid need not be the double nearest to
    [k / (n_acts - 1)], and the grid need not end at 1: for [n_acts = 11] the
    value at [k = 3] is 0.30000000000000004, not 0.3, and for [n_acts = 50]
    the last value is 0.9999999999999999. *)
Lemma uniform_actions_double_values :
  (exists grid,
      uniform_actions_fl round_double 11 = Some grid /\
      round_double (3 # 10) < nth 3 grid 0) /\
  (exists grid,
      uniform_actions_fl round_double 50 = Some grid /\
      nth 49 grid 0 < 1).
Proof.
  split; eexists; (split; [vm_compute; reflexivity|]); vm_compute; reflexivity.
Qed.

(** X16.  For [n_acts >= 2] and any monotone rounding that does not send 0
    below 0, the uniformly spaced grid has [n_acts] values, the [k]-th being
    the rounded product of the rounded quotient [1 / (n_acts - 1)] with [k];
    it starts at the rounding of 0 and is sorted ascending. *)
Theorem uniform_actions_rounded (rnd : Q -> Q) (n_acts : Z) :
  monotone rnd -> 0 <= rnd 0 -> (2 <= n_acts)%Z ->
  exists grid,
    uniform_actions_fl rnd n_acts = Some grid /\
    length grid = Z.to_nat n_acts /\
    (forall k, (k < Z.to_nat n_acts)%nat ->
               nth k grid 0
               = rnd (rnd (1 / inject_Z (n_acts - 1)) * inject_Z (Z.of_nat k))) /\
    nth 0 grid 0 == rnd 0 /\
    sorted_ascending grid = true.
Proof.
  intros Hm H0 Hn. eexists. split; [apply uniform_actions_fl_closed_form; lia|].
  set (c := rnd (1 / inject_Z (n_acts - 1))).
  set (g := fun k => rnd (c * inject_Z (Z.of_nat k))).
  assert (Hlen : length (map g (seq 0 (Z.to_nat n_acts))) = Z.to_nat n_acts)
    by (rewrite length_map; apply length_seq).
  assert (Hnth : forall k, (k < Z.to_nat n_acts)%nat ->
                   nth k (map g (seq 0 (Z.to_nat n_acts))) 0 = g k).
  { intros k Hk.
    rewrite (nth_indep _ 0 (g 0%nat)) by (rewrite Hlen; exact Hk).
    rewrite map_nth, seq_nth by exact Hk. reflexivity. }
  assert (Hc : 0 <= c).
  { apply Qle_trans with (rnd 0); [exact H0|]. apply Hm.
    apply Qle_shift_div_l; [apply inject_Z_pos; lia | lra]. }
  split; [exact Hlen|]. split; [exact Hnth|].
  split.
  - rewrite Hnth by lia. unfold g. apply monotone_value; [exact Hm|].
    simpl. ring.
  - apply sorted_ascending_map_seq. intro k. unfold g. apply Hm.
    rewrite inject_Z_of_nat_succ. nra.
Qed.

Lemma uniform_actions_rounded_witness :
  exists grid,
    uniform_actions_fl round_double 50 = Some grid /\
    length grid = Z.to_nat 50 /\
    (forall k, (k < Z.to_nat 50)%nat ->
               nth k grid 0
               = round_double (round_double (1 / inject_Z (50 - 1))
                               * inject_Z (Z.of_nat k))) /\
    nth 0 grid 0 == round_double 0 /\
    sorted_ascending grid = true.
Proof.
  apply (uniform_actions_rounded round_double 50).
  - exact round_double_monotone.
  - vm_compute. discriminate.
  - lia.
Defined.

(** ** The combined grid in binary64 *)

(** X29.  In binary64 the grid is not symmetric about 1/2, and rounding
    separates sums that are equal over the rationals.  For [max_dim = 1],
    [importance_base = 0.5] and [n_acts = 4] the grid holds
    0.3333333333333333 (the double nearest to 1/3, at index 1) and no value
    equal to 1 minus that one.  For [max_dim = 2] it has eleven values, where
    exact arithmetic gives ten. *)
Theorem get_actions_double_not_symmetric :
  (exists grid x,
      get_actions_importance_sigmoid_fl (double_ops (fun x => x)) 1 (1 # 2) 4
      = Some grid /\
      nth_error grid 1 = Some x /\ x == round_double (1 # 3) /\
      ~ (exists y, In y grid /\ y == 1 - x)) /\
  (exists grid exact_grid,
      get_actions_importance_sigmoid_fl (double_ops (fun x => x)) 2 (1 # 2) 4
      = Some grid /\
      get_actions_importance_sigmoid 2 (1 # 2) 4 = Some exact_grid /\
      length grid = 11%nat /\ length exact_grid = 10%nat).
Proof.
  split.
  - destruct (get_actions_importance_sigmoid_fl (double_ops (fun x => x)) 1 (1 # 2) 4)
      as [grid|] eqn:E; [|vm_compute in E; discriminate E].
    vm_compute in E. injection E as <-.
    eexists. eexists. split; [reflexivity|].
    split; [reflexivity|].
    split; [vm_compute; reflexivity|].
    intros (y & Hy & Hyx).
    cbn [In] in Hy.
    destruct Hy as [<-|[<-|[<-|[<-|[]]]]]; vm_compute in Hyx; discriminate Hyx.
  - destruct (get_actions_importance_sigmoid_fl (double_ops (fun x => x)) 2 (1 # 2) 4)
      as [grid|] eqn:E; [|vm_compute in E; discriminate E].
    destruct (get_actions_importance_sigmoid 2 (1 # 2) 4)
      as [exact_grid|] eqn:E'; [|vm_compute in E'; discriminate E'].
    exists grid, exact_grid. split; [reflexivity|]. split; [reflexivity|].
    vm_compute in E. injection E as <-.
    vm_compute in E'. injection E' as <-.
    split; reflexivity.
Qed.

(** ** Best possible average reward in double precision *)

Lemma visited_rotate (l : list Env) (j : nat) :
  (j < length l)%nat -> visited l j (length l) = rotate j l.
Proof.
  intro Hj. unfold rotate.
  replace (length l) with ((length l - j) + j)%nat at 1 by lia.
  rewrite visited_app by exact Hj.
  replace (j + (length l - j))%nat with (length l) by lia.
  rewrite Nat.Div0.mod_same.
  rewrite !visited_segment by lia.
  rewrite firstn_all2 by (rewrite length_skipn; lia).
  reflexivity.
Qed.

Lemma rotate_Permutation {A : Type} (j : nat) (l : list A) :
  Permutation (rotate j l) l.
Proof.
  unfold rotate. rewrite Permutation_app_comm, firstn_skipn. reflexivity.
Qed.

(** The loop records the rewards of the visited instances, in order. *)
Lemma instance_round_visited (reward : Env -> option Q) (l : list Env) (k : nat) :
  forall start acc j,
    (j < length l)%nat ->
    option_map fst
      (for_range start k (instance_round reward) (acc, mkEnvState l j))
    = option_map (fun rs => acc ++ rs) (mapM reward (visited l j k)).
Proof.
  induction k as [|k IH]; intros start acc j Hj.
  - simpl. rewrite app_nil_r. reflexivity.
  - cbn [for_range visited]. unfold instance_round at 1.
    unfold current_instance. cbn [instance_set inst_id].
    destruct (nth_error l j) as [inst|] eqn:E;
      [|apply nth_error_None in E; lia].
    cbn [bind mapM].
    destruct (reward inst) as [r|]; [|reflexivity].
    cbn [bind]. unfold reset. cbn [instance_set inst_id].
    assert (Hlen : (0 < length l)%nat) by lia.
    destruct l as [|x t]; [simpl in Hj; lia|]. set (l := x :: t) in *.
    cbn [bind]. rewrite IH by (apply Nat.mod_upper_bound; lia).
    destruct (mapM reward (visited l ((j + 1) mod length l) k)) as [rs|];
      [|reflexivity].
    cbn [option_map]. rewrite <- app_assoc. reflexivity.
Qed.

(** The array of rewards: the instances are visited from the one after the
    current instance on, wrapping around; no instance means an exception. *)
Lemma optimal_reward_per_episode_fl_rotate (ops : FloatOps) (env : EnvState)
  (grid : list Q) (reward_shape : option string) (c : option Q) :
  optimal_reward_per_episode_fl ops env grid reward_shape c
  = match instance_set env with
    | [] => None
    | _ :: _ =>
        mapM (fun inst => compute_optimal_episode_reward_fl ops inst grid
                            reward_shape c)
             (rotate ((inst_id env + 1) mod length (instance_set env))
                     (instance_set env))
    end.
Proof.
  unfold optimal_reward_per_episode_fl, instance_id_list. rewrite length_seq.
  destruct env as [l j]. cbn [instance_set inst_id].
  destruct l as [|x t] eqn:El; [reflexivity|]. rewrite <- El.
  assert (Hlen : (0 < length l)%nat) by (rewrite El; simpl; lia).
  assert (Hj : ((j + 1) mod length l < length l)%nat)
    by (apply Nat.mod_upper_bound; lia).
  assert (Hreset : reset (mkEnvState l j)
                   = Some (mkEnvState l ((j + 1) mod length l))).
  { unfold reset. cbn [instance_set inst_id]. rewrite El at 1. reflexivity. }
  rewrite Hreset. cbn [bind].
  pose proof (instance_round_visited
                (fun inst => compute_optimal_episode_reward_fl ops inst grid
                               reward_shape c)
                l (length l) 0 [] ((j + 1) mod length l) Hj) as H.
  rewrite (visited_rotate l _ Hj) in H.
  destruct (for_range 0 (length l) _ ([], mkEnvState l ((j + 1) mod length l)))
    as [res|];
    destruct (mapM _ (rotate ((j + 1) mod length l) l)) as [rs|];
    cbn [option_map bind app] in *; congruence.
Qed.

(** Without rounding the computation is the exact one. *)
Lemma get_best_possible_avg_reward_fl_exact (np_exp : Q -> Q) (B : Benchmarks)
  (dim : Z) (benchmark : string) (reward_shape : option string) (c : option Q)
  (importance_base : Q) (n_acts : Z) (max_dim : option Z) :
  get_best_possible_avg_reward_fl (exact_ops np_exp) B dim benchmark reward_shape c
    importance_base n_acts max_dim
  = get_best_possible_avg_reward np_exp B dim benchmark reward_shape c
      importance_base n_acts max_dim.
Proof. reflexivity. Qed.

(** X19.  The best possible average reward is [np.mean] of the optimal
    episode rewards on the benchmark's grid, taken over the instances of the
    environment built for the benchmark in visiting order: the instance list
    read from the instance after the current one, wrapping around.  It raises
    when the grid raises, when the environment has no instance, or when one
    instance raises. *)
Theorem best_possible_avg_reward_visiting_order (ops : FloatOps) (B : Benchmarks)
  (dim : Z) (benchmark : string) (reward_shape : option string) (c : option Q)
  (importance_base : Q) (n_acts : Z) (max_dim : option Z) :
  get_best_possible_avg_reward_fl ops B dim benchmark reward_shape c
    importance_base n_acts max_dim
  = (grid <- benchmark_grid_fl ops benchmark importance_base n_acts max_dim ;;
     let env := benchmark_env_fl ops B dim benchmark reward_shape importance_base
                  n_acts in
     match instance_set env with
     | [] => None
     | _ :: _ =>
         rewards <- mapM (fun inst =>
                            compute_optimal_episode_reward_fl ops inst grid
                              reward_shape c)
                         (rotate ((inst_id env + 1) mod length (instance_set env))
                                 (instance_set env)) ;;
         Some (float_mean ops rewards)
     end).
Proof.
  unfold get_best_possible_avg_reward_fl, benchmark_grid_fl, benchmark_env_fl.
  destruct (if String.eqb benchmark "candid_sigmoid" || String.eqb benchmark "piecewise_linear"
            then max_dim' <- max_dim ;;
                 get_actions_importance_sigmoid_fl ops max_dim' importance_base n_acts
            else uniform_actions_fl (fl ops) n_acts) as [grid|]; cbn [bind];
    [|reflexivity].
  cbv zeta.
  destruct (String.eqb benchmark "candid_sigmoid");
    [|destruct (String.eqb benchmark "piecewise_linear")];
    rewrite optimal_reward_per_episode_fl_rotate;
    match goal with
    | |- context [instance_set ?e] => destruct (instance_set e); reflexivity
    end.
Qed.

(** Over the rationals the mean does not depend on the order of the
    elements. *)
Lemma fold_left_Qplus_acc (l : list Q) :
  forall a, fold_left Qplus l a == a + fold_left Qplus l 0.
Proof.
  induction l as [|x t IH]; intro a; simpl; [lra|].
  rewrite (IH (a + x)), (IH (0 + x)). lra.
Qed.

Lemma py_sum_cons (x : Q) (l : list Q) : py_sum (x :: l) == x + py_sum l.
Proof.
  unfold py_sum. simpl. rewrite fold_left_Qplus_acc. lra.
Qed.

Lemma py_sum_Permutation (l1 l2 : list Q) :
  Permutation l1 l2 -> py_sum l1 == py_sum l2.
Proof.
  induction 1 as [|x l1 l2 _ IH|x y l|l1 l2 l3 _ IH1 _ IH2].
  - reflexivity.
  - rewrite !py_sum_cons, IH. reflexivity.
  - rewrite !py_sum_cons. lra.
  - rewrite IH1. exact IH2.
Qed.

Lemma exact_mean_Permutation (np_exp : Q -> Q) (l1 l2 : list Q) :
  Permutation l1 l2 ->
  float_mean (exact_ops np_exp) l1 == float_mean (exact_ops np_exp) l2.
Proof.
  intro P. cbn [float_mean exact_ops]. unfold np_mean.
  rewrite (py_sum_Permutation l1 l2 P), (Permutation_length P). reflexivity.
Qed.

(** C6, as stated, in binary64: three instances with optimal rewards 0.99,
    0.98 and 0.85 (one step each, truths 0.01, 0.02 and 0.15 on the grid
    [0, 1]), enumerated in this order and in the order 0.98, 0.85, 0.99, give
    the means 0.94 and 0.9400000000000001. *)
Lemma best_possible_avg_reward_depends_on_order :
  same_instances_reordered
    (sigmoid_suite
       [one_step_instance (round_double (1 # 100));
        one_step_instance (round_double (2 # 100));
        one_step_instance (round_double (15 # 100))] 2)
    (sigmoid_suite
       [one_step_instance (round_double (2 # 100));
        one_step_instance (round_double (15 # 100));
        one_step_instance (round_double (1 # 100))] 2) /\
  optimal_reward_per_episode_fl (double_ops (fun x => x))
    (mkEnvState
       [one_step_instance (round_double (1 # 100));
        one_step_instance (round_double (2 # 100));
        one_step_instance (round_double (15 # 100))] 2)
    [0; 1] None None
  = Some [round_double (99 # 100); round_double (98 # 100); round_double (85 # 100)] /\
  ~ opt_Qeq
      (get_best_possible_avg_reward_fl (double_ops (fun x => x))
         (sigmoid_suite
            [one_step_instance (round_double (1 # 100));
             one_step_instance (round_double (2 # 100));
             one_step_instance (round_double (15 # 100))] 2)
         1 "sigmoid" None None (1 # 2) 2 None)
      (get_best_possible_avg_reward_fl (double_ops (fun x => x))
         (sigmoid_suite
            [one_step_instance (round_double (2 # 100));
             one_step_instance (round_double (15 # 100));
             one_step_instance (round_double (1 # 100))] 2)
         1 "sigmoid" None None (1 # 2) 2 None).
Proof.
  split; [|split].
  - unfold same_instances_reordered, sigmoid_suite. cbn [get_importances_benchmark
      get_piecewise_environment get_benchmark instance_set].
    split; [intros; apply Permutation_refl|].
    split; [intros; apply Permutation_refl|].
    intros _. apply (Permutation_cons_append [_; _]).
  - vm_compute. reflexivity.
  - vm_compute. discriminate.
Qed.

(** C6, amended.  Over two benchmark suites that build environments with the
    same instances in a different enumeration order, either both calls raise,
    or the two arrays of per-instance optimal rewards hold the same values,
    rearranged, and each call returns [np.mean] of its array.  The two means
    are therefore equal whenever the mean does not depend on the order of the
    elements, as in exact arithmetic. *)
Theorem best_possible_avg_reward_same_rewards (ops : FloatOps) (B1 B2 : Benchmarks)
  (dim : Z) (benchmark : string) (reward_shape : option string) (c : option Q)
  (importance_base : Q) (n_acts : Z) (max_dim : option Z) :
  same_instances_reordered B1 B2 ->
  ((get_best_possible_avg_reward_fl ops B1 dim benchmark reward_shape c
      importance_base n_acts max_dim = None /\
    get_best_possible_avg_reward_fl ops B2 dim benchmark reward_shape c
      importance_base n_acts max_dim = None) \/
   (exists grid rewards1 rewards2,
       benchmark_grid_fl ops benchmark importance_base n_acts max_dim = Some grid /\
       optimal_reward_per_episode_fl ops
         (benchmark_env_fl ops B1 dim benchmark reward_shape importance_base n_acts)
         grid reward_shape c = Some rewards1 /\
       optimal_reward_per_episode_fl ops
         (benchmark_env_fl ops B2 dim benchmark reward_shape importance_base n_acts)
         grid reward_shape c = Some rewards2 /\
       Permutation rewards1 rewards2 /\
       get_best_possible_avg_reward_fl ops B1 dim benchmark reward_shape c
         importance_base n_acts max_dim = Some (float_mean ops rewards1) /\
       get_best_possible_avg_reward_fl ops B2 dim benchmark reward_shape c
         importance_base n_acts max_dim = Some (float_mean ops rewards2))) /\
  ((forall l l', Permutation l l' -> float_mean ops l == float_mean ops l') ->
   opt_Qeq
     (get_best_possible_avg_reward_fl ops B1 dim benchmark reward_shape c
        importance_base n_acts max_dim)
     (get_best_possible_avg_reward_fl ops B2 dim benchmark reward_shape c
        importance_base n_acts max_dim)).
Proof.
  intros Hsame.
  assert (Henv : Permutation
                   (instance_set (benchmark_env_fl ops B1 dim benchmark reward_shape
                                    importance_base n_acts))
                   (instance_set (benchmark_env_fl ops B2 dim benchmark reward_shape
                                    importance_base n_acts))).
  { destruct Hsame as (Himp & Hpw & Hsig). unfold benchmark_env_fl.
    destruct (String.eqb benchmark "candid_sigmoid");
      [|destruct (String.eqb benchmark "piecewise_linear")]; auto. }
  assert (Hget : forall B,
             get_best_possible_avg_reward_fl ops B dim benchmark reward_shape c
               importance_base n_acts max_dim
             = (grid <- benchmark_grid_fl ops benchmark importance_base n_acts max_dim ;;
                rs <- optimal_reward_per_episode_fl ops
                        (benchmark_env_fl ops B dim benchmark reward_shape
                           importance_base n_acts) grid reward_shape c ;;
                Some (float_mean ops rs))).
  { intro B. unfold get_best_possible_avg_reward_fl, benchmark_grid_fl,
      benchmark_env_fl.
    destruct (if String.eqb benchmark "candid_sigmoid" || String.eqb benchmark "piecewise_linear"
              then _ else _) as [grid|]; cbn [bind]; [|reflexivity].
    destruct (String.eqb benchmark "candid_sigmoid");
      [|destruct (String.eqb benchmark "piecewise_linear")]; reflexivity. }
  rewrite !Hget.
  destruct (benchmark_grid_fl ops benchmark importance_base n_acts max_dim)
    as [grid|] eqn:Egrid; cbn [bind];
    [|split; [left; split; reflexivity | intros _; exact I]].
  set (env1 := benchmark_env_fl ops B1 dim benchmark reward_shape importance_base
                 n_acts) in *.
  set (env2 := benchmark_env_fl ops B2 dim benchmark reward_shape importance_base
                 n_acts) in *.
  assert (Hrewards :
            opt_rel (@Permutation Q)
              (optimal_reward_per_episode_fl ops env1 grid reward_shape c)
              (optimal_reward_per_episode_fl ops env2 grid reward_shape c)).
  { rewrite !optimal_reward_per_episode_fl_rotate.
    destruct (instance_set env1) as [|x1 t1] eqn:E1.
    - apply Permutation_nil in Henv. rewrite Henv. exact I.
    - destruct (instance_set env2) as [|x2 t2] eqn:E2.
      + apply Permutation_sym, Permutation_nil in Henv. discriminate.
      + rewrite <- E1, <- E2 in *.
        apply (mapM_Permutation
                 (fun inst => compute_optimal_episode_reward_fl ops inst grid
                                reward_shape c)).
        rewrite !rotate_Permutation. exact Henv. }
  destruct (optimal_reward_per_episode_fl ops env1 grid reward_shape c)
    as [rs1|] eqn:E1;
    destruct (optimal_reward_per_episode_fl ops env2 grid reward_shape c)
      as [rs2|] eqn:E2;
    cbn [opt_rel bind] in *; try tauto.
  split.
  - right. exists grid, rs1, rs2.
    repeat split;
      first [exact Hrewards | assumption | reflexivity
            | rewrite ?E1, ?E2; reflexivity].
  - intro Hmean. apply Hmean. exact Hrewards.
Qed.

Lemma best_possible_avg_reward_same_rewards_witness :
  exists grid rewards1 rewards2,
    benchmark_grid_fl (double_ops (fun x => x)) "sigmoid" (1 # 2) 2 None
    = Some grid /\
    optimal_reward_per_episode_fl (double_ops (fun x => x))
      (mkEnvState
         [one_step_instance (round_double (1 # 100));
          one_step_instance (round_double (15 # 100))] 0)
      grid None None = Some rewards1 /\
    optimal_reward_per_episode_fl (double_ops (fun x => x))
      (mkEnvState
         [one_step_instance (round_double (15 # 100));
          one_step_instance (round_double (1 # 100))] 0)
      grid None None = Some rewards2 /\
    Permutation rewards1 rewards2.
Proof.
  destruct (proj1 (best_possible_avg_reward_same_rewards (double_ops (fun x => x))
                     (sigmoid_suite
                        [one_step_instance (round_double (1 # 100));
                         one_step_instance (round_double (15 # 100))] 0)
                     (sigmoid_suite
                        [one_step_instance (round_double (15 # 100));
                         one_step_instance (round_double (1 # 100))] 0)
                     1 "sigmoid" None None (1 # 2) 2 None
                     (conj (fun _ _ _ => Permutation_refl _)
                        (conj (fun _ _ => Permutation_refl _)
                           (fun _ => perm_swap _ _ _)))))
    as [[H _] | (grid & rewards1 & rewards2 & Hg & H1 & H2 & Hperm & _)].
  - vm_compute in H. discriminate H.
  - exists grid, rewards1, rewards2. repeat split; assumption.
Defined.
